(** * Document streaming core of the chat template: a shallow embedding

    The development follows the TypeScript sources of the repository:
    the client-side stream handler ([DataStreamHandler]), the text artifact
    ([textArtifact.onStreamPart]), the server-side document handlers
    ([createDocumentHandler], the code and sheet handlers), the decoders
    ([processCodeOutput], [extractCSVContent]), the message merger
    ([sanitizeUIMessages], [convertToUIMessages]) and the text normalizer
    ([processText]).

    Conventions.  A JavaScript string is a sequence of code units; the model
    uses [string], whose characters are the code units 0..255.  White space
    (what [trim] strips and what the regular expression class \s accepts) is,
    in that range, the set 9, 10, 11, 12, 13, 32 and 160. *)

From Stdlib Require Import String Ascii List Bool Arith Lia ZArith.
From stdpp Require Import gmap strings.

Import ListNotations.
Local Open Scope string_scope.

(* ===================================================================== *)
(** * JavaScript string primitives *)
(* ===================================================================== *)

Module JS.

(** [s.slice(0, n)] for [0 <= n]. *)
Fixpoint take (n : nat) (s : string) : string :=
  match n, s with
  | S n', String c s' => String c (take n' s')
  | _, _ => EmptyString
  end.

(** [s.slice(n)] for [0 <= n]. *)
Fixpoint drop (n : nat) (s : string) : string :=
  match n, s with
  | S n', String _ s' => drop n' s'
  | _, _ => s
  end.

(** [s.slice(-n)]: the last [n] code units; [slice(-0)] is [slice(0)],
    the whole string. *)
Definition slice_last (n : nat) (s : string) : string :=
  if Nat.eqb n 0 then s else drop (String.length s - n) s.

(** [s.startsWith(p)]. *)
Fixpoint startsWith (s p : string) : bool :=
  match p, s with
  | EmptyString, _ => true
  | String a p', String b s' => Ascii.eqb a b && startsWith s' p'
  | String _ _, EmptyString => false
  end.

(** [s.endsWith(p)]. *)
Definition endsWith (s p : string) : bool :=
  Nat.leb (String.length p) (String.length s)
  && String.eqb (drop (String.length s - String.length p) s) p.

(** [s.includes(p)]. *)
Fixpoint includes (s p : string) : bool :=
  startsWith s p
  || match s with
     | EmptyString => false
     | String _ s' => includes s' p
     end.

(** White space code units (ECMAScript WhiteSpace and LineTerminator). *)
Definition isSpace (c : ascii) : bool :=
  let n := nat_of_ascii c in
  (Nat.leb 9 n && Nat.leb n 13) || Nat.eqb n 32 || Nat.eqb n 160.

Fixpoint trimStart (s : string) : string :=
  match s with
  | String c s' => if isSpace c then trimStart s' else s
  | EmptyString => EmptyString
  end.

(** [trimEnd] keeps a character when it is not white space or when
    something remains after it. *)
Fixpoint trimEnd (s : string) : string :=
  match s with
  | EmptyString => EmptyString
  | String c s' =>
      match trimEnd s' with
      | EmptyString => if isSpace c then EmptyString else String c EmptyString
      | t => String c t
      end
  end.

(** [s.trim()]. *)
Definition trim (s : string) : string := trimEnd (trimStart s).

(** [s.toLowerCase()] on the letters A..Z and the Latin-1 capitals. *)
Definition lowerChar (c : ascii) : ascii :=
  let n := nat_of_ascii c in
  if (Nat.leb 65 n && Nat.leb n 90)
     || (Nat.leb 192 n && Nat.leb n 222 && negb (Nat.eqb n 215))
  then ascii_of_nat (n + 32) else c.

Fixpoint toLowerCase (s : string) : string :=
  match s with
  | EmptyString => EmptyString
  | String c s' => String (lowerChar c) (toLowerCase s')
  end.

(** [s.split(sep)] for a one-character separator: never the empty list. *)
Fixpoint split (sep : ascii) (s : string) : list string :=
  match s with
  | EmptyString => [EmptyString]
  | String c s' =>
      if Ascii.eqb c sep then EmptyString :: split sep s'
      else match split sep s' with
           | l :: ls => String c l :: ls
           | [] => [String c EmptyString]
           end
  end.

(** [ls.join(sep)]. *)
Fixpoint join (sep : string) (ls : list string) : string :=
  match ls with
  | [] => EmptyString
  | [l] => l
  | l :: ls' => l +:+ sep +:+ join sep ls'
  end.

(** Truthiness of a string: [!s] is [true] exactly for the empty string. *)
Definition truthy (s : string) : bool :=
  match s with EmptyString => false | _ => true end.

Definition nl : ascii := ascii_of_nat 10.
Definition NL : string := String nl EmptyString.

End JS.

(* ===================================================================== *)
(** * The artifact and the stream records (components/artifact, hooks/use-artifact) *)
(* ===================================================================== *)

(** ['text' | 'code' | 'sheet' | 'image']. *)
Inductive ArtifactKind := kind_text | kind_code | kind_sheet | kind_image.

Inductive ArtifactStatus := streaming | idle.

Record BoundingBox := { top : Z; left : Z; width : Z; height : Z }.

Record UIArtifact := {
  documentId : string;
  content : string;
  kind : ArtifactKind;
  title : string;
  status : ArtifactStatus;
  isVisible : bool;
  boundingBox : BoundingBox
}.

(** [initialArtifactData] of hooks/use-artifact. *)
Definition initialArtifactData : UIArtifact := {|
  documentId := "init";
  content := "";
  kind := kind_text;
  title := "";
  status := idle;
  isVisible := false;
  boundingBox := {| top := 0; left := 0; width := 0; height := 0 |}
|}.

(** A suggestion record; only its identity matters to the stream handler. *)
Record Suggestion := {
  sug_id : string;
  sug_documentId : string;
  originalText : string;
  suggestedText : string;
  description : string
}.

(** [DataStreamDelta]: the [type] tag with its [content].  The source casts
    [content] to [string] (to [ArtifactKind] for [kind]) in every case but
    [suggestion]; the constructors carry the payload at that type. *)
Inductive DataStreamDelta :=
| d_text_delta (c : string)
| d_code_delta (c : string)
| d_sheet_delta (c : string)
| d_image_delta (c : string)
| d_title (c : string)
| d_id (c : string)
| d_suggestion (s : Suggestion)
| d_clear
| d_finish
| d_kind (k : ArtifactKind).

(** The SWR cache cell holding the artifact: [undefined] before the first
    write.  [setArtifact] of [useArtifact] falls back to
    [initialArtifactData]. *)
Definition ArtifactStore := option UIArtifact.

Definition current (st : ArtifactStore) : UIArtifact :=
  match st with Some a => a | None => initialArtifactData end.

Definition setArtifact (updaterFn : UIArtifact -> UIArtifact)
    (st : ArtifactStore) : ArtifactStore :=
  Some (updaterFn (current st)).

(* ===================================================================== *)
(** * Fragment deduplication *)
(* ===================================================================== *)

(** The loop of the immediate handler:
    [for (let i = Math.min(overlapWindow, deltaContent.length); i > 0; i--)]
    with the test [endOfExisting.endsWith(deltaContent.slice(0, i))];
    the result is the number of characters stripped (0 when the loop ends
    without a hit). *)
Fixpoint findOverlap (endOfExisting deltaContent : string) (i : nat) : nat :=
  match i with
  | 0 => 0
  | S i' =>
      if JS.endsWith endOfExisting (JS.take i deltaContent) then i
      else findOverlap endOfExisting deltaContent i'
  end.

(** Characters stripped from [deltaContent] by the immediate handler. *)
Definition dedupe (existingContent deltaContent : string) : nat :=
  if Nat.ltb 0 (String.length existingContent) then
    let overlapWindow := Nat.min (String.length deltaContent) 50 in
    let endOfExisting := JS.slice_last overlapWindow existingContent in
    findOverlap endOfExisting deltaContent
      (Nat.min overlapWindow (String.length deltaContent))
  else 0.

(** The [text-delta] case of the immediate handler's reducer. *)
Definition appendDeduped (existingContent deltaContent : string) : string :=
  existingContent +:+ JS.drop (dedupe existingContent deltaContent) deltaContent.

(** The loop of the buffering handler:
    [for (let overlapSize = maxOverlapCheck; overlapSize > 2; overlapSize--)]. *)
Fixpoint findOverlapBuffered (endOfExisting contentToAdd : string)
    (overlapSize : nat) : nat :=
  match overlapSize with
  | 0 => 0
  | S n' =>
      if Nat.ltb 2 overlapSize then
        if Nat.leb overlapSize (String.length endOfExisting)
           && Nat.leb overlapSize (String.length contentToAdd)
           && String.eqb (JS.slice_last overlapSize endOfExisting)
                         (JS.take overlapSize contentToAdd)
        then overlapSize
        else findOverlapBuffered endOfExisting contentToAdd n'
      else 0
  end.

(** Characters stripped by the buffering handler's [flushTextBuffer]. *)
Definition dedupeBuffered (existingContent contentToAdd : string) : nat :=
  if Nat.ltb 0 (String.length existingContent)
     && Nat.ltb 0 (String.length contentToAdd) then
    if JS.endsWith existingContent contentToAdd then String.length contentToAdd
    else
      let maxOverlapCheck := Nat.min (String.length contentToAdd) 100 in
      let endOfExisting := JS.slice_last maxOverlapCheck existingContent in
      findOverlapBuffered endOfExisting contentToAdd maxOverlapCheck
  else 0.

(** The last [k] characters of the buffer equal the first [k] characters of
    the fragment. *)
Definition overlaps (buffer fragment : string) (k : nat) : Prop :=
  k <= String.length buffer /\ k <= String.length fragment
  /\ JS.drop (String.length buffer - k) buffer = JS.take k fragment.

(** [k] is an overlap, and no overlap of a length [j] with [k < j],
    [lo <= j] and [j <= hi] exists. *)
Definition longestOverlap (buffer fragment : string) (lo hi k : nat) : Prop :=
  overlaps buffer fragment k
  /\ forall j, k < j -> lo <= j -> j <= hi -> ~ overlaps buffer fragment j.

(* ===================================================================== *)
(** * Regular expressions of the sources *)
(* ===================================================================== *)

(** A backtracking matcher for the fragment of ECMAScript regular
    expressions that the sources use: character classes, sequence,
    alternation (left first), greedy and lazy repetition, capture groups,
    the assertions ^ and $ (with and without the [m] flag) and negative
    lookahead.  Matching is by continuation, so that alternatives are tried
    in the order the language prescribes. *)
Module Regex.

Inductive regex :=
| Eps
| Chr (p : ascii -> bool)
| Seq (r1 r2 : regex)
| Alt (r1 r2 : regex)
| Star (greedy : bool) (r : regex)
| Group (i : nat) (r : regex)
| Bol                      (* ^ under the m flag *)
| Eol                      (* $ under the m flag *)
| Bos                      (* ^ without the m flag *)
| Eos                      (* $ without the m flag *)
| NotAhead (r : regex).    (* (?!r) *)

(** Position in the subject: the code unit before it, what remains, the
    index, and the captures made so far (latest first). *)
Record mstate := {
  prev : option ascii;
  rest : string;
  pos : nat;
  caps : list (nat * string)
}.

Definition isLineTerminator (c : ascii) : bool :=
  let n := nat_of_ascii c in Nat.eqb n 10 || Nat.eqb n 13.

Definition atLineStart (st : mstate) : bool :=
  match prev st with None => true | Some c => isLineTerminator c end.

Definition atLineEnd (st : mstate) : bool :=
  match rest st with EmptyString => true | String c _ => isLineTerminator c end.

Definition atStart (st : mstate) : bool :=
  match prev st with None => true | Some _ => false end.

Definition atEnd (st : mstate) : bool :=
  match rest st with EmptyString => true | String _ _ => false end.

Definition orElse {A} (x y : option A) : option A :=
  match x with Some _ => x | None => y end.

Fixpoint rmatch (r : regex) (st : mstate) (k : mstate -> option mstate)
    {struct r} : option mstate :=
  match r with
  | Eps => k st
  | Chr p =>
      match rest st with
      | String c s' =>
          if p c
          then k {| prev := Some c; rest := s'; pos := S (pos st); caps := caps st |}
          else None
      | EmptyString => None
      end
  | Seq r1 r2 => rmatch r1 st (fun st' => rmatch r2 st' k)
  | Alt r1 r2 => orElse (rmatch r1 st k) (rmatch r2 st k)
  | Star greedy r' =>
      (fix loop (n : nat) (st : mstate) {struct n} : option mstate :=
         match n with
         | 0 => k st
         | S n' =>
             let iter :=
               rmatch r' st
                 (fun st' => if Nat.ltb (pos st) (pos st') then loop n' st' else None) in
             if greedy then orElse iter (k st) else orElse (k st) iter
         end) (S (String.length (rest st))) st
  | Group i r' =>
      rmatch r' st
        (fun st' =>
           k {| prev := prev st'; rest := rest st'; pos := pos st';
                caps := (i, JS.take (pos st' - pos st) (rest st)) :: caps st' |})
  | Bol => if atLineStart st then k st else None
  | Eol => if atLineEnd st then k st else None
  | Bos => if atStart st then k st else None
  | Eos => if atEnd st then k st else None
  | NotAhead r' =>
      match rmatch r' st Some with
      | Some _ => None
      | None => k st
      end
  end.

(** One attempt at the current position. *)
Definition matchHere (r : regex) (st : mstate) : option mstate :=
  rmatch r st Some.

Definition start (s : string) : mstate :=
  {| prev := None; rest := s; pos := 0; caps := [] |}.

Definition step (st : mstate) : option mstate :=
  match rest st with
  | String c s' => Some {| prev := Some c; rest := s'; pos := S (pos st); caps := [] |}
  | EmptyString => None
  end.

(** [exec]: the leftmost match at or after a position, as the start state
    and the end state. *)
Fixpoint searchFrom (fuel : nat) (r : regex) (st : mstate)
    : option (mstate * mstate) :=
  match matchHere r st with
  | Some e => Some (st, e)
  | None =>
      match fuel, step st with
      | S f, Some st' => searchFrom f r st'
      | _, _ => None
      end
  end.

Definition exec (r : regex) (s : string) : option (mstate * mstate) :=
  searchFrom (String.length s) r (start s).

(** [r.test(s)]. *)
Definition test (r : regex) (s : string) : bool :=
  match exec r s with Some _ => true | None => false end.

(** The text of capture group [i] ([""] when it did not take part). *)
Fixpoint capture (i : nat) (cs : list (nat * string)) : string :=
  match cs with
  | [] => EmptyString
  | (j, v) :: cs' => if Nat.eqb i j then v else capture i cs'
  end.

(** The matched text, given the start and the end of a match. *)
Definition matched (b e : mstate) : string :=
  JS.take (pos e - pos b) (rest b).

(** Replacement templates: literal text and group references [$n]. *)
Inductive piece := Lit (s : string) | Ref (i : nat).

Fixpoint expand (t : list piece) (cs : list (nat * string)) : string :=
  match t with
  | [] => EmptyString
  | Lit s :: t' => s +:+ expand t' cs
  | Ref i :: t' => capture i cs +:+ expand t' cs
  end.

(** [s.replace(r, t)] for a regular expression with the [g] flag: after
    an empty match the scan advances by one code unit. *)
Fixpoint replaceFrom (fuel : nat) (r : regex) (t : list piece) (st : mstate)
    : string :=
  let copy f :=
    match rest st with
    | String c s' =>
        String c (replaceFrom f r t
                    {| prev := Some c; rest := s'; pos := S (pos st); caps := [] |})
    | EmptyString => EmptyString
    end in
  match fuel with
  | 0 => rest st
  | S f =>
      match matchHere r st with
      | Some e =>
          if Nat.eqb (pos e) (pos st)
          then expand t (caps e) +:+ copy f
          else expand t (caps e)
               +:+ replaceFrom f r t
                     {| prev := prev e; rest := rest e; pos := pos e; caps := [] |}
      | None => copy f
      end
  end.

Definition replaceAll (r : regex) (t : list piece) (s : string) : string :=
  replaceFrom (S (String.length s)) r t (start s).

(** ** Notation for writing the patterns *)

Definition isChar (c : ascii) : ascii -> bool := Ascii.eqb c.
Definition inRange (lo hi : ascii) (c : ascii) : bool :=
  Nat.leb (nat_of_ascii lo) (nat_of_ascii c)
  && Nat.leb (nat_of_ascii c) (nat_of_ascii hi).
Definition oneOf (cs : string) (c : ascii) : bool :=
  existsb (Ascii.eqb c) (list_ascii_of_string cs).
Definition isDigit : ascii -> bool := inRange "0" "9".
Definition isLower : ascii -> bool := inRange "a" "z".
Definition isUpper : ascii -> bool := inRange "A" "Z".
Definition anyChar : ascii -> bool := fun _ => true.        (* [\s\S] *)
Definition dot (c : ascii) : bool := negb (isLineTerminator c).   (* . *)
Definition notP (p : ascii -> bool) (c : ascii) : bool := negb (p c).
Definition orP (p q : ascii -> bool) (c : ascii) : bool := p c || q c.
(** A letter under the [i] flag. *)
Definition ci (c : ascii) (d : ascii) : bool :=
  Ascii.eqb (JS.lowerChar c) (JS.lowerChar d).

(** The literal text [s]. *)
Fixpoint lit (s : string) : regex :=
  match s with
  | EmptyString => Eps
  | String c s' => Seq (Chr (isChar c)) (lit s')
  end.

(** The literal text [s] under the [i] flag. *)
Fixpoint liti (s : string) : regex :=
  match s with
  | EmptyString => Eps
  | String c s' => Seq (Chr (ci c)) (liti s')
  end.

Definition plus (r : regex) : regex := Seq r (Star true r).      (* r+ *)
Definition plusLazy (r : regex) : regex := Seq r (Star false r). (* r+? *)
Definition opt (r : regex) : regex := Alt r Eps.                 (* r? *)

(** [r{0,n}], greedy. *)
Fixpoint upTo (n : nat) (r : regex) : regex :=
  match n with
  | 0 => Eps
  | S n' => opt (Seq r (upTo n' r))
  end.

(** [r{n}]. *)
Fixpoint times (n : nat) (r : regex) : regex :=
  match n with
  | 0 => Eps
  | S n' => Seq r (times n' r)
  end.

Fixpoint seqs (rs : list regex) : regex :=
  match rs with
  | [] => Eps
  | [r] => r
  | r :: rs' => Seq r (seqs rs')
  end.

End Regex.

(* ===================================================================== *)
(** * Content normalizer: [processText] *)
(* ===================================================================== *)

Module Normalizer.
Import Regex.

Record TextProcessingOptions := {
  preserveNewlines : bool;
  preserveSpaces : bool;
  preserveMarkdownHeadings : bool
}.

(** The defaults of the destructuring pattern. *)
Definition defaultOptions : TextProcessingOptions :=
  {| preserveNewlines := false; preserveSpaces := false;
     preserveMarkdownHeadings := false |}.

Definition tab : ascii := ascii_of_nat 9.
Definition ff : ascii := ascii_of_nat 12.
Definition cr : ascii := ascii_of_nat 13.
Definition sp : ascii := ascii_of_nat 32.
Definition isNl : ascii -> bool := isChar JS.nl.

(** /[\t\f\r ]+/g *)
Definition reBlanks : regex :=
  plus (Chr (fun c => isChar tab c || isChar ff c || isChar cr c || isChar sp c)).
(** /^(#{1,6})([^\s#])/gm *)
Definition reHeading : regex :=
  seqs [Bol; Group 1 (Seq (Chr (isChar "#")) (upTo 5 (Chr (isChar "#"))));
        Group 2 (Chr (notP (orP JS.isSpace (isChar "#"))))].
(** /^(\d+)\.(\s* )/gm  (written with a blank before the closing parenthesis) *)
Definition reNumbered : regex :=
  seqs [Bol; Group 1 (plus (Chr isDigit)); Chr (isChar ".");
        Group 2 (Star true (Chr JS.isSpace))].
(** /^([*-])\s*/gm *)
Definition reBullet : regex :=
  seqs [Bol; Group 1 (Chr (oneOf "*-")); Star true (Chr JS.isSpace)].
(** /\n{3,}/g *)
Definition reBlankLines : regex :=
  Seq (times 3 (Chr isNl)) (Star true (Chr isNl)).
(** /\n+/g *)
Definition reNewlines : regex := plus (Chr isNl).
(** /([.!?])(?![...])/g, where the class of the lookahead holds the double
    quote, the apostrophe and the period. *)
Definition reSentenceEnd : regex :=
  Seq (Group 1 (Chr (oneOf ".!?")))
      (NotAhead (Chr (fun c => isChar (ascii_of_nat 34) c
                               || isChar (ascii_of_nat 39) c
                               || isChar "." c))).
(** /[^\S\n]+/g *)
Definition reSpacesNotNl : regex :=
  plus (Chr (fun c => JS.isSpace c && negb (isNl c))).
(** /\s+/g *)
Definition reSpaces : regex := plus (Chr JS.isSpace).
(** /Next\. js/g and /Node\. js/g *)
Definition reNext : regex := lit "Next. js".
Definition reNode : regex := lit "Node. js".
(** /Type\. ?Script/g, /Java\. ?Script/g, /React\. ?js/g, /Vue\. ?js/g *)
Definition reType : regex := seqs [lit "Type."; opt (Chr (isChar sp)); lit "Script"].
Definition reJava : regex := seqs [lit "Java."; opt (Chr (isChar sp)); lit "Script"].
Definition reReact : regex := seqs [lit "React."; opt (Chr (isChar sp)); lit "js"].
Definition reVue : regex := seqs [lit "Vue."; opt (Chr (isChar sp)); lit "js"].
(** /(\d+)\. (\d+)\. (\d+)/g *)
Definition reVersion : regex :=
  seqs [Group 1 (plus (Chr isDigit)); lit ". "; Group 2 (plus (Chr isDigit));
        lit ". "; Group 3 (plus (Chr isDigit))].

Definition normalizeLists (s : string) : string :=
  replaceAll reBullet [Ref 1; Lit " "]
    (replaceAll reNumbered [Ref 1; Lit ". "] s).

Definition fixTechnicalTerms (s : string) : string :=
  let s := replaceAll reNext [Lit "Next.js"] s in
  let s := replaceAll reNode [Lit "Node.js"] s in
  let s := replaceAll reType [Lit "TypeScript"] s in
  let s := replaceAll reJava [Lit "JavaScript"] s in
  let s := replaceAll reReact [Lit "React.js"] s in
  let s := replaceAll reVue [Lit "Vue.js"] s in
  replaceAll reVersion [Ref 1; Lit "."; Ref 2; Lit "."; Ref 3] s.

Definition processText (text : string) (options : TextProcessingOptions) : string :=
  let processed := JS.trim (replaceAll reBlanks [Lit " "] text) in
  let processed :=
    if preserveMarkdownHeadings options then
      replaceAll reBlankLines [Lit (JS.NL +:+ JS.NL)]
        (normalizeLists
           (replaceAll reHeading [Ref 1; Lit " "; Ref 2] processed))
    else
      let processed := normalizeLists processed in
      if negb (preserveNewlines options)
      then replaceAll reNewlines [Lit " "] processed
      else processed in
  let processed :=
    if preserveNewlines options then
      JS.trim (replaceAll reSpacesNotNl [Lit " "]
                 (replaceAll reSentenceEnd [Ref 1; Lit " "] processed))
    else
      JS.trim (replaceAll reSpaces [Lit " "]
                 (replaceAll reSentenceEnd [Ref 1; Lit " "] processed)) in
  fixTechnicalTerms processed.

End Normalizer.

(* ===================================================================== *)
(** * Client side: the artifact definitions and the stream handlers *)
(* ===================================================================== *)

(** Functional record update, field by field ([{...artifact, f: v}]). *)
Definition withDocumentId (v : string) (a : UIArtifact) : UIArtifact :=
  {| documentId := v; content := content a; kind := kind a; title := title a;
     status := status a; isVisible := isVisible a; boundingBox := boundingBox a |}.
Definition withContent (v : string) (a : UIArtifact) : UIArtifact :=
  {| documentId := documentId a; content := v; kind := kind a; title := title a;
     status := status a; isVisible := isVisible a; boundingBox := boundingBox a |}.
Definition withKind (v : ArtifactKind) (a : UIArtifact) : UIArtifact :=
  {| documentId := documentId a; content := content a; kind := v; title := title a;
     status := status a; isVisible := isVisible a; boundingBox := boundingBox a |}.
Definition withTitle (v : string) (a : UIArtifact) : UIArtifact :=
  {| documentId := documentId a; content := content a; kind := kind a; title := v;
     status := status a; isVisible := isVisible a; boundingBox := boundingBox a |}.
Definition withStatus (v : ArtifactStatus) (a : UIArtifact) : UIArtifact :=
  {| documentId := documentId a; content := content a; kind := kind a; title := title a;
     status := v; isVisible := isVisible a; boundingBox := boundingBox a |}.
Definition withIsVisible (v : bool) (a : UIArtifact) : UIArtifact :=
  {| documentId := documentId a; content := content a; kind := kind a; title := title a;
     status := status a; isVisible := v; boundingBox := boundingBox a |}.
Definition withBoundingBox (v : BoundingBox) (a : UIArtifact) : UIArtifact :=
  {| documentId := documentId a; content := content a; kind := kind a; title := title a;
     status := status a; isVisible := isVisible a; boundingBox := v |}.

(** An entry of [artifactDefinitions], as far as the artifact cell goes:
    [onStreamPart] is given by the updates it passes to [setArtifact].  Its
    calls of [setMetadata] write the metadata cell only, which the stream
    handler's reducer never reads. *)
Record ArtifactDefinition := {
  def_kind : ArtifactKind;
  onStreamPart : DataStreamDelta -> ArtifactStore -> ArtifactStore
}.

(** [textArtifact.onStreamPart], the version that appends every fragment. *)
Definition textArtifact : ArtifactDefinition := {|
  def_kind := kind_text;
  onStreamPart := fun streamPart st =>
    match streamPart with
    | d_text_delta c =>
        setArtifact (fun draftArtifact =>
          withStatus streaming
            (withContent (content draftArtifact +:+ c) draftArtifact)) st
    | d_finish => setArtifact (withStatus idle) st
    | _ => st
    end
|}.

(** [textArtifact.onStreamPart], the version that skips empty fragments and
    replaces blank ones by the empty string:
    [if (!content) return;] and [content.trim() ? content : '']. *)
Definition textArtifactTrim : ArtifactDefinition := {|
  def_kind := kind_text;
  onStreamPart := fun streamPart st =>
    match streamPart with
    | d_text_delta c =>
        if negb (JS.truthy c) then st
        else
          let updatedContent := if JS.truthy (JS.trim c) then c else "" in
          setArtifact (fun cur =>
            withStatus streaming
              (withContent (content cur +:+ updatedContent) cur)) st
    | d_finish =>
        setArtifact (fun cur => withIsVisible (isVisible cur) (withStatus idle cur)) st
    | _ => st
    end
|}.

(** The reducer that [DataStreamHandler] passes to [setArtifact] for one
    delta (the handler with immediate deduplication). *)
Definition reduceDelta (delta : DataStreamDelta) (baseArtifact : UIArtifact)
    : UIArtifact :=
  let isVisible0 := isVisible baseArtifact in
  match delta with
  | d_id c =>
      withIsVisible isVisible0 (withStatus streaming (withDocumentId c baseArtifact))
  | d_title c =>
      withIsVisible isVisible0 (withStatus streaming (withTitle c baseArtifact))
  | d_kind k =>
      withIsVisible isVisible0 (withStatus streaming (withKind k baseArtifact))
  | d_clear =>
      withIsVisible isVisible0 (withStatus streaming (withContent "" baseArtifact))
  | d_text_delta deltaContent =>
      let newContent := appendDeduped (content baseArtifact) deltaContent in
      withIsVisible isVisible0 (withStatus streaming (withContent newContent baseArtifact))
  | d_finish =>
      withIsVisible isVisible0 (withStatus idle baseArtifact)
  | _ => baseArtifact
  end.

(** One iteration of the handler's [forEach]: the artifact definition found
    for the artifact's kind (if any) sees the delta first, then the reducer
    runs. *)
Definition handleDelta (def : option ArtifactDefinition) (delta : DataStreamDelta)
    (st : ArtifactStore) : ArtifactStore :=
  let st :=
    match def with
    | Some d => onStreamPart d delta st
    | None => st
    end in
  setArtifact (reduceDelta delta) st.

(** The whole [forEach] over the new deltas, in arrival order. *)
Definition handleDeltas (def : option ArtifactDefinition)
    (deltas : list DataStreamDelta) (st : ArtifactStore) : ArtifactStore :=
  fold_left (fun st delta => handleDelta def delta st) deltas st.

(** What [artifactDefinitions.find] can return with the definitions of these
    sources: nothing, or one of the two text artifacts. *)
Definition sourceDefinitions : list (option ArtifactDefinition) :=
  [None; Some textArtifact; Some textArtifactTrim].

(** [b] is [a] with something appended. *)
Definition extends (a b : string) : Prop := exists t, b = a +:+ t.

(** ** The buffering handler *)

(** The updater of [flushTextBuffer]; [existingContent] is
    [baseArtifact.content || '']. *)
Definition flushUpdater (bufferContent : string) (baseArtifact : UIArtifact)
    : UIArtifact :=
  let existingContent := content baseArtifact in
  let stripped := dedupeBuffered existingContent bufferContent in
  let contentToAdd := JS.drop stripped bufferContent in
  let deduplicationApplied := Nat.ltb 0 stripped in
  if Nat.eqb (String.length contentToAdd) 0 && deduplicationApplied
  then baseArtifact
  else
    withIsVisible (isVisible baseArtifact)
      (withStatus streaming
         (withContent (existingContent +:+ contentToAdd) baseArtifact)).

(** The handler's mutable references that matter to buffering. *)
Record BufferedHandler := {
  cell : ArtifactStore;
  textDeltaBuffer : string;
  bufferTimeoutSet : bool
}.

(** [flushTextBuffer] (with [ENABLE_PARALLEL_STREAMING = true], so the
    artifact definition is always called and the early return is never
    taken). *)
Definition flushTextBuffer (def : option ArtifactDefinition) (h : BufferedHandler)
    : BufferedHandler :=
  if Nat.ltb 0 (String.length (textDeltaBuffer h)) then
    let bufferedDelta := d_text_delta (textDeltaBuffer h) in
    let st :=
      match def with
      | Some d => onStreamPart d bufferedDelta (cell h)
      | None => cell h
      end in
    {| cell := setArtifact (flushUpdater (textDeltaBuffer h)) st;
       textDeltaBuffer := "";
       bufferTimeoutSet := false |}
  else
    {| cell := cell h; textDeltaBuffer := textDeltaBuffer h;
       bufferTimeoutSet := false |}.

(** The text deltas of a batch, in order
    ([delta.type === 'text-delta' && typeof delta.content === 'string']). *)
Fixpoint textDeltasOf (newDeltas : list DataStreamDelta) : list string :=
  match newDeltas with
  | [] => []
  | d_text_delta c :: ds => c :: textDeltasOf ds
  | _ :: ds => textDeltasOf ds
  end.

(** The end of the effect that processes a batch: the text deltas are
    joined and added to the buffer when the joined text is not blank; the
    flush timer is (re)armed. *)
Definition addTextDeltas (newDeltas : list DataStreamDelta) (h : BufferedHandler)
    : BufferedHandler :=
  let textDeltas := textDeltasOf newDeltas in
  if Nat.ltb 0 (List.length textDeltas) then
    let combinedText := JS.join "" textDeltas in
    if Nat.ltb 0 (String.length (JS.trim combinedText)) then
      {| cell := cell h;
         textDeltaBuffer := textDeltaBuffer h +:+ combinedText;
         bufferTimeoutSet := true |}
    else h
  else h.

(** ** The click on the document preview: [PureHitboxLayer.handleClick] *)

Record ToolResult := {
  res_id : string;
  res_title : string;
  res_kind : option ArtifactKind
}.

Definition handleClick (result : option ToolResult) (clicked : BoundingBox)
    (st : ArtifactStore) : ArtifactStore :=
  setArtifact (fun artifact =>
    let title' :=
      match result with
      | Some r => if JS.truthy (res_title r) then res_title r else title artifact
      | None => title artifact
      end in
    let documentId' :=
      match result with
      | Some r => if JS.truthy (res_id r) then res_id r else documentId artifact
      | None => documentId artifact
      end in
    let kind' :=
      match result with
      | Some {| res_kind := Some k |} => k
      | _ => kind artifact
      end in
    withBoundingBox clicked
      (withIsVisible true
         (withKind kind' (withDocumentId documentId' (withTitle title' artifact))))) st.

(* ===================================================================== *)
(** * Decoders: [processCodeOutput] and [extractCSVContent] *)
(* ===================================================================== *)

Module Decoders.
Import Regex.

Inductive SupportedLanguage :=
| lang_text | lang_python | lang_javascript | lang_jsx
| lang_typescript | lang_java | lang_cpp.

Definition languageName (l : SupportedLanguage) : string :=
  match l with
  | lang_text => "text"
  | lang_python => "python"
  | lang_javascript => "javascript"
  | lang_jsx => "jsx"
  | lang_typescript => "typescript"
  | lang_java => "java"
  | lang_cpp => "cpp"
  end.

Definition validLanguages : list SupportedLanguage :=
  [lang_text; lang_python; lang_javascript; lang_jsx;
   lang_typescript; lang_java; lang_cpp].

(** [isValidLanguage]: the language whose name is [lang], if any. *)
Definition isValidLanguage (lang : string) : option SupportedLanguage :=
  find (fun l => String.eqb (languageName l) lang) validLanguages.

Definition DEFAULT_LANGUAGE : SupportedLanguage := lang_text.

Record ProcessedCode := {
  language : SupportedLanguage;
  code : string
}.

Definition backticks : string := "```".

(** [s.split(sep)] for a non-empty separator string. *)
Fixpoint splitStrFrom (fuel : nat) (sep : string) (acc : string) (s : string)
    : list string :=
  match fuel with
  | 0 => [acc +:+ s]
  | S f =>
      if JS.startsWith s sep && JS.truthy sep
      then acc :: splitStrFrom f sep "" (JS.drop (String.length sep) s)
      else match s with
           | EmptyString => [acc]
           | String c s' => splitStrFrom f sep (acc +:+ String c "") s'
           end
  end.

Definition splitStr (sep s : string) : list string :=
  splitStrFrom (S (String.length s)) sep "" s.

(** [s.replace(r, t)] for a regular expression without the [g] flag. *)
Definition replaceFirst (r : regex) (t : list piece) (s : string) : string :=
  match exec r s with
  | Some (b, e) => JS.take (pos b) s +:+ expand t (caps e) +:+ rest e
  | None => s
  end.

(** The language tag of a fence: [a-z]+(\-?[a-z0-9]+)* with groups 1, 2. *)
Definition reLangTag : regex :=
  Group 1 (Seq (plus (Chr isLower))
               (Star true (Group 2 (Seq (opt (Chr (isChar "-")))
                                        (plus (Chr (orP isLower isDigit))))))).

(** /```([a-z]+(\-?[a-z0-9]+)* )\n([\s\S]+?)\n```/g *)
Definition codeBlockRegex : regex :=
  seqs [lit backticks; reLangTag; Chr (isChar JS.nl);
        Group 3 (plusLazy (Chr anyChar)); Chr (isChar JS.nl); lit backticks].

(** /^([a-z]+(\-?[a-z0-9]+)* )\n/; the pattern that removes the tag,
    /^[a-z]+(\-?[a-z0-9]+)*\n/, is the same without the outer group, and
    its replacement refers to no group. *)
Definition reOpeningTag : regex :=
  seqs [Bos; reLangTag; Chr (isChar JS.nl)].

Definition sp : regex := Chr JS.isSpace.
Definition anyOnLine : regex := Star true (Chr dot).
Definition quoteChar (c : ascii) : bool :=
  isChar (ascii_of_nat 34) c || isChar (ascii_of_nat 39) c.

(** The table of [detectLanguage], in order. *)
Definition languagePatterns : list (regex * SupportedLanguage) :=
  [ (* /def\s+.*:\s*(?!.*;)/ *)
    (seqs [lit "def"; plus sp; anyOnLine; Chr (isChar ":"); Star true sp;
           NotAhead (Seq anyOnLine (Chr (isChar ";")))], lang_python);
    (* /import\s+React|useState|from\s+[quote]react[quote]/ *)
    (Alt (seqs [lit "import"; plus sp; lit "React"])
         (Alt (lit "useState")
              (seqs [lit "from"; plus sp; Chr quoteChar; lit "react"; Chr quoteChar])),
     lang_jsx);
    (* /function.*{.*}|console\.log/ *)
    (Alt (seqs [lit "function"; anyOnLine; Chr (isChar "{"); anyOnLine; Chr (isChar "}")])
         (lit "console.log"), lang_javascript);
    (* /interface\s+|type\s+|:\s*string/ *)
    (Alt (Seq (lit "interface") (plus sp))
         (Alt (Seq (lit "type") (plus sp))
              (seqs [Chr (isChar ":"); Star true sp; lit "string"])), lang_typescript);
    (* /(?:public|private)\s+class/ *)
    (seqs [Alt (lit "public") (lit "private"); plus sp; lit "class"], lang_java);
    (* /#include/ *)
    (lit "#include", lang_cpp) ].

Definition detectLanguage (input : string) : SupportedLanguage :=
  if negb (JS.truthy input) then DEFAULT_LANGUAGE
  else match find (fun p => test (fst p) input) languagePatterns with
       | Some p => snd p
       | None => lang_text
       end.

(** The table of [cleanCode], in order. *)
Definition cleaners : list (regex * list piece) :=
  [ (* /^#+\s+.*$/gm *)
    (seqs [Bol; plus (Chr (isChar "#")); plus sp; anyOnLine; Eol], []);
    (* /\*\*|__/g *)
    (Alt (lit "**") (lit "__"), []);
    (* /\*|_/g *)
    (Alt (lit "*") (lit "_"), []);
    (* /```[a-z]*\n?/g *)
    (seqs [lit backticks; Star true (Chr isLower); opt (Chr (isChar JS.nl))], []);
    (* /^[-\s]*$/gm *)
    (seqs [Bol; Star true (Chr (orP (isChar "-") JS.isSpace)); Eol], []) ].

Definition cleanCode (input : string) : string :=
  JS.trim (fold_left (fun cleaned c => replaceAll (fst c) (snd c) cleaned)
                     cleaners input).

(** The steps of [processCodeOutput] after the first-line test. *)
Definition processCodeFallback (content : string) : ProcessedCode :=
  let fenced :=
    match exec codeBlockRegex content with
    | Some (_, e) =>
        match isValidLanguage (JS.toLowerCase (capture 1 (caps e))) with
        | Some l => Some {| language := l; code := JS.trim (capture 3 (caps e)) |}
        | None => None
        end
    | None => None
    end in
  match fenced with
  | Some r => r
  | None =>
      let partial :=
        if JS.includes content backticks then
          let part1 := nth 1 (splitStr backticks content) "" in
          let tagged :=
            match exec reOpeningTag part1 with
            | Some (_, e) =>
                match isValidLanguage (JS.toLowerCase (capture 1 (caps e))) with
                | Some l =>
                    Some {| language := l;
                            code := JS.trim (replaceFirst reOpeningTag [] part1) |}
                | None => None
                end
            | None => None
            end in
          match tagged with
          | Some r => inl r
          | None => inr (JS.trim part1)
          end
        else inr content in
      match partial with
      | inl r => r
      | inr stateCode =>
          {| language := detectLanguage stateCode; code := cleanCode stateCode |}
      end
  end.

Definition processCodeOutput (content : string) : ProcessedCode :=
  if negb (JS.truthy content) then {| language := DEFAULT_LANGUAGE; code := "" |}
  else if negb (JS.truthy (JS.trim content))
  then {| language := DEFAULT_LANGUAGE; code := "" |}
  else
    let lines := JS.split JS.nl (JS.trim content) in
    let tagged :=
      if Nat.ltb 1 (List.length lines) then
        let firstLine := JS.toLowerCase (JS.trim (nth 0 lines "")) in
        match isValidLanguage firstLine with
        | Some l =>
            Some {| language := l;
                    code := JS.trim (JS.join JS.NL (skipn 1 lines)) |}
        | None => None
        end
      else None in
    match tagged with
    | Some r => r
    | None => processCodeFallback content
    end.

(** /```(?:csv)?\n([\s\S]+?)\n```/g *)
Definition csvBlockRegex : regex :=
  seqs [lit backticks; opt (lit "csv"); Chr (isChar JS.nl);
        Group 1 (plusLazy (Chr anyChar)); Chr (isChar JS.nl); lit backticks].

Definition looksLikeCsvLine (line : string) : bool :=
  JS.includes line ","
  && negb (JS.startsWith line "#")
  && negb (JS.startsWith line "//")
  && negb (JS.startsWith (JS.trim line) "Here")
  && negb (JS.startsWith (JS.trim line) "This")
  && negb (JS.startsWith (JS.trim line) "I")
  && negb (JS.startsWith (JS.trim line) "The").

Definition extractCSVContent (content : string) : string :=
  match exec csvBlockRegex content with
  | Some (b, e) =>
      let firstMatch := matched b e in
      JS.trim (replaceAll csvBlockRegex [Ref 1] firstMatch)
  | None =>
      let lines := JS.split JS.nl content in
      let csvLines := filter looksLikeCsvLine lines in
      if Nat.ltb 0 (List.length csvLines) then JS.join JS.NL csvLines
      else content
  end.

End Decoders.

(* ===================================================================== *)
(** * Server side: the document handlers *)
(* ===================================================================== *)

Module Server.
Import Regex Decoders.

(** A part of [fullStream]; only [text-delta] parts are looked at. *)
Inductive StreamPart :=
| text_delta_part (textDelta : string)
| other_part.

(** How the asynchronous iteration over the provider's stream ends:
    naturally, or with a rejection that the [for await] loop rethrows. *)
Inductive StreamEnd := ends_normally | raises.

Record FragmentStream := {
  parts : list StreamPart;
  ending : StreamEnd
}.

(** What [dataStream.writeData] receives. *)
Inductive DeltaType := code_delta | sheet_delta.

Record StreamData := {
  sd_type : DeltaType;
  sd_content : string;
  sd_complete : bool
}.

(** The persisted snapshot ([Document] of lib/db/schema; [createdAt] is
    assigned by the persistence layer). *)
Record Document := {
  doc_id : string;
  doc_title : string;
  doc_kind : ArtifactKind;
  doc_content : string;
  doc_userId : string
}.

(** The world a document operation runs in: the in-process lock map
    [updateLocks], the persisted documents, the streams the provider
    will answer successive [streamText] calls with, and the records
    written to the client channel so far. *)
Record World := {
  updateLocks : gmap string bool;
  documents : gmap string Document;
  provider : list FragmentStream;
  written : list StreamData
}.

Definition writeData (d : StreamData) (w : World) : World :=
  {| updateLocks := updateLocks w; documents := documents w;
     provider := provider w; written := written w ++ [d] |}.

(** [streamText]: the provider's next stream. *)
Definition streamText (w : World) : FragmentStream * World :=
  match provider w with
  | [] => ({| parts := []; ending := ends_normally |}, w)
  | s :: q =>
      (s, {| updateLocks := updateLocks w; documents := documents w;
             provider := q; written := written w |})
  end.

(** Modelled from the spec: [saveDocument] of lib/db/queries, which is not
    among the sources; the persistence interface saves a document snapshot
    keyed by id. *)
Definition saveDocument (d : Document) (w : World) : World :=
  {| updateLocks := updateLocks w;
     documents := <[doc_id d := d]> (documents w);
     provider := provider w; written := written w |}.

(** Modelled from the spec: [getDocumentById] of lib/db/queries, which is
    not among the sources; it loads the snapshot saved under an id. *)
Definition getDocumentById (id : string) (w : World) : option Document :=
  documents w !! id.

Definition setLock (id : string) (w : World) : World :=
  {| updateLocks := <[id := true]> (updateLocks w); documents := documents w;
     provider := provider w; written := written w |}.

Definition deleteLock (id : string) (w : World) : World :=
  {| updateLocks := delete id (updateLocks w); documents := documents w;
     provider := provider w; written := written w |}.

(** [updateLocks.get(id)] as a condition. *)
Definition isLocked (id : string) (w : World) : bool :=
  match updateLocks w !! id with
  | Some b => b
  | None => false
  end.

(** The result of awaiting a handler: the draft it returns, or a
    rejection. *)
Inductive Awaited (A : Type) :=
| resolved (a : A)
| rejected.
Arguments resolved {A} a.
Arguments rejected {A}.

(** ** The code handler *)

Record CodeLoop := {
  c_draftContent : string;
  c_buffer : string;
  c_detectedLanguage : SupportedLanguage;
  c_languageDetected : bool
}.

Definition flushInterval_code : nat := 150.

(** The body of the [for await] loop of [codeDocumentHandler.onCreateDocument]. *)
Definition codeCreateStep (acc : CodeLoop * World) (delta : StreamPart)
    : CodeLoop * World :=
  let '(l, w) := acc in
  match delta with
  | text_delta_part textDelta =>
      if JS.truthy textDelta then
        let draft := c_draftContent l +:+ textDelta in
        let buffer := c_buffer l +:+ textDelta in
        let '(l1, w1) :=
          if negb (c_languageDetected l) && Nat.ltb 20 (String.length draft) then
            let processed := processCodeOutput draft in
            match language processed with
            | lang_text =>
                ({| c_draftContent := draft; c_buffer := buffer;
                    c_detectedLanguage := c_detectedLanguage l;
                    c_languageDetected := c_languageDetected l |}, w)
            | processedLanguage =>
                ({| c_draftContent := code processed; c_buffer := "";
                    c_detectedLanguage := processedLanguage;
                    c_languageDetected := true |},
                 writeData {| sd_type := code_delta;
                              sd_content := "language:" +:+ languageName processedLanguage
                                            +:+ JS.NL;
                              sd_complete := false |} w)
            end
          else
            ({| c_draftContent := draft; c_buffer := buffer;
                c_detectedLanguage := c_detectedLanguage l;
                c_languageDetected := c_languageDetected l |}, w) in
        if Nat.leb flushInterval_code (String.length (c_buffer l1))
           && c_languageDetected l1
        then
          ({| c_draftContent := c_draftContent l1; c_buffer := "";
              c_detectedLanguage := c_detectedLanguage l1;
              c_languageDetected := c_languageDetected l1 |},
           writeData {| sd_type := code_delta; sd_content := c_buffer l1;
                        sd_complete := false |} w1)
        else (l1, w1)
      else (l, w)
  | other_part => (l, w)
  end.

(** [codeDocumentHandler.onCreateDocument]. *)
Definition codeOnCreateDocument (w : World) : Awaited string * World :=
  let '(fullStream, w) := streamText w in
  let init := {| c_draftContent := ""; c_buffer := "";
                 c_detectedLanguage := DEFAULT_LANGUAGE;
                 c_languageDetected := false |} in
  let '(l, w) := fold_left codeCreateStep (parts fullStream) (init, w) in
  match ending fullStream with
  | raises => (rejected, w)
  | ends_normally =>
      let w :=
        if Nat.ltb 0 (String.length (c_buffer l)) && c_languageDetected l
        then writeData {| sd_type := code_delta; sd_content := c_buffer l;
                          sd_complete := false |} w
        else w in
      let processedFinal := processCodeOutput (c_draftContent l) in
      let cleanedCode := code processedFinal in
      let w :=
        if negb (c_languageDetected l) then
          writeData {| sd_type := code_delta;
                       sd_content := "language:" +:+ languageName (language processedFinal)
                                     +:+ JS.NL +:+ cleanedCode;
                       sd_complete := true |} w
        else
          writeData {| sd_type := code_delta; sd_content := cleanedCode;
                       sd_complete := true |} w in
      (resolved cleanedCode, w)
  end.

Record CodeUpdateLoop := {
  u_draftContent : string;
  u_buffer : string;
  u_languageSent : bool
}.

(** The body of the loop of [codeDocumentHandler.onUpdateDocument]. *)
Definition codeUpdateStep (detectedLanguage : SupportedLanguage)
    (acc : CodeUpdateLoop * World) (delta : StreamPart) : CodeUpdateLoop * World :=
  let '(l, w) := acc in
  match delta with
  | text_delta_part textDelta =>
      if JS.truthy textDelta then
        let draft := u_draftContent l +:+ textDelta in
        let buffer := u_buffer l +:+ textDelta in
        let '(buffer, sent, w) :=
          if negb (u_languageSent l) && Nat.ltb 0 (String.length draft) then
            ("", true,
             writeData {| sd_type := code_delta;
                          sd_content := "language:" +:+ languageName detectedLanguage
                                        +:+ JS.NL;
                          sd_complete := false |} w)
          else (buffer, u_languageSent l, w) in
        if Nat.leb flushInterval_code (String.length buffer) && sent then
          ({| u_draftContent := draft; u_buffer := ""; u_languageSent := sent |},
           writeData {| sd_type := code_delta; sd_content := buffer;
                        sd_complete := false |} w)
        else ({| u_draftContent := draft; u_buffer := buffer; u_languageSent := sent |}, w)
      else (l, w)
  | other_part => (l, w)
  end.

(** [codeDocumentHandler.onUpdateDocument]. *)
Definition codeOnUpdateDocument (document : Document) (w : World)
    : Awaited string * World :=
  let existingProcessed := processCodeOutput (doc_content document) in
  let detectedLanguage := language existingProcessed in
  let '(fullStream, w) := streamText w in
  let init := {| u_draftContent := ""; u_buffer := ""; u_languageSent := false |} in
  let '(l, w) := fold_left (codeUpdateStep detectedLanguage) (parts fullStream) (init, w) in
  match ending fullStream with
  | raises => (rejected, w)
  | ends_normally =>
      let w :=
        if Nat.ltb 0 (String.length (u_buffer l)) && u_languageSent l
        then writeData {| sd_type := code_delta; sd_content := u_buffer l;
                          sd_complete := false |} w
        else w in
      let cleanedCode := code (processCodeOutput (u_draftContent l)) in
      (resolved cleanedCode,
       writeData {| sd_type := code_delta; sd_content := cleanedCode;
                    sd_complete := true |} w)
  end.

(** ** The sheet handler *)

Record SheetLoop := {
  s_draftContent : string;
  s_buffer : string;
  s_headerReceived : bool
}.

Definition flushInterval_sheet : nat := 200.

Definition isAlnum (c : ascii) : bool := isLower c || isUpper c || isDigit c.

(** /[a-zA-Z0-9,:;\-_\(\[{]$/ *)
Definition reEndsMidPhrase : regex :=
  Seq (Chr (orP isAlnum (oneOf ",:;-_([{"))) Eos.

(** /^[a-zA-Z0-9\)\]},]/ *)
Definition reStartsMidPhrase : regex :=
  Seq Bos (Chr (orP isAlnum (oneOf ")]},"))).

Definition tabs : string := String (ascii_of_nat 9) "".

Definition needsSpace (draftContent textDelta : string) : bool :=
  test reEndsMidPhrase draftContent
  && test reStartsMidPhrase textDelta
  && negb (JS.endsWith draftContent " ")
  && negb (JS.endsWith draftContent JS.NL)
  && negb (JS.endsWith draftContent tabs)
  && negb (JS.startsWith textDelta " ")
  && negb (JS.startsWith textDelta JS.NL)
  && negb (JS.startsWith textDelta tabs).

(** [s.lastIndexOf(c)] for a character that occurs in [s], as the length
    of the prefix that ends with its last occurrence
    ([lastNewline + 1]); 0 when it does not occur. *)
Fixpoint afterLast (c : ascii) (s : string) : nat :=
  match s with
  | EmptyString => 0
  | String a s' =>
      match afterLast c s' with
      | 0 => if Ascii.eqb a c then 1 else 0
      | S n => S (S n)
      end
  end.

(** The body of the loop of the sheet handler (the same in
    [onCreateDocument] and [onUpdateDocument]). *)
Definition sheetStep (acc : SheetLoop * World) (delta : StreamPart)
    : SheetLoop * World :=
  let '(l, w) := acc in
  match delta with
  | text_delta_part textDelta =>
      let pad :=
        if Nat.ltb 0 (String.length textDelta)
           && Nat.ltb 0 (String.length (s_draftContent l))
           && negb (s_headerReceived l)
           && needsSpace (s_draftContent l) textDelta
        then " " else "" in
      let draft := s_draftContent l +:+ pad +:+ textDelta in
      let buffer := s_buffer l +:+ pad +:+ textDelta in
      let header := s_headerReceived l || JS.includes buffer JS.NL in
      if Nat.leb flushInterval_sheet (String.length buffer)
         && JS.includes buffer JS.NL
      then
        let cut := afterLast JS.nl buffer in
        let completeChunk := JS.take cut buffer in
        let partialCSV := extractCSVContent completeChunk in
        let w :=
          if Nat.ltb 0 (String.length (JS.trim partialCSV))
          then writeData {| sd_type := sheet_delta; sd_content := partialCSV;
                            sd_complete := false |} w
          else w in
        ({| s_draftContent := draft; s_buffer := JS.drop cut buffer;
            s_headerReceived := header |}, w)
      else
        ({| s_draftContent := draft; s_buffer := buffer;
            s_headerReceived := header |}, w)
  | other_part => (l, w)
  end.

(** What follows the loop in both sheet operations; the value returned is
    [draftContent]. *)
Definition sheetRun (w : World) : Awaited string * World :=
  let '(fullStream, w) := streamText w in
  let init := {| s_draftContent := ""; s_buffer := ""; s_headerReceived := false |} in
  let '(l, w) := fold_left sheetStep (parts fullStream) (init, w) in
  match ending fullStream with
  | raises => (rejected, w)
  | ends_normally =>
      let w :=
        if Nat.ltb 0 (String.length (s_buffer l)) then
          let partialCSV := extractCSVContent (s_buffer l) in
          if Nat.ltb 0 (String.length (JS.trim partialCSV))
          then writeData {| sd_type := sheet_delta; sd_content := partialCSV;
                            sd_complete := false |} w
          else w
        else w in
      let finalCSV := extractCSVContent (s_draftContent l) in
      let w := writeData {| sd_type := sheet_delta; sd_content := finalCSV;
                            sd_complete := true |} w in
      (resolved (s_draftContent l), w)
  end.

(** [sheetDocumentHandler.onCreateDocument]. *)
Definition sheetOnCreateDocument (w : World) : Awaited string * World :=
  sheetRun w.

(** [sheetDocumentHandler.onUpdateDocument]; the document goes into the
    system prompt only. *)
Definition sheetOnUpdateDocument (document : Document) (w : World)
    : Awaited string * World :=
  sheetRun w.

(** ** [createDocumentHandler] *)

Record HandlerConfig := {
  cfg_kind : ArtifactKind;
  cfg_onCreateDocument : World -> Awaited string * World;
  cfg_onUpdateDocument : Document -> World -> Awaited string * World
}.

(** How a wrapped operation ends for its caller. *)
Inductive Outcome :=
| completed      (* the promise resolves after the operation ran *)
| skipped        (* the promise resolves without running (lock held) *)
| failed.        (* the promise rejects *)

(** [onCreateDocument] of the handler built by [createDocumentHandler];
    [userId] is [args.session?.user?.id]. *)
Definition onCreateDocument (config : HandlerConfig) (id title : string)
    (userId : option string) (w : World) : Outcome * World :=
  match cfg_onCreateDocument config w with
  | (rejected, w) => (failed, w)
  | (resolved draftContent, w) =>
      match userId with
      | Some u =>
          (completed,
           saveDocument {| doc_id := id; doc_title := title;
                           doc_kind := cfg_kind config;
                           doc_content := draftContent; doc_userId := u |} w)
      | None => (completed, w)
      end
  end.

(** [onUpdateDocument] of the handler built by [createDocumentHandler]:
    the body of [try] up to the rejection, then [finally]. *)
Definition onUpdateDocument (config : HandlerConfig) (document : Document)
    (userId : option string) (w : World) : Outcome * World :=
  if isLocked (doc_id document) w then (skipped, w)
  else
    let w := setLock (doc_id document) w in
    let '(outcome, w) :=
      match cfg_onUpdateDocument config document w with
      | (rejected, w) => (failed, w)
      | (resolved draftContent, w) =>
          match userId with
          | Some u =>
              (completed,
               saveDocument {| doc_id := doc_id document;
                               doc_title := doc_title document;
                               doc_kind := cfg_kind config;
                               doc_content := draftContent; doc_userId := u |} w)
          | None => (completed, w)
          end
      end in
    (outcome, deleteLock (doc_id document) w).

Definition codeDocumentHandler : HandlerConfig :=
  {| cfg_kind := kind_code;
     cfg_onCreateDocument := codeOnCreateDocument;
     cfg_onUpdateDocument := codeOnUpdateDocument |}.

Definition sheetDocumentHandler : HandlerConfig :=
  {| cfg_kind := kind_sheet;
     cfg_onCreateDocument := sheetOnCreateDocument;
     cfg_onUpdateDocument := sheetOnUpdateDocument |}.

(** The final delta of an operation: the last record written with the
    [complete] flag. *)
Definition finalDelta (w : World) : option StreamData :=
  find sd_complete (rev (written w)).

(** Apart from the records written to the client, nothing in the world
    changes. *)
Definition sameStores (w w' : World) : Prop :=
  updateLocks w' = updateLocks w /\ documents w' = documents w
  /\ provider w' = provider w.

End Server.

(* ===================================================================== *)
(** * Conversation-document message merger *)
(* ===================================================================== *)

Module Merger.
Import Regex.

Inductive Role := role_system | role_user | role_assistant | role_data.

Inductive InvocationState := state_partial_call | state_call | state_result.

(** [ToolInvocation] of the chat library; arguments and result are kept
    as their JSON text. *)
Record ToolInvocation := {
  inv_state : InvocationState;
  toolCallId : string;
  toolName : string;
  args : string;
  result : option string
}.

(** [Message] of the chat library: the fields the merger reads or writes;
    [toolInvocations] and [reasoning] are optional. *)
Record Message := {
  msg_id : string;
  role : Role;
  msg_content : string;
  reasoning : option string;
  toolInvocations : option (list ToolInvocation)
}.

Definition isAssistant (m : Message) : bool :=
  match role m with role_assistant => true | _ => false end.

(** [['createDocument', 'updateDocument'].includes(tool.toolName)]. *)
Definition isDocumentTool (inv : ToolInvocation) : bool :=
  String.eqb (toolName inv) "createDocument"
  || String.eqb (toolName inv) "updateDocument".

(** [message.toolInvocations?.some(...)], as a condition. *)
Definition hasDocumentTools (message : Message) : bool :=
  match toolInvocations message with
  | Some invs => existsb isDocumentTool invs
  | None => false
  end.

(** [message.toolInvocations || []]. *)
Definition invocationsOf (message : Message) : list ToolInvocation :=
  match toolInvocations message with
  | Some invs => invs
  | None => []
  end.

Definition apostrophe : string := String (ascii_of_nat 39) "".
Definition blankLine : string := JS.NL +:+ JS.NL.

(** The three [documentPatterns] (all with the [i] flag):
    I('ve| have) created (a|an) .* document,
    Would you like me to (help develop|update),
    Here('s| is) (what I'll cover|an outline|a draft). *)
Definition documentPatterns : list regex :=
  [ seqs [liti "I"; Group 1 (Alt (liti (apostrophe +:+ "ve")) (liti " have"));
          liti " created "; Group 2 (Alt (liti "a") (liti "an")); liti " ";
          Star true (Chr dot); liti " document"];
    seqs [liti "Would you like me to ";
          Group 1 (Alt (liti "help develop") (liti "update"))];
    seqs [liti "Here"; Group 1 (Alt (liti (apostrophe +:+ "s")) (liti " is"));
          liti " ";
          Group 2 (Alt (liti ("what I" +:+ apostrophe +:+ "ll cover"))
                       (Alt (liti "an outline") (liti "a draft")))] ].

Definition hasDocumentContent (message nextMessage : Message) : bool :=
  existsb (fun pattern => test pattern (msg_content message)
                          || test pattern (msg_content nextMessage))
          documentPatterns.

(** The merged message that [sanitizeUIMessages] pushes. *)
Definition sanitizeMerge (message nextMessage : Message) : Message :=
  let combinedContent := msg_content message in
  let combinedContent :=
    if JS.truthy (msg_content nextMessage)
       && Nat.ltb 0 (String.length (JS.trim (msg_content nextMessage)))
    then
      (if Nat.ltb 0 (String.length combinedContent)
          && negb (JS.endsWith combinedContent blankLine)
       then combinedContent +:+ blankLine else combinedContent)
      +:+ JS.trim (msg_content nextMessage)
    else combinedContent in
  {| msg_id := msg_id message; role := role message;
     msg_content := combinedContent; reasoning := reasoning message;
     toolInvocations := Some (invocationsOf message ++ invocationsOf nextMessage)%list |}.

(** [sanitizeUIMessages]: the loop over [i] with its [skipNext] flag; a
    merged pair is consumed at once. *)
Fixpoint sanitizeUIMessages (messages : list Message) : list Message :=
  match messages with
  | [] => []
  | message :: rest =>
      match rest with
      | [] => [message]
      | nextMessage :: rest' =>
          if negb (isAssistant message) || negb (isAssistant nextMessage)
          then message :: sanitizeUIMessages rest
          else if hasDocumentContent message nextMessage
                  || (hasDocumentTools message || hasDocumentTools nextMessage)
          then sanitizeMerge message nextMessage :: sanitizeUIMessages rest'
          else message :: sanitizeUIMessages rest
      end
  end.

(** /\n{3,}/g *)
Definition reBlankLines : regex :=
  Seq (times 3 (Chr (isChar JS.nl))) (Star true (Chr (isChar JS.nl))).

(** /Let me create a document for you with a structured essay on this topic\./i *)
Definition documentIntroPattern : regex :=
  liti "Let me create a document for you with a structured essay on this topic.".

(** [combineContent]. *)
Definition combineContent (content1 content2 : string) : string :=
  if negb (JS.truthy content1) then content2
  else if negb (JS.truthy content2) then content1
  else
    let normalizedContent1 := replaceAll reBlankLines [Lit blankLine] (JS.trim content1) in
    let normalizedContent2 := replaceAll reBlankLines [Lit blankLine] (JS.trim content2) in
    if test documentIntroPattern normalizedContent1
       && JS.startsWith (JS.trim normalizedContent2) ("I" +:+ apostrophe +:+ "ve created")
    then normalizedContent1 +:+ " " +:+ normalizedContent2
    else normalizedContent1
         +:+ (if JS.endsWith normalizedContent1 blankLine then "" else blankLine)
         +:+ normalizedContent2.

(** The merged message of the second pass of [convertToUIMessages]. *)
Definition convertMerge (cur next : Message) : Message :=
  {| msg_id := msg_id cur; role := role cur;
     msg_content := combineContent (msg_content cur) (msg_content next);
     reasoning := reasoning cur;
     toolInvocations := Some (invocationsOf cur ++ invocationsOf next)%list |}.

(** The second pass of [convertToUIMessages]: the [while] loop over the
    processed messages ([i += 2] after a merge). *)
Fixpoint mergeDocumentMessages (processedMessages : list Message) : list Message :=
  match processedMessages with
  | [] => []
  | cur :: rest =>
      if isAssistant cur then
        match rest with
        | next :: rest' =>
            if isAssistant next && (hasDocumentTools cur || hasDocumentTools next)
            then convertMerge cur next :: mergeDocumentMessages rest'
            else cur :: mergeDocumentMessages rest
        | [] => cur :: mergeDocumentMessages rest
        end
      else cur :: mergeDocumentMessages rest
  end.

(** The condition under which [sanitizeUIMessages] merges a message with
    the next one. *)
Definition sanitizeShould (message nextMessage : Message) : bool :=
  isAssistant message && isAssistant nextMessage
  && (hasDocumentContent message nextMessage
      || (hasDocumentTools message || hasDocumentTools nextMessage)).

(** The condition under which the second pass of [convertToUIMessages]
    merges a message with the next one. *)
Definition convertShould (cur next : Message) : bool :=
  isAssistant cur && isAssistant next
  && (hasDocumentTools cur || hasDocumentTools next).

(** The scheme both passes follow: scan from the left, merge a pair when
    the condition holds and go on after the pair. *)
Section AdjacentMerge.
Variable shouldMerge : Message -> Message -> bool.
Variable merge2 : Message -> Message -> Message.

Fixpoint mergeAdjacent (messages : list Message) : list Message :=
  match messages with
  | [] => []
  | m :: rest =>
      match rest with
      | [] => [m]
      | n :: rest' =>
          if shouldMerge m n then merge2 m n :: mergeAdjacent rest'
          else m :: mergeAdjacent rest
      end
  end.

(** No pair of neighbours would be merged. *)
Fixpoint settled (messages : list Message) : bool :=
  match messages with
  | a :: ((b :: _) as rest) => negb (shouldMerge a b) && settled rest
  | _ => true
  end.

End AdjacentMerge.

(** No three consecutive assistant messages. *)
Fixpoint noThreeAssistants (messages : list Message) : bool :=
  match messages with
  | a :: ((b :: c :: _) as rest) =>
      negb (isAssistant a && isAssistant b && isAssistant c)
      && noThreeAssistants rest
  | _ => true
  end.

End Merger.

(* ===================================================================== *)
(** * The normalizer as a scanner and as transducers *)
(* ===================================================================== *)

(** The [replace] loop of a pattern as a scan with a rule that tells, at
    each position, what is replaced and how far the match goes; and the
    rules of the patterns of [processText]. *)
Module Scanner.
Import Regex Normalizer.

(** The loop of [rmatch] on a starred pattern, with the matcher of the
    body, the greediness and the continuation as parameters. *)
Section StarLoop.

Variable body : mstate -> (mstate -> option mstate) -> option mstate.

Variable greedy : bool.

Variable k : mstate -> option mstate.

Fixpoint starLoop (n : nat) (st : mstate) {struct n} : option mstate :=
  match n with
  | 0 => k st
  | S n' =>
      let iter :=
        body st (fun st' => if Nat.ltb (pos st) (pos st')
                            then starLoop n' st' else None) in
      if greedy then orElse iter (k st) else orElse (k st) iter
  end.

End StarLoop.

(** Greedy run of characters satisfying [p], with backtracking. *)
Fixpoint greedy (p : ascii -> bool) (s : string) (pv : option ascii) (n : nat)
    (cs : list (nat * string)) (k : mstate -> option mstate) : option mstate :=
  match s with
  | String c s' =>
      if p c
      then orElse (greedy p s' (Some c) (S n) cs k)
                  (k {| prev := pv; rest := s; pos := n; caps := cs |})
      else k {| prev := pv; rest := s; pos := n; caps := cs |}
  | EmptyString => k {| prev := pv; rest := s; pos := n; caps := cs |}
  end.

(** The character before the position reached after [n] characters of [s]. *)
Fixpoint charBefore (n : nat) (pv : option ascii) (s : string) : option ascii :=
  match n, s with
  | S m, String c s' => charBefore m (Some c) s'
  | _, _ => pv
  end.

(** A rule tells, from the character before and the rest of the subject,
    whether a match begins here, what replaces it and how long it is. *)
Definition Rule := option ascii -> string -> option (string * nat).

(** The loop of [replaceFrom] driven by a rule. *)
Fixpoint scan (rule : Rule) (fuel : nat) (pv : option ascii) (s : string) : string :=
  match fuel with
  | 0 => s
  | S f =>
      match rule pv s with
      | Some (rep, n) => rep +:+ scan rule f (charBefore n pv s) (JS.drop n s)
      | None =>
          match s with
          | String c s' => String c (scan rule f (Some c) s')
          | EmptyString => EmptyString
          end
      end
  end.

(** [rule] describes the matches of [r] and their replacement by [t]. *)
Definition implements (r : regex) (t : list piece) (rule : Rule) : Prop :=
  forall st, caps st = [] ->
    match rule (prev st) (rest st) with
    | Some (rep, n) =>
        0 < n /\ exists e, matchHere r st = Some e
                           /\ pos e = pos st + n
                           /\ rest e = JS.drop n (rest st)
                           /\ prev e = charBefore n (prev st) (rest st)
                           /\ expand t (caps e) = rep
    | None => matchHere r st = None
    end.

(** The length of the run of characters in [p] that [s] begins with. *)
Fixpoint runLen (p : ascii -> bool) (s : string) : nat :=
  match s with
  | String c s' => if p c then S (runLen p s') else 0
  | EmptyString => 0
  end.

(** /[p]+/g -> rep *)
Definition rulePlus (p : ascii -> bool) (rep : string) : Rule :=
  fun _ s =>
    match s with
    | String c _ => if p c then Some (rep, runLen p s) else None
    | EmptyString => None
    end.

(** The state [n] characters further. *)
Definition adv (n : nat) (st : mstate) : mstate :=
  {| prev := charBefore n (prev st) (rest st); rest := JS.drop n (rest st);
     pos := pos st + n; caps := caps st |}.

(** Whether the subject goes on with a character in [p]. *)
Definition headSat (p : ascii -> bool) (s : string) : bool :=
  match s with String c _ => p c | EmptyString => false end.

(** A continuation that fails whenever the run could go on, or never
    fails: the greedy run is taken whole. *)
Definition committed (p : ascii -> bool) (k : mstate -> option mstate) : Prop :=
  (forall st, headSat p (rest st) = true -> k st = None)
  \/ (forall st, k st <> None).

(** The classes of the patterns of [processText]. *)
Definition isPunct : ascii -> bool := oneOf ".!?".

Definition isQD (c : ascii) : bool :=
  isChar (ascii_of_nat 34) c || isChar (ascii_of_nat 39) c || isChar "." c.

Definition isBlank (c : ascii) : bool :=
  isChar tab c || isChar ff c || isChar cr c || isChar Normalizer.sp c.

Definition isSpNotNl (c : ascii) : bool := JS.isSpace c && negb (isNl c).

Definition isHash : ascii -> bool := isChar "#".

Definition isBulletChar : ascii -> bool := oneOf "*-".

Definition notSpaceNotHash : ascii -> bool := notP (orP JS.isSpace (isChar "#")).

(** [^] under the [m] flag, from the character before. *)
Definition lineStart (pv : option ascii) : bool :=
  match pv with None => true | Some c => isLineTerminator c end.

(** /\n{3,}/g -> two line feeds *)
Definition ruleBlankLines : Rule :=
  fun _ s => if Nat.leb 3 (runLen isNl s) then Some (JS.NL +:+ JS.NL, runLen isNl s) else None.

(** /([.!?])(?![...])/g -> $1 and a space *)
Definition ruleSentenceEnd : Rule :=
  fun _ s =>
    match s with
    | String c s' =>
        if isPunct c && negb (headSat isQD s') then Some (String c " ", 1) else None
    | EmptyString => None
    end.

(** /^(#{1,6})([^\s#])/gm -> $1 $2 *)
Definition ruleHeading : Rule :=
  fun pv s =>
    let h := runLen isHash s in
    if lineStart pv && Nat.leb 1 h && Nat.leb h 6
       && headSat notSpaceNotHash (JS.drop h s)
    then Some (JS.take h s +:+ " " +:+ JS.take 1 (JS.drop h s), S h)
    else None.

(** /^(\d+)\.(\s* )/gm -> $1. and a space *)
Definition ruleNumbered : Rule :=
  fun pv s =>
    let d := runLen isDigit s in
    if lineStart pv && Nat.leb 1 d && headSat (isChar ".") (JS.drop d s)
    then Some (JS.take d s +:+ ". ", S d + runLen JS.isSpace (JS.drop (S d) s))
    else None.

(** /^([*-])\s*/gm -> $1 and a space *)
Definition ruleBullet : Rule :=
  fun pv s =>
    match s with
    | String c s' =>
        if lineStart pv && isBulletChar c
        then Some (String c " ", S (runLen JS.isSpace s'))
        else None
    | EmptyString => None
    end.

(** A literal pattern, with its replacement. *)
Definition ruleLit (pat rep : string) : Rule :=
  fun _ s => if JS.startsWith s pat then Some (rep, String.length pat) else None.

(** A literal [a ++ "." ++ b] with an optional space after the period. *)
Definition ruleLitOpt (a b rep : string) : Rule :=
  fun _ s =>
    if JS.startsWith s (a +:+ ". " +:+ b)
    then Some (rep, String.length (a +:+ ". " +:+ b))
    else if JS.startsWith s (a +:+ "." +:+ b)
    then Some (rep, String.length (a +:+ "." +:+ b))
    else None.

(** /(\d+)\. (\d+)\. (\d+)/g -> $1.$2.$3 *)
Definition ruleVersion : Rule :=
  fun _ s =>
    let d1 := runLen isDigit s in
    let s1 := JS.drop d1 s in
    let s2 := JS.drop 2 s1 in
    let d2 := runLen isDigit s2 in
    let s3 := JS.drop d2 s2 in
    let s4 := JS.drop 2 s3 in
    let d3 := runLen isDigit s4 in
    if Nat.leb 1 d1 && JS.startsWith s1 ". " && Nat.leb 1 d2
       && JS.startsWith s3 ". " && Nat.leb 1 d3
    then Some (JS.take d1 s +:+ "." +:+ JS.take d2 s2 +:+ "." +:+ JS.take d3 s4,
               d1 + 2 + d2 + 2 + d3)
    else None.

(** Closes the goal of a rule once the end of its match is known. *)
Ltac finish_impl :=
  eexists; split; [reflexivity|]; cbn [pos rest prev caps expand capture];
  repeat split; try lia; try reflexivity.

(** The state with one more captured group. *)
Definition capAdd (i : nat) (v : string) (st : mstate) : mstate :=
  {| prev := prev st; rest := rest st; pos := pos st; caps := (i, v) :: caps st |}.

(** White space only. *)
Fixpoint allSpace (s : string) : bool :=
  match s with
  | EmptyString => true
  | String c s' => JS.isSpace c && allSpace s'
  end.

(** A rule that consumes what it matches, and no more than there is. *)
Definition proper (rule : Rule) : Prop :=
  forall pv s rep n, rule pv s = Some (rep, n) -> 0 < n /\ n <= String.length s.

(** The scan with the fuel that [replaceAll] gives it. *)
Definition Scan (rule : Rule) (pv : option ascii) (s : string) : string :=
  scan rule (S (String.length s)) pv s.

(** Literal patterns with their replacements, tried in order. *)
Fixpoint firstMatch (rules : list (string * string)) (s : string)
    : option (string * nat) :=
  match rules with
  | [] => None
  | (p, r) :: rest =>
      if JS.startsWith s p then Some (r, String.length p) else firstMatch rest s
  end.

(** The rule and the replacement of a set of literal terms. *)
Definition ruleTerms (rules : list (string * string)) : Rule :=
  fun _ s => firstMatch rules s.

Definition terms (rules : list (string * string)) (s : string) : string :=
  Scan (ruleTerms rules) None s.

(** No pattern is empty. *)
Definition nonempty (rules : list (string * string)) : bool :=
  forallb (fun pr => Nat.ltb 0 (String.length (fst pr))) rules.

(** One of [x] and [y] begins with the other. *)
Definition compat (x y : string) : bool := JS.startsWith x y || JS.startsWith y x.

(** Some non-empty end of [x] is a beginning of [y], or begins with [y]. *)
Fixpoint clash (x y : string) : bool :=
  match x with
  | EmptyString => false
  | String _ x' => compat x y || clash x' y
  end.

(** No string of [xs] clashes with a string of [ys]. *)
Definition quiet (xs ys : list string) : bool :=
  forallb (fun x => forallb (fun y => negb (clash x y)) ys) xs.

Definition pats (rules : list (string * string)) : list string := map fst rules.

Definition reps (rules : list (string * string)) : list string := map snd rules.

(** Two sets of terms that do not meet can be replaced in either order. *)
Definition apart (A B : list (string * string)) : bool :=
  nonempty A && nonempty B
  && quiet (reps A) (pats B) && quiet (pats B) (pats A) && quiet (pats B) (reps A)
  && quiet (reps B) (pats A) && quiet (pats A) (pats B) && quiet (pats A) (reps B).

(** Replacing twice is replacing once when the replacements hold no pattern. *)
Definition settledTerms (A : list (string * string)) : bool :=
  nonempty A && quiet (reps A) (pats A) && quiet (pats A) (reps A).

(** The term table of [fixTechnicalTerms]: each pattern with the optional
    space spelled out, and its replacement. *)
Definition nextTerms : list (string * string) := [("Next. js", "Next.js")].

Definition nodeTerms : list (string * string) := [("Node. js", "Node.js")].

Definition typeTerms : list (string * string) :=
  [("Type. Script", "TypeScript"); ("Type.Script", "TypeScript")].

Definition javaTerms : list (string * string) :=
  [("Java. Script", "JavaScript"); ("Java.Script", "JavaScript")].

Definition reactTerms : list (string * string) :=
  [("React. js", "React.js"); ("React.js", "React.js")].

Definition vueTerms : list (string * string) :=
  [("Vue. js", "Vue.js"); ("Vue.js", "Vue.js")].

(** The version numbers, the last replacement of [fixTechnicalTerms]. *)
Definition versions (s : string) : string := Scan ruleVersion None s.

(** The last character is white space. *)
Fixpoint endsSpace (s : string) : bool :=
  match s with
  | EmptyString => false
  | String c s' => match s' with EmptyString => JS.isSpace c | _ => endsSpace s' end
  end.

(** No replacement is empty or ends with white space. *)
Definition cleanReps (D : list (string * string)) : bool :=
  forallb (fun pr => negb (endsSpace (snd pr)) && Nat.ltb 0 (String.length (snd pr))) D.

End Scanner.

(** The passes of [processText] before the technical terms as
    transducers that read the class of a character and write the character
    read or a space. *)
Module Shaper.
Import Normalizer Scanner.

(** * Character classes of the normalizer *)
Inductive cclass : Type :=
  K_sp | K_tab | K_cr | K_nl | K_ows | K_dot | K_bang | K_quote | K_hash
| K_bullet | K_digit | K_other.

Definition allClasses : list cclass :=
  [K_sp; K_tab; K_cr; K_nl; K_ows; K_dot; K_bang; K_quote; K_hash; K_bullet;
   K_digit; K_other].

Definition classify (c : ascii) : cclass :=
  let n := nat_of_ascii c in
  if Nat.eqb n 32 then K_sp
  else if Nat.eqb n 9 || Nat.eqb n 12 then K_tab
  else if Nat.eqb n 13 then K_cr
  else if Nat.eqb n 10 then K_nl
  else if Nat.eqb n 11 || Nat.eqb n 160 then K_ows
  else if Nat.eqb n 46 then K_dot
  else if Nat.eqb n 33 || Nat.eqb n 63 then K_bang
  else if Nat.eqb n 34 || Nat.eqb n 39 then K_quote
  else if Nat.eqb n 35 then K_hash
  else if Nat.eqb n 42 || Nat.eqb n 45 then K_bullet
  else if Nat.leb 48 n && Nat.leb n 57 then K_digit
  else K_other.

Definition kSpace (k : cclass) : bool :=
  match k with K_sp | K_tab | K_cr | K_nl | K_ows => true | _ => false end.

Definition kBlank (k : cclass) : bool :=
  match k with K_sp | K_tab | K_cr => true | _ => false end.

Definition kNl (k : cclass) : bool :=
  match k with K_nl => true | _ => false end.

Definition kSpNotNl (k : cclass) : bool :=
  match k with K_sp | K_tab | K_cr | K_ows => true | _ => false end.

Definition kLineEnd (k : cclass) : bool :=
  match k with K_nl | K_cr => true | _ => false end.

Definition kPunct (k : cclass) : bool :=
  match k with K_dot | K_bang => true | _ => false end.

Definition kQD (k : cclass) : bool :=
  match k with K_dot | K_quote => true | _ => false end.

Definition kDigit (k : cclass) : bool :=
  match k with K_digit => true | _ => false end.

Definition kHash (k : cclass) : bool :=
  match k with K_hash => true | _ => false end.

Definition kBullet (k : cclass) : bool :=
  match k with K_bullet => true | _ => false end.

Definition kDot (k : cclass) : bool :=
  match k with K_dot => true | _ => false end.

Definition allAscii : list ascii := map ascii_of_nat (seq 0 256).

(** * Transducers reading classes and writing the character read or a space *)
Inductive tok : Type := Echo | Spc.

Definition render (c : ascii) (t : tok) : ascii :=
  match t with Echo => c | Spc => " "%char end.

Definition tokClass (k : cclass) (t : tok) : cclass :=
  match t with Echo => k | Spc => K_sp end.

Definition after (t t2 : tok) : tok :=
  match t2 with Echo => t | Spc => Spc end.

Record machine : Type := {
  state : Type;
  init : state;
  step : state -> cclass -> state * list tok;
  fin : state -> nat;
  same : state -> state -> bool
}.

Fixpoint spaces (n : nat) : string :=
  match n with 0 => "" | S n' => String " " (spaces n') end.

Fixpoint emit (c : ascii) (ts : list tok) : string :=
  match ts with
  | [] => ""
  | t :: ts' => String (render c t) (emit c ts')
  end.

Fixpoint steps (M : machine) (q : state M) (s : string) : state M * string :=
  match s with
  | EmptyString => (q, "")
  | String c s' =>
      let '(q1, ts) := step M q (classify c) in
      let '(q2, o) := steps M q1 s' in
      (q2, emit c ts +:+ o)
  end.

Definition run (M : machine) (q : state M) (s : string) : string :=
  let '(q', o) := steps M q s in o +:+ spaces (fin M q').

(** Feeding the output of one step to the next machine. *)
Fixpoint feed (M : machine) (q : state M) (k : cclass) (ts : list tok)
    : state M * list tok :=
  match ts with
  | [] => (q, [])
  | t :: ts' =>
      let '(q1, o1) := step M q (tokClass k t) in
      let '(q2, o2) := feed M q1 k ts' in
      (q2, (map (after t) o1 ++ o2)%list)
  end.

Definition comp (M1 M2 : machine) : machine := {|
  state := state M1 * state M2;
  init := (init M1, init M2);
  step := fun q k =>
    let '(q1, ts) := step M1 (fst q) k in
    let '(q2, o) := feed M2 (snd q) k ts in
    ((q1, q2), o);
  fin := fun q =>
    let '(q2, o) := feed M2 (snd q) K_sp (repeat Spc (fin M1 (fst q))) in
    length o + fin M2 q2;
  same := fun p q => same M1 (fst p) (fst q) && same M2 (snd p) (snd q)
|}.

(** ** The passes *)
(** A run of characters of one kind becomes one space. *)
Definition collapse (p : cclass -> bool) : machine := {|
  state := bool;
  init := false;
  step := fun inrun k =>
    if p k then (true, if inrun then [] else [Spc]) else (false, [Echo]);
  fin := fun _ => 0;
  same := Bool.eqb
|}.

Definition mBlanks : machine := collapse kBlank.

Definition mNewlines : machine := collapse kNl.

Definition mSpaces : machine := collapse kSpace.

Definition mSpacesNotNl : machine := collapse kSpNotNl.

(** [trimStart]. *)
Definition mTrimStart : machine := {|
  state := bool;
  init := true;
  step := fun leading k =>
    if leading && kSpace k then (true, []) else (false, [Echo]);
  fin := fun _ => 0;
  same := Bool.eqb
|}.

(** Three line feeds or more become two. *)
Definition mBlankLines : machine := {|
  state := nat;
  init := 0;
  step := fun n k =>
    if kNl k then (if Nat.ltb n 2 then (S n, [Echo]) else (2, []))
    else (0, [Echo]);
  fin := fun _ => 0;
  same := Nat.eqb
|}.

(** A space after a sentence end that no quote or period follows. *)
Definition mSentenceEnd : machine := {|
  state := bool;
  init := false;
  step := fun pending k =>
    (kPunct k, if pending && negb (kQD k) then [Spc; Echo] else [Echo]);
  fin := fun pending => if pending then 1 else 0;
  same := Bool.eqb
|}.

Inductive lineState : Type :=
  L_start | L_run (n : nat) | L_gap0 | L_gap (nl : bool) | L_mid.

Definition lineState_eqb (a b : lineState) : bool :=
  match a, b with
  | L_start, L_start | L_gap0, L_gap0 | L_mid, L_mid => true
  | L_run n, L_run m => Nat.eqb n m
  | L_gap x, L_gap y => Bool.eqb x y
  | _, _ => false
  end.

(** The state after a character that no pattern is reading. *)
Definition lineNext (k : cclass) : lineState :=
  if kLineEnd k then L_start else L_mid.

(** A space between the number signs of a heading and its text. *)
Definition mHeading : machine := {|
  state := lineState;
  init := L_start;
  step := fun q k =>
    match q with
    | L_start =>
        match k with K_hash => (L_run 1, [Echo]) | _ => (lineNext k, [Echo]) end
    | L_run n =>
        match k with
        | K_hash => (if Nat.ltb n 6 then L_run (S n) else L_mid, [Echo])
        | _ => if kSpace k then (lineNext k, [Echo]) else (L_mid, [Spc; Echo])
        end
    | _ => (lineNext k, [Echo])
    end;
  fin := fun _ => 0;
  same := lineState_eqb
|}.

(** The white space after the mark of a list item becomes one space. *)
Definition gapStep (first : lineState -> cclass -> lineState * list tok)
    (q : lineState) (k : cclass) : lineState * list tok :=
  match q with
  | L_gap0 =>
      if kSpace k then (L_gap (kLineEnd k), [Spc])
      else (L_mid, [Spc; Echo])
  | L_gap nl =>
      if kSpace k then (L_gap (kLineEnd k), [])
      else if nl then first L_start k else (L_mid, [Echo])
  | _ => first q k
  end.

Definition gapFin (q : lineState) : nat :=
  match q with L_gap0 => 1 | _ => 0 end.

Definition numberedFirst (q : lineState) (k : cclass) : lineState * list tok :=
  match q, k with
  | L_start, K_digit => (L_run 0, [Echo])
  | L_run _, K_digit => (L_run 0, [Echo])
  | L_run _, K_dot => (L_gap0, [Echo])
  | _, _ => (lineNext k, [Echo])
  end.

Definition mGap (first : lineState -> cclass -> lineState * list tok) : machine := {|
  state := lineState;
  init := L_start;
  step := gapStep first;
  fin := gapFin;
  same := lineState_eqb
|}.

Definition mNumbered : machine := mGap numberedFirst.

Definition bulletFirst (q : lineState) (k : cclass) : lineState * list tok :=
  match q, k with
  | L_start, K_bullet => (L_gap0, [Echo])
  | _, _ => (lineNext k, [Echo])
  end.

Definition mBullet : machine := mGap bulletFirst.

(** ** The passes of [processText] before the technical terms *)
Definition mLines (headings newlines : bool) : machine :=
  if headings
  then comp mHeading (comp mNumbered (comp mBullet mBlankLines))
  else if newlines then comp mNumbered mBullet
       else comp mNumbered (comp mBullet mNewlines).

Definition mSpacing (newlines : bool) : machine :=
  comp mSentenceEnd (if newlines then mSpacesNotNl else mSpaces).

Definition mShape (headings newlines : bool) : machine :=
  comp mBlanks
    (comp mTrimStart
       (comp (mLines headings newlines)
          (comp (mSpacing newlines) mTrimStart))).

(** ** The states a machine reaches *)
Definition seen (M : machine) (q : state M) (qs : list (state M)) : bool :=
  existsb (same M q) qs.

Fixpoint explore (M : machine) (fuel : nat) (todo found : list (state M))
    : list (state M) :=
  match fuel with
  | 0 => found
  | S f =>
      match todo with
      | [] => found
      | q :: todo' =>
          let fresh :=
            fold_left
              (fun acc k =>
                 let n := fst (step M q k) in
                 if seen M n found || seen M n acc then acc else n :: acc)
              allClasses [] in
          explore M f (fresh ++ todo')%list (fresh ++ found)%list
      end
  end.

Definition reached (M : machine) : list (state M) :=
  explore M 4096 [init M] [init M].

Definition closed (M : machine) (qs : list (state M)) : bool :=
  seen M (init M) qs
  && forallb (fun q => forallb (fun k => seen M (fst (step M q k)) qs) allClasses) qs.

(** A step that writes exactly the character read. *)
Definition isEcho (k : cclass) (o : list tok) : bool :=
  match o with
  | [Echo] => true
  | [Spc] => match k with K_sp => true | _ => false end
  | _ => false
  end.

(** The machine writes the output of a step of another one as it reads it. *)
Fixpoint feedEcho (M : machine) (q : state M) (k : cclass) (ts : list tok) : bool :=
  match ts with
  | [] => true
  | t :: ts' =>
      let '(q1, o) := step M q (tokClass k t) in
      isEcho (tokClass k t) o && feedEcho M q1 k ts'
  end.

(** Run on its own output, the machine writes what it reads. *)
Definition echoesOwn (M : machine) (qs : list (state (comp M M))) : bool :=
  forallb (fun q => forallb (fun k =>
     feedEcho M (snd q) k (snd (step M (fst q) k))) allClasses) qs.

(** [same] decides the equality of states. *)
Definition Sound (M : machine) : Prop :=
  forall a b : state M, same M a b = true -> a = b.

(** The states reached from the initial one. *)
Inductive Reach (M : machine) : state M -> Prop :=
| Reach_init : Reach M (init M)
| Reach_step (q : state M) (k : cclass) :
    Reach M q -> Reach M (fst (step M q k)).

(** The state of a line pass after the character [pv]. *)
Definition lineStateOf (pv : option ascii) : lineState :=
  if lineStart pv then L_start else L_mid.

(** The passes of [processText] before the technical terms, as one
    transducer and the final [trimEnd]. *)
Definition shape (headings newlines : bool) (x : string) : string :=
  JS.trimEnd (run (mShape headings newlines) (init (mShape headings newlines)) x).

(** The machine writes each character of [s] as it reads it; the state
    it ends in. *)
Fixpoint echoes (M : machine) (q : state M) (s : string) : option (state M) :=
  match s with
  | EmptyString => Some q
  | String c s' =>
      let '(q1, ts) := step M q (classify c) in
      if isEcho (classify c) ts then echoes M q1 s' else None
  end.

(** The strings that the transducer and the final [trimEnd] leave as they are. *)
Definition shaped (headings newlines : bool) (y : string) : Prop :=
  (exists q, echoes (mShape headings newlines) (init _) y = Some q)
  /\ JS.trimEnd y = y.

(** From [q] the machine writes the same for [a] and [b] and ends in the
    same state. *)
Definition sameRun (M : machine) (q : state M) (a b : string) : bool :=
  same M (fst (steps M q a)) (fst (steps M q b))
  && String.eqb (snd (steps M q a)) (snd (steps M q b)).

(** In every state of [qs], the machine does not tell a pattern of [C]
    from its replacement. *)
Definition peels (M : machine) (C : list (string * string)) (qs : list (state M)) : bool :=
  forallb (fun q => forallb (fun pr => sameRun M q (fst pr) (snd pr)) C) qs.

(** The same for a period and a digit, with a space between them or not. *)
Definition peelsDigit (M : machine) (qs : list (state M)) : bool :=
  forallb (fun q => forallb (fun x =>
     if Regex.isDigit x
     then sameRun M q (String "." (String " " (String x ""))) (String "." (String x ""))
     else true) allAscii) qs.

(** In every state of [qs], a pattern of [D] that the machine writes as
    it reads it has a replacement that it writes as it reads it, up to
    the same state. *)
Definition keeps (M : machine) (D : list (string * string)) (qs : list (state M)) : bool :=
  forallb (fun q => forallb (fun pr =>
     match echoes M q (fst pr) with
     | Some q1 => match echoes M q (snd pr) with Some q2 => same M q1 q2 | None => false end
     | None => true
     end) D) qs.

(** Two strings that the machine does not tell apart, in any state reached. *)
Definition alike (M : machine) (a b : string) : Prop :=
  forall q, Reach M q -> steps M q a = steps M q b.

End Shaper.

(* ===================================================================== *)
(** * The stream handlers as effects (components/data-stream-handler) *)
(* ===================================================================== *)

(** [dataStream.slice(start)]: from [start], counted from the end when
    [start] is negative. *)
Definition sliceFrom {A : Type} (start : Z) (l : list A) : list A :=
  if (start <? 0)%Z
  then skipn (Z.to_nat (Z.max (Z.of_nat (List.length l) + start) 0)) l
  else skipn (Z.to_nat start) l.

(** The reducer of the handler without deduplication
    (components/data-stream-handler.tsx): it has no [text-delta] case, and
    the visibility is copied by the spread. *)
Definition reduceDeltaPlain (delta : DataStreamDelta) (baseArtifact : UIArtifact)
    : UIArtifact :=
  match delta with
  | d_id c => withStatus streaming (withDocumentId c baseArtifact)
  | d_title c => withStatus streaming (withTitle c baseArtifact)
  | d_kind k => withStatus streaming (withKind k baseArtifact)
  | d_clear => withStatus streaming (withContent "" baseArtifact)
  | d_finish => withStatus idle baseArtifact
  | _ => baseArtifact
  end.

(** One iteration of the [forEach] of that handler. *)
Definition handleDeltaPlain (def : option ArtifactDefinition) (delta : DataStreamDelta)
    (st : ArtifactStore) : ArtifactStore :=
  let st :=
    match def with
    | Some d => onStreamPart d delta st
    | None => st
    end in
  setArtifact (reduceDeltaPlain delta) st.

Definition handleDeltasPlain (def : option ArtifactDefinition)
    (deltas : list DataStreamDelta) (st : ArtifactStore) : ArtifactStore :=
  fold_left (fun st delta => handleDeltaPlain def delta st) deltas st.

(** The artifact cell with the handler's [lastProcessedIndex] reference
    ([useRef(-1)]). *)
Record StreamHandler := {
  artifactCell : ArtifactStore;
  lastProcessedIndex : Z
}.

(** The effect that processes the new deltas, the same in both handlers
    but for the body of the [forEach], which is the parameter [each];
    [dataStream] is [None] while [useChat] has no data ([undefined]). *)
Definition processDataStream
    (each : list DataStreamDelta -> ArtifactStore -> ArtifactStore)
    (dataStream : option (list DataStreamDelta)) (h : StreamHandler) : StreamHandler :=
  match dataStream with
  | None => h
  | Some ds =>
      if Nat.eqb (List.length ds) 0 then h
      else
        let newDeltas := sliceFrom (lastProcessedIndex h + 1) ds in
        {| artifactCell := each newDeltas (artifactCell h);
           lastProcessedIndex := Z.of_nat (List.length ds) - 1 |}
  end.

(* ===================================================================== *)
(** * Chat messages: the helpers around the merger *)
(* ===================================================================== *)

Module Chat.
Import Merger.

Definition isUser (message : Message) : bool :=
  match role message with role_user => true | _ => false end.

(** [array.at(-1)]: the last element, [undefined] for the empty array. *)
Fixpoint atLast {A : Type} (l : list A) : option A :=
  match l with
  | [] => None
  | [x] => Some x
  | _ :: l' => atLast l'
  end.

(** [getMostRecentUserMessage]. *)
Definition getMostRecentUserMessage (messages : list Message) : option Message :=
  let userMessages := List.filter isUser messages in
  atLast userMessages.

(** A row of the document table as [getDocumentTimestampByIndex] reads it:
    the snapshot and the time the persistence layer gave it. *)
Record DocumentRow := {
  row_document : Server.Document;
  createdAt : Z
}.

(** What [getDocumentTimestampByIndex] gives: the current time
    ([new Date()]), the [createdAt] of a row, or the [TypeError] of
    reading [createdAt] of [undefined]. *)
Inductive Timestamp :=
| time_now
| time_created (t : Z)
| time_TypeError.

(** [documents[index]] for an integer index. *)
Definition itemAt {A : Type} (l : list A) (index : Z) : option A :=
  if (index <? 0)%Z then None else nth_error l (Z.to_nat index).

(** [getDocumentTimestampByIndex]; [documents] is [None] when the caller
    has no array ([!documents]). *)
Definition getDocumentTimestampByIndex (documents : option (list DocumentRow))
    (index : Z) : Timestamp :=
  match documents with
  | None => time_now
  | Some documents =>
      if (Z.of_nat (List.length documents) <? index)%Z then time_now
      else match itemAt documents index with
           | Some d => time_created (createdAt d)
           | None => time_TypeError
           end
  end.

(** [ToolResultPart] of the chat library, as far as it is read; the result
    is kept as its JSON text. *)
Record ToolResultPart := {
  tr_toolCallId : string;
  tr_result : string
}.

(** The inner [map] of [addToolMessageToChat], for one invocation;
    [content] is [toolMessage.content]. *)
Definition addToolResult (content : list ToolResultPart) (toolInvocation : ToolInvocation)
    : ToolInvocation :=
  match find (fun tool => String.eqb (tr_toolCallId tool) (toolCallId toolInvocation))
             content with
  | Some toolResult =>
      {| inv_state := state_result;
         toolCallId := toolCallId toolInvocation;
         toolName := toolName toolInvocation;
         args := args toolInvocation;
         result := Some (tr_result toolResult) |}
  | None => toolInvocation
  end.

(** The outer [map] of [addToolMessageToChat], for one message. *)
Definition withToolResults (content : list ToolResultPart) (message : Message) : Message :=
  match toolInvocations message with
  | Some invs =>
      {| msg_id := msg_id message; role := role message;
         msg_content := msg_content message; reasoning := reasoning message;
         toolInvocations := Some (map (addToolResult content) invs) |}
  | None => message
  end.

(** [addToolMessageToChat]; the tool message is given by its [content]. *)
Definition addToolMessageToChat (toolMessage : list ToolResultPart)
    (messages : list Message) : list Message :=
  map (withToolResults toolMessage) messages.

(** A part of the content array of a message that is no tool message.  A
    part of another type (a file, redacted reasoning) is [part_other]
    with its JSON text; the [text] of a text part is a string, as
    [TextPart] has it. *)
Inductive MessagePart :=
| part_text (text : string)
| part_tool_call (toolCallId toolName : string) (args : option string)
| part_reasoning (reasoning : string)
| part_other (json : string).

(** [content]: a string or an array of parts. *)
Inductive MessageContent :=
| content_string (s : string)
| content_parts (parts : list MessagePart).

(** A stored message: a tool message ([CoreToolMessage], whose content is
    an array of tool results) or a message of another role. *)
Inductive DBMessage :=
| db_tool (id : string) (content : list ToolResultPart)
| db_message (id : string) (role : Role) (content : MessageContent).

(** The options [convertToUIMessages] calls [processText] with. *)
Definition textOptions : Normalizer.TextProcessingOptions :=
  {| Normalizer.preserveNewlines := true;
     Normalizer.preserveSpaces := true;
     Normalizer.preserveMarkdownHeadings := true |}.

(** The text parts, in order. *)
Definition textsOf (content : list MessagePart) : list string :=
  flat_map (fun part => match part with part_text t => [t] | _ => [] end) content.

(** The [forEach] of [processContent] for the tool calls
    ([args ?? {}]). *)
Definition toolCallsOf (content : list MessagePart) : list ToolInvocation :=
  flat_map (fun part =>
              match part with
              | part_tool_call id name a =>
                  if JS.truthy id && JS.truthy name
                  then [{| inv_state := state_call; toolCallId := id; toolName := name;
                           args := match a with Some a => a | None => "{}" end;
                           result := None |}]
                  else []
              | _ => []
              end) content.

(** The [forEach] of [processContent] for the reasoning: the last
    non-empty one. *)
Definition reasoningOf (content : list MessagePart) : option string :=
  fold_left (fun acc part =>
               match part with
               | part_reasoning r => if JS.truthy r then Some r else acc
               | _ => acc
               end) content None.

(** The chat message pushed for a stored message that is no tool
    message. *)
Definition toUIMessage (id : string) (r : Role) (content : MessageContent) : Message :=
  match content with
  | content_string s =>
      {| msg_id := id; role := r;
         msg_content := Normalizer.processText s textOptions;
         reasoning := None; toolInvocations := Some [] |}
  | content_parts parts =>
      {| msg_id := id; role := r;
         msg_content :=
           JS.join (JS.NL +:+ JS.NL)
             (map (fun t => Normalizer.processText t textOptions) (textsOf parts));
         reasoning := reasoningOf parts;
         toolInvocations := Some (toolCallsOf parts) |}
  end.

(** One step of the [reduce] of [convertToUIMessages]. *)
Definition processMessage (chatMessages : list Message) (message : DBMessage)
    : list Message :=
  match message with
  | db_tool _ content => addToolMessageToChat content chatMessages
  | db_message id r content => (chatMessages ++ [toUIMessage id r content])%list
  end.

(** The first pass of [convertToUIMessages]: the [reduce]. *)
Definition processMessages (messages : list DBMessage) : list Message :=
  fold_left processMessage messages [].

(** [convertToUIMessages]. *)
Definition convertToUIMessages (messages : list DBMessage) : list Message :=
  mergeDocumentMessages (processMessages messages).

(** The chat messages already there after the stored messages [later]
    have gone by: the tool messages among them have been applied. *)
Definition afterLater (later : list DBMessage) (chatMessages : list Message)
    : list Message :=
  fold_left (fun acc message =>
               match message with
               | db_tool _ content => addToolMessageToChat content acc
               | db_message _ _ _ => acc
               end) later chatMessages.

(** A message of the model's response: [CoreToolMessage] or
    [CoreAssistantMessage], with its id. *)
Inductive ResponseMessage :=
| resp_tool (id : string) (content : list ToolResultPart)
| resp_assistant (id : string) (content : MessageContent).

(** The ids pushed to [toolResultIds]. *)
Definition toolResultIdsOf (messages : list ResponseMessage) : list string :=
  flat_map (fun message =>
              match message with
              | resp_tool _ content => map tr_toolCallId content
              | resp_assistant _ _ => []
              end) messages.

(** The test of the [filter] over the parts of an assistant message. *)
Definition keepPart (toolResultIds : list string) (content : MessagePart) : bool :=
  match content with
  | part_tool_call id _ _ => existsb (String.eqb id) toolResultIds
  | part_text text => Nat.ltb 0 (String.length text)
  | _ => true
  end.

(** The function of the [map] of [sanitizeResponseMessages]; [reasoning]
    is [None] for [undefined]. *)
Definition sanitizeContent (toolResultIds : list string) (reasoning : option string)
    (message : ResponseMessage) : ResponseMessage :=
  match message with
  | resp_tool _ _ => message
  | resp_assistant _ (content_string _) => message
  | resp_assistant id (content_parts parts) =>
      let sanitizedContent := List.filter (keepPart toolResultIds) parts in
      let sanitizedContent :=
        match reasoning with
        | Some r =>
            if JS.truthy r
            then (sanitizedContent ++ [part_reasoning r])%list
            else sanitizedContent
        | None => sanitizedContent
        end in
      resp_assistant id (content_parts sanitizedContent)
  end.

(** [message.content.length > 0]. *)
Definition hasContent (message : ResponseMessage) : bool :=
  match message with
  | resp_tool _ content => Nat.ltb 0 (List.length content)
  | resp_assistant _ (content_string s) => Nat.ltb 0 (String.length s)
  | resp_assistant _ (content_parts parts) => Nat.ltb 0 (List.length parts)
  end.

(** [sanitizeResponseMessages]. *)
Definition sanitizeResponseMessages (messages : list ResponseMessage)
    (reasoning : option string) : list ResponseMessage :=
  let toolResultIds := toolResultIdsOf messages in
  let messagesBySanitizedContent :=
    map (sanitizeContent toolResultIds reasoning) messages in
  List.filter hasContent messagesBySanitizedContent.

(** A message that is not from the assistant. *)
Definition notAssistant (m : Message) : bool := negb (isAssistant m).

(** No two neighbours are both assistant messages. *)
Fixpoint noAdjacentAssistants (messages : list Message) : bool :=
  match messages with
  | a :: ((b :: _) as rest) =>
      negb (isAssistant a && isAssistant b) && noAdjacentAssistants rest
  | _ => true
  end.

End Chat.

(* ===================================================================== *)
(** * The client channel of a document operation *)
(* ===================================================================== *)

Module Channel.
Import Server.



(** The text of the [text-delta] parts of a stream, in order. *)
Definition textOf (ps : list StreamPart) : string :=
  JS.join "" (flat_map (fun p => match p with
                                 | text_delta_part t => [t]
                                 | other_part => []
                                 end) ps).

(** The text without its space characters. *)
Fixpoint withoutSpaces (s : string) : string :=
  match s with
  | EmptyString => EmptyString
  | String c s' =>
      if Ascii.eqb c " " then withoutSpaces s' else String c (withoutSpaces s')
  end.

End Channel.

(* ===================================================================== *)
(** * The white space of a normalized text *)
(* ===================================================================== *)

Module Spacing.
Import Normalizer Scanner.

(** No white space character. *)
Fixpoint noSpace (s : string) : bool :=
  match s with
  | EmptyString => true
  | String c s' => negb (JS.isSpace c) && noSpace s'
  end.

(** The character before is a space. *)
Definition spaceBefore (pv : option ascii) : bool :=
  match pv with Some c => Ascii.eqb c " " | None => false end.

(** Every white space character of [s] is a space that follows no space
    or, when [newlines] is set, a line feed; [pv] is the character
    before [s]. *)
Fixpoint singleSpaced (newlines : bool) (pv : option ascii) (s : string) : bool :=
  match s with
  | EmptyString => true
  | String c s' =>
      (if Ascii.eqb c " " then negb (spaceBefore pv)
       else if Ascii.eqb c JS.nl then newlines
       else negb (JS.isSpace c))
      && singleSpaced newlines (Some c) s'
  end.

(** A rule whose replacements are not empty and hold no white space, and
    whose matches end with a character that is no white space. *)
Definition solid (rule : Rule) : Prop :=
  proper rule
  /\ forall pv s rep n, rule pv s = Some (rep, n) ->
       rep <> "" /\ noSpace rep = true
       /\ exists c, charBefore n pv s = Some c /\ JS.isSpace c = false.

(** The same for a table of literal terms. *)
Definition solidTerms (D : list (string * string)) : bool :=
  forallb (fun pr => Nat.ltb 0 (String.length (fst pr)) && negb (endsSpace (fst pr))
                     && Nat.ltb 0 (String.length (snd pr)) && noSpace (snd pr)) D.

(** No three line feeds in a row in [s], when [k] line feeds come just
    before it. *)
Fixpoint noTripleNl (k : nat) (s : string) : bool :=
  match s with
  | EmptyString => true
  | String c s' =>
      if Ascii.eqb c JS.nl then Nat.ltb k 2 && noTripleNl (S k) s'
      else noTripleNl 0 s'
  end.

End Spacing.

(* ===================================================================== *)
(** * Properties *)
(* ===================================================================== *)

(** ** Strings *)

Section StringFacts.

Lemma append_nil_l (s : string) : "" +:+ s = s.
Proof. reflexivity. Qed.

Lemma append_cons (c : ascii) (s t : string) :
  String c s +:+ t = String c (s +:+ t).
Proof. reflexivity. Qed.

Lemma append_nil_r (s : string) : s +:+ "" = s.
Proof. induction s as [|c s IH]; [reflexivity|]. now rewrite append_cons, IH. Qed.

Lemma append_assoc (a b c : string) : (a +:+ b) +:+ c = a +:+ (b +:+ c).
Proof.
  induction a as [|x a IH]; [reflexivity|].
  now rewrite !append_cons, IH.
Qed.

Lemma length_append (a b : string) :
  String.length (a +:+ b) = String.length a + String.length b.
Proof.
  induction a as [|x a IH]; [reflexivity|].
  rewrite append_cons. simpl. now rewrite IH.
Qed.

Lemma length_take (n : nat) (s : string) :
  String.length (JS.take n s) = Nat.min n (String.length s).
Proof.
  revert s; induction n as [|n IH]; intros [|c s]; simpl; auto.
Qed.

Lemma length_drop (n : nat) (s : string) :
  String.length (JS.drop n s) = String.length s - n.
Proof.
  revert s; induction n as [|n IH]; intros [|c s]; simpl; auto.
Qed.

Lemma take_drop (n : nat) (s : string) : JS.take n s +:+ JS.drop n s = s.
Proof.
  revert s; induction n as [|n IH]; intros [|c s]; simpl; auto.
  rewrite append_cons. now rewrite IH.
Qed.

Lemma drop_drop (n m : nat) (s : string) :
  JS.drop n (JS.drop m s) = JS.drop (m + n) s.
Proof.
  revert s; induction m as [|m IH]; intros s; [reflexivity|].
  destruct s as [|c s]; simpl.
  - now destruct n.
  - apply IH.
Qed.

Lemma drop_all (n : nat) (s : string) :
  String.length s <= n -> JS.drop n s = "".
Proof.
  revert s; induction n as [|n IH]; intros [|c s] H; simpl in *; auto; try lia.
  apply IH; lia.
Qed.

Lemma drop_append_length (a b : string) : JS.drop (String.length a) (a +:+ b) = b.
Proof. induction a as [|x a IH]; [now destruct b|]. exact IH. Qed.

Lemma take_all (n : nat) (s : string) :
  String.length s <= n -> JS.take n s = s.
Proof.
  revert s; induction n as [|n IH]; intros [|c s] H; simpl in *; auto; try lia.
  f_equal; apply IH; lia.
Qed.

(** [endsWith] finds exactly the suffixes. *)
Lemma endsWith_spec (s p : string) :
  JS.endsWith s p = true <-> exists q, s = q +:+ p.
Proof.
  unfold JS.endsWith. rewrite andb_true_iff, Nat.leb_le, String.eqb_eq. split.
  - intros [Hlen Heq]. exists (JS.take (String.length s - String.length p) s).
    pose proof (take_drop (String.length s - String.length p) s) as H.
    rewrite Heq in H. now symmetry.
  - intros [q ->]. rewrite length_append. split; [lia|].
    replace (String.length q + String.length p - String.length p)
      with (String.length q) by lia.
    apply drop_append_length.
Qed.

End StringFacts.

(** ** Deduplication *)

Section Dedupe.

Lemma overlaps_zero (e d : string) : overlaps e d 0.
Proof.
  unfold overlaps. repeat split; try lia.
  rewrite Nat.sub_0_r. rewrite drop_all by lia. now destruct d.
Qed.

(** Within the window, the test of the loop is the overlap property. *)
Lemma endsWith_window (e d : string) (W i : nat) :
  0 < W -> i <= W -> i <= String.length d ->
  JS.endsWith (JS.slice_last W e) (JS.take i d) = true <-> overlaps e d i.
Proof.
  intros HW HiW Hid. unfold JS.endsWith, JS.slice_last, overlaps.
  destruct (Nat.eqb_spec W 0) as [->|_]; [lia|].
  rewrite andb_true_iff, Nat.leb_le, String.eqb_eq.
  rewrite length_take, length_drop, drop_drop.
  rewrite (Nat.min_l i) by lia.
  split.
  - intros [Hlen Heq]. repeat split; try lia.
    rewrite <- Heq. f_equal. lia.
  - intros (He & _ & Heq). split; [lia|].
    rewrite <- Heq. f_equal. lia.
Qed.

Lemma findOverlap_spec (x d : string) (n : nat) :
  let k := findOverlap x d n in
  k <= n
  /\ (k = 0 \/ JS.endsWith x (JS.take k d) = true)
  /\ forall j, k < j -> j <= n -> JS.endsWith x (JS.take j d) = false.
Proof.
  induction n as [|n IH]; cbn zeta.
  - simpl. repeat split; auto. intros; lia.
  - cbn [findOverlap].
    destruct (JS.endsWith x (JS.take (S n) d)) eqn:E.
    + repeat split; auto. intros; lia.
    + destruct IH as (Hle & Hhit & Hmax). repeat split; auto.
      intros j Hj1 Hj2. destruct (Nat.eq_dec j (S n)) as [->|Hne]; auto.
      apply Hmax; lia.
Qed.

(** The immediate handler strips the longest overlap of at most
    [min (length fragment) 50] characters. *)
Lemma dedupe_longest (e d : string) :
  dedupe e d <= Nat.min (String.length d) 50
  /\ longestOverlap e d 1 (Nat.min (String.length d) 50) (dedupe e d).
Proof.
  unfold dedupe, longestOverlap.
  destruct (Nat.ltb_spec 0 (String.length e)) as [He|He].
  - set (W := Nat.min (String.length d) 50).
    rewrite (Nat.min_l W) by (subst W; lia).
    destruct (Nat.eq_dec W 0) as [HW0|HW0].
    + rewrite HW0. simpl. split; [lia|]. split; [apply overlaps_zero|]. intros; lia.
    + pose proof (findOverlap_spec (JS.slice_last W e) d W) as (Hle & Hhit & Hmax).
      cbn zeta in *. split; [exact Hle|]. split.
      * destruct Hhit as [->|Hhit]; [apply overlaps_zero|].
        apply (endsWith_window e d W) in Hhit; auto; subst W; lia.
      * intros j Hj1 Hj2 Hj3 Hov.
        apply (endsWith_window e d W) in Hov; try (subst W; lia).
        rewrite Hmax in Hov by lia. discriminate.
  - split; [lia|]. split; [apply overlaps_zero|].
    intros j Hj1 Hj2 Hj3 (Hje & _). lia.
Qed.

Lemma findOverlapBuffered_spec (x d : string) (n : nat) :
  let hit j := Nat.leb j (String.length x) && Nat.leb j (String.length d)
               && String.eqb (JS.slice_last j x) (JS.take j d) in
  let k := findOverlapBuffered x d n in
  k <= n
  /\ (k = 0 \/ (3 <= k /\ hit k = true))
  /\ forall j, k < j -> 3 <= j -> j <= n -> hit j = false.
Proof.
  induction n as [|n IH]; cbn zeta.
  - simpl. repeat split; auto. intros; lia.
  - cbn [findOverlapBuffered].
    destruct (Nat.ltb_spec 2 (S n)) as [H2|H2].
    + match goal with |- context [if ?c then _ else _] => destruct c eqn:E end.
      * repeat split; auto. intros; lia.
      * destruct IH as (Hle & Hhit & Hmax). repeat split; auto.
        intros j Hj1 Hj2 Hj3. destruct (Nat.eq_dec j (S n)) as [->|Hne]; auto.
        apply Hmax; lia.
    + repeat split; auto; try lia.
Qed.

Lemma hit_window (e d : string) (M j : nat) :
  0 < M -> 0 < j -> j <= M ->
  Nat.leb j (String.length (JS.slice_last M e)) && Nat.leb j (String.length d)
  && String.eqb (JS.slice_last j (JS.slice_last M e)) (JS.take j d) = true
  <-> overlaps e d j.
Proof.
  intros HM Hj HjM. unfold JS.slice_last, overlaps.
  destruct (Nat.eqb_spec M 0) as [->|_]; [lia|].
  destruct (Nat.eqb_spec j 0) as [->|_]; [lia|].
  rewrite !andb_true_iff, !Nat.leb_le, String.eqb_eq.
  rewrite length_drop, drop_drop.
  split.
  - intros [[H1 H2] Heq]. repeat split; try lia.
    rewrite <- Heq. f_equal. lia.
  - intros (He & Hd & Heq). repeat split; try lia.
    rewrite <- Heq. f_equal. lia.
Qed.

Lemma endsWith_overlaps (e d : string) :
  JS.endsWith e d = true -> overlaps e d (String.length d).
Proof.
  unfold JS.endsWith, overlaps.
  rewrite andb_true_iff, Nat.leb_le, String.eqb_eq. intros [Hlen Heq].
  repeat split; auto. now rewrite take_all.
Qed.

(** The buffering handler strips the whole fragment when the buffer ends
    with it, and otherwise the longest overlap of at least 3 and at most
    [min (length fragment) 100] characters. *)
Lemma dedupeBuffered_longest (e d : string) :
  (dedupeBuffered e d = 0 \/ 3 <= dedupeBuffered e d
   \/ dedupeBuffered e d = String.length d)
  /\ longestOverlap e d 3 (Nat.min (String.length d) 100) (dedupeBuffered e d).
Proof.
  unfold dedupeBuffered, longestOverlap.
  destruct (Nat.ltb_spec 0 (String.length e)) as [He|He]; cbn [andb].
  2:{ split; [auto|]. split; [apply overlaps_zero|].
      intros j Hj1 Hj2 Hj3 (Hje & _). lia. }
  destruct (Nat.ltb_spec 0 (String.length d)) as [Hd|Hd].
  2:{ split; [auto|]. split; [apply overlaps_zero|].
      intros j Hj1 Hj2 Hj3 (_ & Hjd & _). lia. }
  destruct (JS.endsWith e d) eqn:Efull.
  - split; [auto|]. split; [now apply endsWith_overlaps|]. intros; lia.
  - set (M := Nat.min (String.length d) 100).
    assert (HM : 0 < M) by (subst M; lia).
    pose proof (findOverlapBuffered_spec (JS.slice_last M e) d M) as (Hle & Hhit & Hmax).
    cbn zeta in *. split; [|split].
    + destruct Hhit as [->|[H3 _]]; auto.
    + destruct Hhit as [->|[H3 Hhit]]; [apply overlaps_zero|].
      apply (hit_window e d M) in Hhit; auto; lia.
    + intros j Hj1 Hj2 Hj3 Hov.
      apply (hit_window e d M) in Hov; try lia.
      rewrite Hmax in Hov by lia. discriminate.
Qed.

End Dedupe.



(** ** The artifact under stream events *)

Section ClientStream.

Lemma extends_refl (a : string) : extends a a.
Proof. exists "". now rewrite append_nil_r. Qed.

Lemma extends_append (a t : string) : extends a (a +:+ t).
Proof. now exists t. Qed.

Lemma extends_trans (a b c : string) : extends a b -> extends b c -> extends a c.
Proof. intros [t ->] [u ->]. exists (t +:+ u). apply append_assoc. Qed.

Lemma extends_length (a b : string) :
  extends a b -> String.length a <= String.length b.
Proof. intros [t ->]. rewrite length_append. lia. Qed.

Lemma appendDeduped_extends (e d : string) : extends e (appendDeduped e d).
Proof. apply extends_append. Qed.

Lemma flushUpdater_extends (b : string) (a : UIArtifact) :
  extends (content a) (content (flushUpdater b a)).
Proof.
  unfold flushUpdater.
  match goal with |- context [if ?c then _ else _] => destruct c end;
    [apply extends_refl | apply extends_append].
Qed.

(** A text delta under each definition, then under the reducer. *)
Lemma handleDelta_text_extends (def : option ArtifactDefinition) (c : string)
    (st : ArtifactStore) :
  In def sourceDefinitions ->
  extends (content (current st))
          (content (current (handleDelta def (d_text_delta c) st))).
Proof.
  intros [<-|[<-|[<-|[]]]]; unfold handleDelta; cbn.
  - apply appendDeduped_extends.
  - eapply extends_trans; [apply extends_append | apply appendDeduped_extends].
  - destruct (JS.truthy c); cbn; [|apply appendDeduped_extends].
    eapply extends_trans; [apply extends_append | apply appendDeduped_extends].
Qed.

Lemma handleDeltas_text_extends (def : option ArtifactDefinition)
    (cs : list string) (st : ArtifactStore) :
  In def sourceDefinitions ->
  extends (content (current st))
          (content (current (handleDeltas def (map d_text_delta cs) st))).
Proof.
  intros Hdef. revert st. induction cs as [|c cs IH]; intros st.
  - apply extends_refl.
  - cbn [map]. unfold handleDeltas in *. cbn [fold_left].
    eapply extends_trans; [|apply IH]. now apply handleDelta_text_extends.
Qed.

Lemma flushTextBuffer_extends (def : option ArtifactDefinition) (h : BufferedHandler) :
  In def sourceDefinitions ->
  extends (content (current (cell h)))
          (content (current (cell (flushTextBuffer def h)))).
Proof.
  intros Hdef. unfold flushTextBuffer.
  destruct (Nat.ltb 0 (String.length (textDeltaBuffer h))); cbn [cell];
    [|apply extends_refl].
  unfold setArtifact. cbn [current].
  eapply extends_trans; [|apply flushUpdater_extends].
  destruct Hdef as [<-|[<-|[<-|[]]]]; cbn.
  - apply extends_refl.
  - apply extends_append.
  - destruct (JS.truthy (textDeltaBuffer h)); cbn;
      [apply extends_append | apply extends_refl].
Qed.

End ClientStream.

(** C3.  Append-only streaming: each applied [text-delta] (under every
    artifact definition of the sources, then the reducer) leaves the old
    content as a prefix of the new one, so its length does not decrease;
    so does any sequence of text deltas, and so does a flush of the
    buffering handler; [finish] leaves the content as it is. *)
Theorem content_append_only (def : option ArtifactDefinition)
    (st : ArtifactStore) (c : string) (cs : list string) (h : BufferedHandler) :
  In def sourceDefinitions ->
  (extends (content (current st))
           (content (current (handleDelta def (d_text_delta c) st)))
   /\ String.length (content (current st))
      <= String.length (content (current (handleDelta def (d_text_delta c) st))))
  /\ (extends (content (current st))
              (content (current (handleDeltas def (map d_text_delta cs) st)))
      /\ String.length (content (current st))
         <= String.length
              (content (current (handleDeltas def (map d_text_delta cs) st))))
  /\ (extends (content (current (cell h)))
              (content (current (cell (flushTextBuffer def h))))
      /\ String.length (content (current (cell h)))
         <= String.length (content (current (cell (flushTextBuffer def h)))))
  /\ content (current (handleDelta def d_finish st)) = content (current st).
Proof.
  intros Hdef.
  pose proof (handleDelta_text_extends def c st Hdef) as H1.
  pose proof (handleDeltas_text_extends def cs st Hdef) as H2.
  pose proof (flushTextBuffer_extends def h Hdef) as H3.
  repeat split; auto using extends_length.
  destruct Hdef as [<-|[<-|[<-|[]]]]; reflexivity.
Qed.

Lemma content_append_only_witness :
  In (Some textArtifact) sourceDefinitions
  /\ String.length (content (current (Some (withContent "ab" initialArtifactData))))
     <= String.length
          (content (current (handleDelta (Some textArtifact) (d_text_delta "bc")
                               (Some (withContent "ab" initialArtifactData))))).
Proof.
  split; [simpl; auto|].
  apply (content_append_only (Some textArtifact)
           (Some (withContent "ab" initialArtifactData)) "bc" []
           {| cell := None; textDeltaBuffer := ""; bufferTimeoutSet := false |}).
  simpl; auto.
Defined.

(** C2 (amended).  After [finish] the status is [idle] and the content is
    what it was; a second [finish] changes nothing.  A later [text-delta]
    is not refused: it is applied as during streaming (so the content is
    what the same delta gives without the [finish]) and the status is
    [streaming] again. *)
Theorem finish_makes_idle (def : option ArtifactDefinition)
    (st : ArtifactStore) (c : string) :
  In def sourceDefinitions ->
  let st1 := handleDelta def d_finish st in
  status (current st1) = idle
  /\ content (current st1) = content (current st)
  /\ handleDelta def d_finish st1 = st1
  /\ content (current (handleDelta def (d_text_delta c) st1))
     = content (current (handleDelta def (d_text_delta c) st))
  /\ status (current (handleDelta def (d_text_delta c) st1)) = streaming.
Proof.
  intros [<-|[<-|[<-|[]]]]; cbn; repeat split; destruct (JS.truthy c); reflexivity.
Qed.

Lemma finish_makes_idle_witness :
  In (Some textArtifact) sourceDefinitions
  /\ status (current (handleDelta (Some textArtifact) d_finish
                        (Some (withContent "a" initialArtifactData)))) = idle.
Proof.
  split; [simpl; auto|].
  apply (finish_makes_idle (Some textArtifact)
           (Some (withContent "a" initialArtifactData)) "b").
  simpl; auto.
Defined.

(** C2 as stated fails: after [finish] on the content "a", the text delta
    "b" changes the content to "ab". *)
Lemma late_text_delta_changes_content :
  let st1 := handleDelta (Some textArtifact) d_finish
               (Some (withContent "a" initialArtifactData)) in
  status (current st1) = idle
  /\ content (current st1) = "a"
  /\ content (current (handleDelta (Some textArtifact) (d_text_delta "b") st1)) = "ab"
  /\ content (current (handleDelta (Some textArtifact) (d_text_delta "b") st1))
     <> content (current st1).
Proof. vm_compute. repeat split; try reflexivity. discriminate. Qed.

Lemma handleDelta_isVisible (def : option ArtifactDefinition)
    (delta : DataStreamDelta) (st : ArtifactStore) :
  In def sourceDefinitions ->
  isVisible (current (handleDelta def delta st)) = isVisible (current st).
Proof.
  intros [<-|[<-|[<-|[]]]]; destruct delta as [c| | | | | | | | |]; cbn;
    try reflexivity.
  destruct (JS.truthy c); reflexivity.
Qed.

Lemma handleDeltas_isVisible (def : option ArtifactDefinition)
    (deltas : list DataStreamDelta) (st : ArtifactStore) :
  In def sourceDefinitions ->
  isVisible (current (handleDeltas def deltas st)) = isVisible (current st).
Proof.
  intros Hdef. revert st. induction deltas as [|d ds IH]; intros st; [reflexivity|].
  unfold handleDeltas in *. cbn [fold_left]. rewrite IH.
  now apply handleDelta_isVisible.
Qed.

(** C8.  No stream event changes the visibility: after each event, and
    after any sequence of events, and after a flush of the buffered text,
    [isVisible] is what it was; the click on the preview sets it. *)
Theorem visibility_user_driven (def : option ArtifactDefinition)
    (delta : DataStreamDelta) (deltas : list DataStreamDelta)
    (st : ArtifactStore) (h : BufferedHandler)
    (result : option ToolResult) (clicked : BoundingBox) :
  In def sourceDefinitions ->
  isVisible (current (handleDelta def delta st)) = isVisible (current st)
  /\ isVisible (current (handleDeltas def deltas st)) = isVisible (current st)
  /\ isVisible (current (cell (flushTextBuffer def h))) = isVisible (current (cell h))
  /\ isVisible (current (handleClick result clicked st)) = true.
Proof.
  intros Hdef. split; [now apply handleDelta_isVisible|].
  split; [now apply handleDeltas_isVisible|]. split; [|reflexivity].
  unfold flushTextBuffer.
  destruct (Nat.ltb 0 (String.length (textDeltaBuffer h))); [|reflexivity].
  cbn [cell]. unfold setArtifact, flushUpdater. cbn [current].
  assert (Hin : forall a, isVisible
            (if Nat.eqb (String.length
                  (JS.drop (dedupeBuffered (content a) (textDeltaBuffer h))
                     (textDeltaBuffer h))) 0
                && Nat.ltb 0 (dedupeBuffered (content a) (textDeltaBuffer h))
             then a
             else withIsVisible (isVisible a)
                    (withStatus streaming
                       (withContent
                          (content a +:+ JS.drop (dedupeBuffered (content a) (textDeltaBuffer h))
                                           (textDeltaBuffer h)) a))) = isVisible a).
  { intros a. match goal with |- context [if ?c then _ else _] => destruct c end;
      reflexivity. }
  rewrite Hin.
  destruct Hdef as [<-|[<-|[<-|[]]]]; cbn; try reflexivity.
  destruct (JS.truthy (textDeltaBuffer h)); reflexivity.
Qed.

Lemma visibility_user_driven_witness :
  In (Some textArtifact) sourceDefinitions
  /\ isVisible (current (handleDelta (Some textArtifact) (d_text_delta "x") None))
     = isVisible (current None).
Proof.
  split; [simpl; auto|].
  apply (visibility_user_driven (Some textArtifact) (d_text_delta "x") [] None
           {| cell := None; textDeltaBuffer := ""; bufferTimeoutSet := false |}
           None {| top := 0; left := 0; width := 0; height := 0 |}).
  simpl; auto.
Defined.

(** ** Blank fragments *)

Lemma join_single (c : string) : JS.join "" [c] = c.
Proof. reflexivity. Qed.

Lemma trim_empty_truthy (c : string) : JS.trim c = "" -> JS.truthy (JS.trim c) = false.
Proof. now intros ->. Qed.

(** C10 (amended).  A blank fragment handled on its own is dropped: the
    text artifact leaves the content unchanged for a [text-delta] that is
    empty or all white space, and the buffering handler leaves its buffer
    (and everything else) unchanged for a batch whose text deltas join to
    a blank text, in particular for a batch made of that one delta.  So
    three fragments "a", " ", "b" that arrive one by one give the content
    "ab", not their concatenation. *)
Theorem blank_fragments_dropped (c : string) (newDeltas : list DataStreamDelta)
    (st : ArtifactStore) (h : BufferedHandler) :
  JS.trim c = "" ->
  JS.trim (JS.join "" (textDeltasOf newDeltas)) = "" ->
  content (current (onStreamPart textArtifactTrim (d_text_delta c) st))
    = content (current st)
  /\ addTextDeltas newDeltas h = h
  /\ addTextDeltas [d_text_delta c] h = h
  /\ (let deliver d h := flushTextBuffer (Some textArtifactTrim)
                           (addTextDeltas [d_text_delta d] h) in
      let h0 := {| cell := None; textDeltaBuffer := ""; bufferTimeoutSet := false |} in
      content (current (cell (deliver "b" (deliver " " (deliver "a" h0))))) = "ab"
      /\ JS.join "" ["a"; " "; "b"] = "a b").
Proof.
  intros Hc Hjoin. split; [|split; [|split]].
  - cbn. destruct (JS.truthy c); [|reflexivity].
    rewrite Hc. cbn. destruct st; cbn; now rewrite append_nil_r.
  - unfold addTextDeltas. cbn zeta. rewrite Hjoin.
    destruct (Nat.ltb 0 (List.length (textDeltasOf newDeltas))); reflexivity.
  - unfold addTextDeltas. cbn [textDeltasOf]. rewrite join_single, Hc. reflexivity.
  - vm_compute. split; reflexivity.
Qed.

Lemma blank_fragments_dropped_witness :
  JS.trim "  " = ""
  /\ JS.trim (JS.join "" (textDeltasOf [d_text_delta " "; d_clear; d_text_delta ""])) = ""
  /\ content (current (onStreamPart textArtifactTrim (d_text_delta "  ")
                         (Some (withContent "a" initialArtifactData)))) = "a".
Proof.
  split; [reflexivity|]. split; [reflexivity|].
  apply (blank_fragments_dropped "  " [d_text_delta " "; d_clear; d_text_delta ""]
           (Some (withContent "a" initialArtifactData))
           {| cell := None; textDeltaBuffer := ""; bufferTimeoutSet := false |});
    reflexivity.
Defined.

(** C10 as stated fails for the buffering handler: the blank fragment " "
    that arrives in one batch with the fragment "a" is put into the buffer
    and reaches the content. *)
Lemma blank_fragment_kept_in_batch :
  let h0 := {| cell := None; textDeltaBuffer := ""; bufferTimeoutSet := false |} in
  let h1 := addTextDeltas [d_text_delta "a"; d_text_delta " "] h0 in
  JS.trim " " = ""
  /\ textDeltaBuffer h1 = "a "
  /\ content (current (cell (flushTextBuffer (Some textArtifactTrim) h1))) = "a "
  /\ content (current (cell (flushTextBuffer (Some textArtifactTrim) h1)))
     <> content (current (cell (flushTextBuffer (Some textArtifactTrim)
                                  (addTextDeltas [d_text_delta "a"] h0)))).
Proof. vm_compute. repeat split; try reflexivity. discriminate. Qed.

(** ** Trimming, splitting and joining *)

Section TrimFacts.

Lemma trimEnd_append (a b : string) :
  JS.trimEnd b <> "" -> JS.trimEnd (a +:+ b) = a +:+ JS.trimEnd b.
Proof.
  intros Hb. induction a as [|c a IH]; [reflexivity|].
  rewrite !append_cons. cbn [JS.trimEnd]. rewrite IH.
  destruct (a +:+ JS.trimEnd b) eqn:E; [|reflexivity].
  destruct a; [now rewrite append_nil_l in E | discriminate].
Qed.

Lemma trimEnd_idem (b : string) : JS.trimEnd (JS.trimEnd b) = JS.trimEnd b.
Proof.
  induction b as [|c b IH]; [reflexivity|].
  cbn [JS.trimEnd]. destruct (JS.trimEnd b) eqn:E.
  - destruct (JS.isSpace c) eqn:Ec; [reflexivity|].
    cbn [JS.trimEnd]. now rewrite Ec.
  - cbn [JS.trimEnd] in *. now rewrite IH.
Qed.

Lemma trimStart_trimEnd (b : string) :
  JS.trimStart (JS.trimEnd b) = JS.trimEnd (JS.trimStart b).
Proof.
  induction b as [|c b IH]; [reflexivity|].
  cbn [JS.trimStart JS.trimEnd].
  destruct (JS.isSpace c) eqn:Ec.
  - rewrite <- IH. destruct (JS.trimEnd b) eqn:E; [reflexivity|].
    cbn [JS.trimStart]. now rewrite Ec.
  - cbn [JS.trimEnd]. destruct (JS.trimEnd b) eqn:E; cbn [JS.trimStart]; now rewrite Ec.
Qed.

Lemma trim_nonempty_trimEnd (b : string) : JS.trim b <> "" -> JS.trimEnd b <> "".
Proof.
  unfold JS.trim. rewrite <- trimStart_trimEnd. intros H E. apply H. now rewrite E.
Qed.

Lemma trim_trimEnd (b : string) : JS.trim (JS.trimEnd b) = JS.trim b.
Proof.
  unfold JS.trim. now rewrite <- !trimStart_trimEnd, trimEnd_idem.
Qed.

Lemma split_nonempty (sep : ascii) (s : string) : JS.split sep s <> [].
Proof.
  destruct s as [|c s]; cbn [JS.split]; [discriminate|].
  destruct (Ascii.eqb c sep); [discriminate|].
  destruct (JS.split sep s); discriminate.
Qed.

(** Joining the lines again gives the text back. *)
Lemma join_split (s : string) : JS.join JS.NL (JS.split JS.nl s) = s.
Proof.
  induction s as [|c s IH]; [reflexivity|].
  cbn [JS.split]. pose proof (split_nonempty JS.nl s) as Hne.
  destruct (Ascii.eqb_spec c JS.nl) as [->|Hc].
  - destruct (JS.split JS.nl s) as [|l ls]; [contradiction|].
    cbn [JS.join] in *. now rewrite IH.
  - destruct (JS.split JS.nl s) as [|l ls]; [contradiction|].
    destruct ls as [|l' ls]; cbn [JS.join] in *; [now rewrite IH|].
    rewrite append_cons. now rewrite IH.
Qed.

(** A text without a line feed, then a line feed, then more text: the first
    line is that text. *)
Lemma split_first_line (tag x : string) :
  JS.includes tag JS.NL = false ->
  JS.split JS.nl (tag +:+ JS.NL +:+ x) = tag :: JS.split JS.nl x.
Proof.
  induction tag as [|c tag IH]; intros Hnl.
  - rewrite append_nil_l. unfold JS.NL. rewrite append_cons, append_nil_l.
    cbn [JS.split]. now rewrite Ascii.eqb_refl.
  - rewrite append_cons. cbn [JS.split].
    cbn [JS.includes JS.startsWith] in Hnl. unfold JS.NL in Hnl at 1.
    apply orb_false_iff in Hnl as [Hc Hin].
    assert (Hs : JS.startsWith tag "" = true) by now destruct tag.
    rewrite Hs, andb_true_r, Ascii.eqb_sym in Hc.
    rewrite Hc. now rewrite IH.
Qed.

End TrimFacts.

(** ** The code decoder *)

Section CodeDecoder.
Import Decoders.

Lemma processCodeOutput_tagged (tag : string) (c : ascii) (tag' : string)
    (l : SupportedLanguage) (body : string) :
  tag = String c tag' ->
  JS.isSpace c = false ->
  JS.includes tag JS.NL = false ->
  isValidLanguage (JS.toLowerCase (JS.trim tag)) = Some l ->
  JS.trim body <> "" ->
  processCodeOutput (tag +:+ JS.NL +:+ body)
  = {| language := l; code := JS.trim body |}.
Proof.
  intros Htag Hc Hnl Hvalid Hbody.
  pose proof (trim_nonempty_trimEnd body Hbody) as HtrimEnd.
  assert (Htrim : JS.trim (tag +:+ JS.NL +:+ body) = tag +:+ JS.NL +:+ JS.trimEnd body).
  { unfold JS.trim. rewrite Htag at 1. rewrite append_cons.
    cbn [JS.trimStart]. rewrite Hc. rewrite <- append_cons, <- Htag.
    rewrite <- append_assoc, trimEnd_append by assumption.
    apply append_assoc. }
  assert (Ht : forall y, JS.truthy (tag +:+ y) = true)
    by (intros y; now rewrite Htag, append_cons).
  unfold processCodeOutput. rewrite Htrim, !Ht. cbn [negb].
  rewrite split_first_line by assumption.
  pose proof (split_nonempty JS.nl (JS.trimEnd body)) as Hne.
  destruct (JS.split JS.nl (JS.trimEnd body)) as [|x xs] eqn:Esplit; [contradiction|].
  cbn [List.length Nat.ltb Nat.leb nth skipn]. rewrite Hvalid.
  f_equal. rewrite <- Esplit, join_split. apply trim_trimEnd.
Qed.

End CodeDecoder.

(** C9 (amended).  When the raw stream is a bare valid language tag, a line
    feed, and a rest that is not blank, the code decoder returns that tag
    as the language and everything after the first line, trimmed, as the
    payload; so "python\ndef f():\n    return 1\n" decodes to the language
    python and the payload "def f():\n    return 1". *)
Theorem code_decode_first_line_tag (l : Decoders.SupportedLanguage) (body : string) :
  JS.trim body <> "" ->
  Decoders.processCodeOutput (Decoders.languageName l +:+ JS.NL +:+ body)
  = {| Decoders.language := l; Decoders.code := JS.trim body |}
  /\ Decoders.processCodeOutput
       ("python" +:+ JS.NL +:+ "def f():" +:+ JS.NL +:+ "    return 1" +:+ JS.NL)
     = {| Decoders.language := Decoders.lang_python;
          Decoders.code := "def f():" +:+ JS.NL +:+ "    return 1" |}.
Proof.
  intros Hbody. split; [|reflexivity].
  destruct l; eapply processCodeOutput_tagged; eauto; reflexivity.
Qed.

Lemma code_decode_first_line_tag_witness :
  JS.trim ("print(1)" +:+ JS.NL) <> ""
  /\ Decoders.processCodeOutput ("python" +:+ JS.NL +:+ "print(1)" +:+ JS.NL)
     = {| Decoders.language := Decoders.lang_python; Decoders.code := "print(1)" |}.
Proof.
  split; [vm_compute; discriminate|].
  apply (code_decode_first_line_tag Decoders.lang_python ("print(1)" +:+ JS.NL)).
  vm_compute; discriminate.
Defined.

(** C9 as stated fails when nothing follows the tag line: the first line of
    "python\n" is the bare tag python, and the decoder answers with the
    language text and the payload "python". *)
Lemma code_decode_tag_alone :
  Decoders.processCodeOutput ("python" +:+ JS.NL)
  = {| Decoders.language := Decoders.lang_text; Decoders.code := "python" |}
  /\ nth 0 (JS.split JS.nl ("python" +:+ JS.NL)) "" = "python"
  /\ Decoders.isValidLanguage "python" = Some Decoders.lang_python
  /\ Decoders.processCodeOutput ("python" +:+ JS.NL)
     <> {| Decoders.language := Decoders.lang_python; Decoders.code := "" |}.
Proof. vm_compute. repeat split; try reflexivity. discriminate. Qed.

(** ** The message merger *)

Section MergerFacts.
Import Merger.

Lemma list_ind2 (A : Type) (P : list A -> Prop) :
  P [] -> (forall a, P [a]) ->
  (forall a b l, P l -> P (b :: l) -> P (a :: b :: l)) ->
  forall l, P l.
Proof.
  intros H0 H1 H2 l.
  assert (H : P l /\ forall a, P (a :: l)).
  { induction l as [|b l [IHl IHbl]]; split; auto. }
  apply H.
Qed.

Lemma sanitize_eq (a b : Message) (l : list Message) :
  sanitizeUIMessages (a :: b :: l)
  = if negb (isAssistant a) || negb (isAssistant b)
    then a :: sanitizeUIMessages (b :: l)
    else if hasDocumentContent a b || (hasDocumentTools a || hasDocumentTools b)
    then sanitizeMerge a b :: sanitizeUIMessages l
    else a :: sanitizeUIMessages (b :: l).
Proof. reflexivity. Qed.

Lemma convert_eq (a b : Message) (l : list Message) :
  mergeDocumentMessages (a :: b :: l)
  = if isAssistant a
    then if isAssistant b && (hasDocumentTools a || hasDocumentTools b)
         then convertMerge a b :: mergeDocumentMessages l
         else a :: mergeDocumentMessages (b :: l)
    else a :: mergeDocumentMessages (b :: l).
Proof. reflexivity. Qed.

Lemma mergeAdjacent_eq (shouldMerge : Message -> Message -> bool)
    (merge2 : Message -> Message -> Message) (a b : Message) (l : list Message) :
  mergeAdjacent shouldMerge merge2 (a :: b :: l)
  = if shouldMerge a b then merge2 a b :: mergeAdjacent shouldMerge merge2 l
    else a :: mergeAdjacent shouldMerge merge2 (b :: l).
Proof. reflexivity. Qed.

Lemma sanitize_scheme (messages : list Message) :
  sanitizeUIMessages messages = mergeAdjacent sanitizeShould sanitizeMerge messages.
Proof.
  induction messages as [| a | a b l IHl IHbl] using list_ind2; try reflexivity.
  rewrite sanitize_eq, mergeAdjacent_eq, IHl, IHbl. unfold sanitizeShould.
  destruct (isAssistant a), (isAssistant b); cbn [negb orb andb]; try reflexivity.
Qed.

Lemma convert_scheme (messages : list Message) :
  mergeDocumentMessages messages = mergeAdjacent convertShould convertMerge messages.
Proof.
  induction messages as [| a | a b l IHl IHbl] using list_ind2.
  - reflexivity.
  - cbn. now destruct (isAssistant a).
  - rewrite convert_eq, mergeAdjacent_eq, IHl, IHbl. unfold convertShould.
    destruct (isAssistant a), (isAssistant b); cbn [andb]; try reflexivity.
Qed.

Section Scheme.
Variable shouldMerge : Message -> Message -> bool.
Variable merge2 : Message -> Message -> Message.
Hypothesis shouldMerge_assistants :
  forall m n, shouldMerge m n = true -> isAssistant m = true /\ isAssistant n = true.
Hypothesis merge2_role : forall m n, isAssistant (merge2 m n) = isAssistant m.

Let merge := mergeAdjacent shouldMerge merge2.

Lemma settled_fixed (l : list Message) :
  settled shouldMerge l = true -> merge l = l.
Proof.
  induction l as [| a | a b l IHl IHbl] using list_ind2; try reflexivity.
  intros H. change (negb (shouldMerge a b) && settled shouldMerge (b :: l) = true) in H.
  apply andb_true_iff in H as [Hab Hrest].
  unfold merge in *. rewrite mergeAdjacent_eq.
  destruct (shouldMerge a b); [discriminate|]. now rewrite IHbl.
Qed.

(** The first message of the result is an assistant message exactly when
    the first message of the input is. *)
Lemma merge_head (a : Message) (l : list Message) :
  exists a' l', merge (a :: l) = a' :: l' /\ isAssistant a' = isAssistant a.
Proof.
  unfold merge. destruct l as [|b l]; [cbn; eauto|].
  rewrite mergeAdjacent_eq. destruct (shouldMerge a b); eauto.
Qed.

Lemma noThree_tail (a : Message) (l : list Message) :
  noThreeAssistants (a :: l) = true -> noThreeAssistants l = true.
Proof.
  destruct l as [|b [|c l]]; try reflexivity.
  change (negb (isAssistant a && isAssistant b && isAssistant c)
          && noThreeAssistants (b :: c :: l) = true
          -> noThreeAssistants (b :: c :: l) = true).
  now intros [_ H]%andb_true_iff.
Qed.

Lemma settled_cons (a : Message) (l : list Message) :
  settled shouldMerge l = true ->
  (forall b l', l = b :: l' -> shouldMerge a b = false) ->
  settled shouldMerge (a :: l) = true.
Proof.
  intros Hl Hab. destruct l as [|b l']; [reflexivity|].
  change (negb (shouldMerge a b) && settled shouldMerge (b :: l') = true).
  now rewrite (Hab b l' eq_refl).
Qed.

Lemma merge_settled (l : list Message) :
  noThreeAssistants l = true -> settled shouldMerge (merge l) = true.
Proof.
  induction l as [| a | a b l IHl IHbl] using list_ind2; try reflexivity.
  intros H3. pose proof (noThree_tail _ _ H3) as H3b.
  pose proof (noThree_tail _ _ H3b) as H3l.
  assert (H3abc : forall c l', l = c :: l' ->
            isAssistant a && isAssistant b && isAssistant c = false).
  { intros c l' ->. cbn [noThreeAssistants] in H3.
    apply andb_true_iff in H3 as [H3 _]. now apply negb_true_iff in H3. }
  unfold merge in *. rewrite mergeAdjacent_eq.
  destruct (shouldMerge a b) eqn:Eab.
  - apply settled_cons; [now apply IHl|].
    intros c' l' Hc'. destruct l as [|c l]; [discriminate|].
    destruct (merge_head c l) as (c2 & l2 & Hm & Hrole).
    unfold merge in Hm. rewrite Hm in Hc'. injection Hc' as <- <-.
    destruct (shouldMerge (merge2 a b) c2) eqn:E; [|reflexivity].
    apply shouldMerge_assistants in E as [_ Hc2].
    apply shouldMerge_assistants in Eab as [Ha Hb].
    specialize (H3abc c l eq_refl). rewrite Ha, Hb, <- Hrole, Hc2 in H3abc.
    discriminate.
  - apply settled_cons; [now apply IHbl|].
    intros b' l' Hb'. destruct l as [|c l].
    + cbn in Hb'. injection Hb' as <- <-. exact Eab.
    + rewrite mergeAdjacent_eq in Hb'. destruct (shouldMerge b c) eqn:Ebc.
      * injection Hb' as <- <-.
        destruct (shouldMerge a (merge2 b c)) eqn:E; [|reflexivity].
        apply shouldMerge_assistants in E as [Ha _].
        apply shouldMerge_assistants in Ebc as [Hb Hc].
        specialize (H3abc c l eq_refl). rewrite Ha, Hb, Hc in H3abc. discriminate.
      * injection Hb' as <- <-. exact Eab.
Qed.

Lemma merge_idempotent (l : list Message) :
  noThreeAssistants l = true -> merge (merge l) = merge l.
Proof. intros H. apply settled_fixed. now apply merge_settled. Qed.

End Scheme.

Lemma sanitize_idempotent (messages : list Message) :
  noThreeAssistants messages = true ->
  sanitizeUIMessages (sanitizeUIMessages messages) = sanitizeUIMessages messages.
Proof.
  intros H. rewrite !sanitize_scheme.
  apply merge_idempotent; [| reflexivity | exact H].
  unfold sanitizeShould. intros m n E.
  apply andb_true_iff in E as [E _]. now apply andb_true_iff in E.
Qed.

Lemma convert_idempotent (messages : list Message) :
  noThreeAssistants messages = true ->
  mergeDocumentMessages (mergeDocumentMessages messages)
  = mergeDocumentMessages messages.
Proof.
  intros H. rewrite !convert_scheme.
  apply merge_idempotent; [| reflexivity | exact H].
  unfold convertShould. intros m n E.
  apply andb_true_iff in E as [E _]. now apply andb_true_iff in E.
Qed.

End MergerFacts.

(** C6 (amended).  On every list of messages without three consecutive
    assistant messages the merger is idempotent: a second run of
    [sanitizeUIMessages], and of the merging pass of [convertToUIMessages],
    merges no further pair. *)
Theorem merge_idempotent_without_assistant_triples (msgs : list Merger.Message) :
  Merger.noThreeAssistants msgs = true ->
  Merger.sanitizeUIMessages (Merger.sanitizeUIMessages msgs)
  = Merger.sanitizeUIMessages msgs
  /\ Merger.mergeDocumentMessages (Merger.mergeDocumentMessages msgs)
     = Merger.mergeDocumentMessages msgs.
Proof.
  intros H. split; [now apply sanitize_idempotent | now apply convert_idempotent].
Qed.

Lemma merge_idempotent_without_assistant_triples_witness :
  let A := {| Merger.msg_id := "a"; Merger.role := Merger.role_assistant;
              Merger.msg_content :=
                "Let me create a document for you with a structured essay on this topic.";
              Merger.reasoning := None; Merger.toolInvocations := Some [] |} in
  let B := {| Merger.msg_id := "b"; Merger.role := Merger.role_assistant;
              Merger.msg_content := "Done.";
              Merger.reasoning := None;
              Merger.toolInvocations :=
                Some [ {| Merger.inv_state := Merger.state_result;
                          Merger.toolCallId := "call-1";
                          Merger.toolName := "createDocument";
                          Merger.args := "{}"; Merger.result := Some "{}" |} ] |} in
  Merger.noThreeAssistants [A; B] = true
  /\ Merger.sanitizeUIMessages (Merger.sanitizeUIMessages [A; B])
     = Merger.sanitizeUIMessages [A; B].
Proof.
  cbv zeta. split; [reflexivity|].
  apply merge_idempotent_without_assistant_triples. reflexivity.
Defined.

(** C6 as stated fails: of three consecutive assistant messages, the second
    carrying a [createDocument] invocation, the first run merges the first
    two, and the second run merges the result with the third. *)
Lemma merge_twice_merges_again :
  let plain (i c : string) :=
    {| Merger.msg_id := i; Merger.role := Merger.role_assistant;
       Merger.msg_content := c; Merger.reasoning := None;
       Merger.toolInvocations := Some [] |} in
  let tool :=
    {| Merger.msg_id := "m2"; Merger.role := Merger.role_assistant;
       Merger.msg_content := "two"; Merger.reasoning := None;
       Merger.toolInvocations :=
         Some [ {| Merger.inv_state := Merger.state_result;
                   Merger.toolCallId := "call-1";
                   Merger.toolName := "createDocument";
                   Merger.args := "{}"; Merger.result := Some "{}" |} ] |} in
  let msgs := [plain "m1" "one"; tool; plain "m3" "three"] in
  List.length (Merger.sanitizeUIMessages msgs) = 2
  /\ List.length (Merger.sanitizeUIMessages (Merger.sanitizeUIMessages msgs)) = 1
  /\ Merger.sanitizeUIMessages (Merger.sanitizeUIMessages msgs)
     <> Merger.sanitizeUIMessages msgs
  /\ Merger.mergeDocumentMessages (Merger.mergeDocumentMessages msgs)
     <> Merger.mergeDocumentMessages msgs.
Proof. vm_compute. repeat split; try reflexivity; discriminate. Qed.

(** ** The document handlers *)

Section ServerFacts.
Import Server.

Lemma sameStores_refl (w : World) : sameStores w w.
Proof. now repeat split. Qed.

Lemma sameStores_trans (a b c : World) :
  sameStores a b -> sameStores b c -> sameStores a c.
Proof. unfold sameStores. intros (?&?&?) (?&?&?). repeat split; congruence. Qed.

Lemma writeData_sameStores (d : StreamData) (w : World) : sameStores w (writeData d w).
Proof. now repeat split. Qed.

Lemma sheetStep_sameStores (l : SheetLoop) (w : World) (delta : StreamPart) :
  sameStores w (snd (sheetStep (l, w) delta)).
Proof.
  unfold sheetStep. destruct delta; [|apply sameStores_refl].
  repeat match goal with
         | |- context [if ?c then _ else _] => destruct c
         end; cbn [snd];
    auto using sameStores_refl, writeData_sameStores.
Qed.

Lemma codeUpdateStep_sameStores (lang : Decoders.SupportedLanguage)
    (l : CodeUpdateLoop) (w : World) (delta : StreamPart) :
  sameStores w (snd (codeUpdateStep lang (l, w) delta)).
Proof.
  unfold codeUpdateStep. destruct delta; [|apply sameStores_refl].
  repeat match goal with
         | |- context [if ?c then _ else _] => destruct c
         end; cbn [snd];
    eauto using sameStores_refl, writeData_sameStores, sameStores_trans.
Qed.

Lemma fold_sameStores (L : Type) (f : L * World -> StreamPart -> L * World)
    (ps : list StreamPart) (l : L) (w : World) :
  (forall l w p, sameStores w (snd (f (l, w) p))) ->
  sameStores w (snd (fold_left f ps (l, w))).
Proof.
  intros Hf. revert l w. induction ps as [|p ps IH]; intros l w.
  - apply sameStores_refl.
  - cbn [fold_left]. destruct (f (l, w) p) as [l1 w1] eqn:E.
    eapply sameStores_trans; [|apply IH].
    specialize (Hf l w p). now rewrite E in Hf.
Qed.

Lemma sheetRun_raises (w : World) (s : FragmentStream) (q : list FragmentStream) :
  provider w = s :: q -> ending s = raises ->
  exists w', sheetRun w = (rejected, w')
             /\ updateLocks w' = updateLocks w /\ documents w' = documents w
             /\ provider w' = q.
Proof.
  intros Hp He. unfold sheetRun, streamText. rewrite Hp.
  match goal with
  | |- context [fold_left sheetStep ?ps (?l, ?w0)] =>
      pose proof (fold_sameStores _ sheetStep ps l w0 sheetStep_sameStores) as Hs;
      destruct (fold_left sheetStep ps (l, w0)) as [l1 w1]
  end.
  rewrite He. exists w1. destruct Hs as (H1 & H2 & H3). cbn in *. auto.
Qed.

Lemma codeOnUpdateDocument_raises (document : Document) (w : World)
    (s : FragmentStream) (q : list FragmentStream) :
  provider w = s :: q -> ending s = raises ->
  exists w', codeOnUpdateDocument document w = (rejected, w')
             /\ updateLocks w' = updateLocks w /\ documents w' = documents w
             /\ provider w' = q.
Proof.
  intros Hp He. unfold codeOnUpdateDocument, streamText. rewrite Hp.
  match goal with
  | |- context [fold_left ?f ?ps (?l, ?w0)] =>
      pose proof (fold_sameStores _ f ps l w0 (codeUpdateStep_sameStores _)) as Hs;
      destruct (fold_left f ps (l, w0)) as [l1 w1]
  end.
  rewrite He. exists w1. destruct Hs as (H1 & H2 & H3). cbn in *. auto.
Qed.

End ServerFacts.

(** C5 (amended).  If the provider's stream raises during an update of a
    code or sheet document, the operation fails for its caller, nothing is
    saved (the documents are what they were before the call: the partial
    content is dropped), the lock of the document is released, and the
    provider has been asked once (no retry). *)
Theorem update_failure_releases_lock (config : Server.HandlerConfig)
    (document : Server.Document) (userId : option string) (w : Server.World)
    (s : Server.FragmentStream) (q : list Server.FragmentStream) :
  In config [Server.codeDocumentHandler; Server.sheetDocumentHandler] ->
  Server.isLocked (Server.doc_id document) w = false ->
  Server.provider w = s :: q ->
  Server.ending s = Server.raises ->
  let r := Server.onUpdateDocument config document userId w in
  fst r = Server.failed
  /\ Server.documents (snd r) = Server.documents w
  /\ Server.updateLocks (snd r) !! Server.doc_id document = None
  /\ Server.isLocked (Server.doc_id document) (snd r) = false
  /\ Server.provider (snd r) = q.
Proof.
  intros Hcfg Hlock Hp He. cbv zeta. unfold Server.onUpdateDocument. rewrite Hlock.
  assert (Hrun : exists w',
             Server.cfg_onUpdateDocument config document
               (Server.setLock (Server.doc_id document) w) = (Server.rejected, w')
             /\ Server.updateLocks w'
                = Server.updateLocks (Server.setLock (Server.doc_id document) w)
             /\ Server.documents w' = Server.documents w
             /\ Server.provider w' = q).
  { destruct Hcfg as [<-|[<-|[]]]; cbn [Server.cfg_onUpdateDocument
        Server.codeDocumentHandler Server.sheetDocumentHandler].
    - apply (codeOnUpdateDocument_raises document
               (Server.setLock (Server.doc_id document) w) s q); auto.
    - apply (sheetRun_raises (Server.setLock (Server.doc_id document) w) s q); auto. }
  destruct Hrun as (w' & -> & Hl & Hd & Hq). cbn.
  unfold Server.isLocked. cbn. rewrite lookup_delete_eq. auto.
Qed.


Lemma update_failure_releases_lock_witness :
  let old := {| Server.doc_id := "doc-1"; Server.doc_title := "Prices";
                Server.doc_kind := kind_sheet; Server.doc_content := "a,b";
                Server.doc_userId := "user-1" |} in
  let s := {| Server.parts := [Server.text_delta_part "a,b,c"];
              Server.ending := Server.raises |} in
  let w := {| Server.updateLocks := ∅; Server.documents := {[ "doc-1" := old ]};
              Server.provider := [s]; Server.written := [] |} in
  In Server.sheetDocumentHandler [Server.codeDocumentHandler; Server.sheetDocumentHandler]
  /\ Server.isLocked "doc-1" w = false
  /\ Server.provider w = [s]
  /\ Server.ending s = Server.raises
  /\ fst (Server.onUpdateDocument Server.sheetDocumentHandler old (Some "user-1") w)
     = Server.failed.
Proof.
  cbv zeta. split; [simpl; auto|]. split; [reflexivity|].
  split; [reflexivity|]. split; [reflexivity|].
  eapply update_failure_releases_lock; [simpl; auto | reflexivity | reflexivity | reflexivity].
Defined.

(** C5 as stated fails: the stream delivers "a,b,c" and then raises; the
    snapshot of the document still has the old content "a,b". *)
Lemma partial_content_not_saved :
  let old := {| Server.doc_id := "doc-1"; Server.doc_title := "Prices";
                Server.doc_kind := kind_sheet; Server.doc_content := "a,b";
                Server.doc_userId := "user-1" |} in
  let s := {| Server.parts := [Server.text_delta_part "a,b,c"];
              Server.ending := Server.raises |} in
  let w := {| Server.updateLocks := ∅; Server.documents := {[ "doc-1" := old ]};
              Server.provider := [s]; Server.written := [] |} in
  let r := Server.onUpdateDocument Server.sheetDocumentHandler old (Some "user-1") w in
  fst r = Server.failed
  /\ Server.getDocumentById "doc-1" (snd r) = Some old
  /\ Server.doc_content <$> Server.getDocumentById "doc-1" (snd r) <> Some "a,b,c".
Proof.
  cbv zeta. split; [reflexivity|].
  assert (H : Server.getDocumentById "doc-1"
                (snd (Server.onUpdateDocument Server.sheetDocumentHandler
                        {| Server.doc_id := "doc-1"; Server.doc_title := "Prices";
                           Server.doc_kind := kind_sheet; Server.doc_content := "a,b";
                           Server.doc_userId := "user-1" |} (Some "user-1")
                        {| Server.updateLocks := ∅;
                           Server.documents :=
                             {[ "doc-1" := {| Server.doc_id := "doc-1";
                                              Server.doc_title := "Prices";
                                              Server.doc_kind := kind_sheet;
                                              Server.doc_content := "a,b";
                                              Server.doc_userId := "user-1" |} ]};
                           Server.provider :=
                             [{| Server.parts := [Server.text_delta_part "a,b,c"];
                                 Server.ending := Server.raises |}];
                           Server.written := [] |}))
              = Some {| Server.doc_id := "doc-1"; Server.doc_title := "Prices";
                        Server.doc_kind := kind_sheet; Server.doc_content := "a,b";
                        Server.doc_userId := "user-1" |}).
  { unfold Server.getDocumentById. cbn. apply lookup_singleton_eq. }
  split; [exact H|]. rewrite H. cbn. discriminate.
Qed.

(** ** What is shown at the end and what is saved *)

Section ReloadFacts.
Import Server.

Lemma finalDelta_writeData (d : StreamData) (w : World) :
  sd_complete d = true -> finalDelta (writeData d w) = Some d.
Proof.
  intros H. unfold finalDelta, writeData. cbn [written].
  rewrite rev_app_distr. cbn. now rewrite H.
Qed.

(** For every stream that ends normally, the sheet handler sends the
    extracted CSV as its final delta and returns the raw draft, which is
    what gets saved. *)
Lemma sheet_final_and_saved (id title u : string) (w : World)
    (s : FragmentStream) (q : list FragmentStream) :
  provider w = s :: q -> ending s = ends_normally ->
  exists draft w',
    onCreateDocument sheetDocumentHandler id title (Some u) w = (completed, w')
    /\ option_map sd_content (finalDelta w') = Some (Decoders.extractCSVContent draft)
    /\ option_map doc_content (getDocumentById id w') = Some draft.
Proof.
  intros Hp He.
  unfold onCreateDocument, sheetDocumentHandler, cfg_onCreateDocument,
    sheetOnCreateDocument, sheetRun, streamText.
  rewrite Hp.
  match goal with
  | |- context [fold_left sheetStep ?ps (?l, ?w0)] =>
      destruct (fold_left sheetStep ps (l, w0)) as [l1 w1]
  end.
  rewrite He. eexists _, _. split; [reflexivity|]. split.
  - change (finalDelta (saveDocument ?d ?w)) with (finalDelta w).
    now rewrite finalDelta_writeData.
  - unfold getDocumentById, saveDocument. cbn [documents doc_id].
    rewrite lookup_insert_eq. reflexivity.
Qed.

End ReloadFacts.

(** C1, at a failing input.  The provider answers the creation of a sheet
    with the one fragment "```csv\na,b\n1,2\n```".  The final delta (the
    one with the [complete] flag) carries "a,b\n1,2"; the snapshot saved
    under the document's id has the raw text with its fence. *)
Theorem sheet_final_delta_differs_from_snapshot :
  let raw := "```csv" +:+ JS.NL +:+ "a,b" +:+ JS.NL +:+ "1,2" +:+ JS.NL +:+ "```" in
  let w := {| Server.updateLocks := ∅; Server.documents := ∅;
              Server.provider :=
                [{| Server.parts := [Server.text_delta_part raw];
                    Server.ending := Server.ends_normally |}];
              Server.written := [] |} in
  let r := Server.onCreateDocument Server.sheetDocumentHandler
             "doc-1" "Prices" (Some "user-1") w in
  fst r = Server.completed
  /\ option_map Server.sd_content (Server.finalDelta (snd r))
     = Some ("a,b" +:+ JS.NL +:+ "1,2")
  /\ option_map Server.doc_content (Server.getDocumentById "doc-1" (snd r))
     = Some raw
  /\ option_map Server.sd_content (Server.finalDelta (snd r))
     <> option_map Server.doc_content (Server.getDocumentById "doc-1" (snd r)).
Proof.
  cbv zeta. unfold Server.onCreateDocument.
  match goal with
  | |- context [Server.cfg_onCreateDocument ?c ?w] =>
      let v := eval vm_compute in (Server.cfg_onCreateDocument c w) in
      change (Server.cfg_onCreateDocument c w) with v
  end.
  cbn [fst snd].
  assert (Hsaved : forall d w,
            option_map Server.doc_content
              (Server.getDocumentById (Server.doc_id d) (Server.saveDocument d w))
            = Some (Server.doc_content d)).
  { intros d w. unfold Server.getDocumentById, Server.saveDocument.
    cbn [Server.documents]. now rewrite lookup_insert_eq. }
  match goal with
  | |- context [Server.saveDocument ?d ?w] =>
      pose proof (Hsaved d w) as Hs; cbn [Server.doc_id Server.doc_content] in Hs
  end.
  rewrite Hs.
  split; [reflexivity|]. split; [reflexivity|]. split; [reflexivity|].
  vm_compute. discriminate.
Qed.

(* ===================================================================== *)
(** * The normalizer: idempotence *)
(* ===================================================================== *)

(** The proof has four parts.
    - The replacement of each pattern of [processText] is a scan with a
      rule ([replaceAll_scan], the lemmas [implements_...]), and the passes
      before the technical terms are transducers (the lemmas [scan_...]):
      [processText] is [fixTechnicalTerms] after [Shaper.shape]
      ([processText_shape]).
    - Run on its own output, the transducer writes what it reads, a fact
      checked on the pairs of states that are reached ([shaped_shape]); so
      [shape] leaves the strings that it produces as they are
      ([shape_shaped]).
    - The transducer does not see the terms that only remove the space
      after a period ([shape_terms], [shape_versions]), and the two terms
      that remove the period keep a shaped string shaped ([shaped_terms]).
    - Sets of literal terms that do not clash commute, and the terms that
      remove the period are replaced once and for all ([terms_commute],
      [terms_twice]). *)

Section RegexScan.
Import Regex Normalizer Scanner.

Lemma rmatch_star (g : bool) (r : regex) (st : mstate) (k : mstate -> option mstate) :
  rmatch (Star g r) st k = starLoop (rmatch r) g k (S (String.length (rest st))) st.
Proof. reflexivity. Qed.

Lemma rmatch_chr (p : ascii -> bool) (st : mstate) (k : mstate -> option mstate) :
  rmatch (Chr p) st k
  = match rest st with
    | String c s' =>
        if p c then k {| prev := Some c; rest := s'; pos := S (pos st); caps := caps st |}
        else None
    | EmptyString => None
    end.
Proof. reflexivity. Qed.

Lemma rmatch_seq (r1 r2 : regex) (st : mstate) (k : mstate -> option mstate) :
  rmatch (Seq r1 r2) st k = rmatch r1 st (fun st' => rmatch r2 st' k).
Proof. reflexivity. Qed.

Lemma starLoop_chr (p : ascii -> bool) (k : mstate -> option mstate) :
  forall (n : nat) (s : string) pv m cs,
    String.length s < n ->
    starLoop (rmatch (Chr p)) true k n {| prev := pv; rest := s; pos := m; caps := cs |}
    = greedy p s pv m cs k.
Proof.
  induction n as [|n IH]; intros s pv m cs Hn; [lia|].
  cbn [starLoop]. rewrite rmatch_chr. cbn [rest pos caps prev].
  destruct s as [|c s']; cbn [greedy]; [reflexivity|].
  destruct (p c); [|reflexivity].
  replace (Nat.ltb m (S m)) with true by (symmetry; apply Nat.ltb_lt; lia).
  rewrite IH by (cbn in Hn; lia). reflexivity.
Qed.

Lemma rmatch_star_chr (p : ascii -> bool) (st : mstate) (k : mstate -> option mstate) :
  rmatch (Star true (Chr p)) st k = greedy p (rest st) (prev st) (pos st) (caps st) k.
Proof.
  rewrite rmatch_star. destruct st as [pv s m cs]. cbn [rest prev pos caps].
  apply starLoop_chr. lia.
Qed.

Lemma replaceFrom_scan (r : regex) (t : list piece) (rule : Rule) :
  implements r t rule ->
  forall fuel st, caps st = [] ->
    replaceFrom fuel r t st = scan rule fuel (prev st) (rest st).
Proof.
  intros Himp. induction fuel as [|f IH]; intros st Hcaps; [reflexivity|].
  cbn [replaceFrom scan]. specialize (Himp st Hcaps).
  destruct (rule (prev st) (rest st)) as [[rep n]|].
  - destruct Himp as (Hn & e & -> & Hpos & Hrest & Hprev & Hexp).
    replace (Nat.eqb (pos e) (pos st)) with false
      by (symmetry; apply Nat.eqb_neq; lia).
    rewrite Hexp. f_equal. rewrite IH by reflexivity. cbn [prev rest].
    now rewrite Hprev, Hrest.
  - rewrite Himp. destruct (rest st) as [|c s']; [reflexivity|].
    f_equal. now rewrite IH.
Qed.

Lemma replaceAll_scan (r : regex) (t : list piece) (rule : Rule) (s : string) :
  implements r t rule ->
  replaceAll r t s = scan rule (S (String.length s)) None s.
Proof.
  intros H. unfold replaceAll. now rewrite (replaceFrom_scan r t rule H).
Qed.

Lemma greedy_some (p : ascii -> bool) (s : string) pv n cs :
  greedy p s pv n cs Some
  = Some {| prev := charBefore (runLen p s) pv s; rest := JS.drop (runLen p s) s;
            pos := n + runLen p s; caps := cs |}.
Proof.
  revert pv n. induction s as [|c s IH]; intros pv n; cbn [greedy runLen].
  - cbn. now rewrite Nat.add_0_r.
  - destruct (p c).
    + rewrite IH. cbn. do 2 f_equal. lia.
    + cbn. now rewrite Nat.add_0_r.
Qed.

Lemma implements_plus (p : ascii -> bool) (rep : string) :
  implements (plus (Chr p)) [Lit rep] (rulePlus p rep).
Proof.
  intros st Hcaps. unfold rulePlus, matchHere, plus.
  rewrite rmatch_seq, rmatch_chr.
  destruct (rest st) as [|c s'] eqn:Erest; [reflexivity|].
  destruct (p c) eqn:Epc; [|reflexivity].
  rewrite rmatch_star_chr. cbn [rest prev pos caps]. rewrite greedy_some.
  cbn [runLen]. rewrite Epc. split; [lia|].
  eexists. split; [reflexivity|]. cbn. repeat split; try lia.
  now rewrite append_nil_r.
Qed.

Lemma adv_0 (st : mstate) : adv 0 st = st.
Proof. destruct st as [pv s m cs]. unfold adv. cbn. rewrite Nat.add_0_r. now destruct s. Qed.

Lemma adv_S (n : nat) (pv : option ascii) (c : ascii) (s : string) (m : nat) cs :
  adv (S n) {| prev := pv; rest := String c s; pos := m; caps := cs |}
  = adv n {| prev := Some c; rest := s; pos := S m; caps := cs |}.
Proof. unfold adv. cbn. f_equal. lia. Qed.

Lemma drop_0 (s : string) : JS.drop 0 s = s.
Proof. now destruct s. Qed.

Lemma charBefore_0 (pv : option ascii) (s : string) : charBefore 0 pv s = pv.
Proof. now destruct s. Qed.

Lemma charBefore_add (n m : nat) (pv : option ascii) (s : string) :
  charBefore (n + m) pv s = charBefore m (charBefore n pv s) (JS.drop n s)
  \/ String.length s < n.
Proof.
  revert pv s. induction n as [|n IH]; intros pv s.
  - left. cbn [Nat.add]. now rewrite charBefore_0, drop_0.
  - destruct s as [|c s]; [right; cbn; lia|].
    cbn [Nat.add charBefore JS.drop]. destruct (IH (Some c) s); [now left|].
    right. cbn. lia.
Qed.

Lemma adv_adv (n m : nat) (st : mstate) :
  n <= String.length (rest st) -> adv m (adv n st) = adv (n + m) st.
Proof.
  intros Hn. unfold adv. cbn [prev rest pos caps]. f_equal.
  - destruct (charBefore_add n m (prev st) (rest st)) as [->|]; [reflexivity|lia].
  - apply drop_drop.
  - lia.
Qed.

Lemma rmatch_lit (p : string) (st : mstate) (k : mstate -> option mstate) :
  rmatch (lit p) st k
  = if JS.startsWith (rest st) p then k (adv (String.length p) st) else None.
Proof.
  revert st. induction p as [|a p IH]; intros st.
  - cbn [lit rmatch]. assert (H : JS.startsWith (rest st) "" = true) by now destruct (rest st).
    rewrite H. now rewrite adv_0.
  - cbn [lit]. rewrite rmatch_seq, rmatch_chr.
    destruct st as [pv s m cs]. cbn [rest prev pos caps].
    destruct s as [|c s]; [reflexivity|]. cbn [JS.startsWith].
    unfold isChar. destruct (Ascii.eqb a c); [|reflexivity]. cbn [andb].
    rewrite IH. cbn [rest String.length]. now rewrite adv_S.
Qed.

Lemma rmatch_group (i : nat) (r : regex) (st : mstate) (k : mstate -> option mstate) :
  rmatch (Group i r) st k
  = rmatch r st
      (fun st' =>
         k {| prev := prev st'; rest := rest st'; pos := pos st';
              caps := (i, JS.take (pos st' - pos st) (rest st)) :: caps st' |}).
Proof. reflexivity. Qed.

Lemma rmatch_alt (r1 r2 : regex) (st : mstate) (k : mstate -> option mstate) :
  rmatch (Alt r1 r2) st k = orElse (rmatch r1 st k) (rmatch r2 st k).
Proof. reflexivity. Qed.

Lemma rmatch_eps (st : mstate) (k : mstate -> option mstate) : rmatch Eps st k = k st.
Proof. reflexivity. Qed.

Lemma rmatch_bol (st : mstate) (k : mstate -> option mstate) :
  rmatch Bol st k = if atLineStart st then k st else None.
Proof. reflexivity. Qed.

Lemma rmatch_notahead (r : regex) (st : mstate) (k : mstate -> option mstate) :
  rmatch (NotAhead r) st k
  = match rmatch r st Some with Some _ => None | None => k st end.
Proof. reflexivity. Qed.

Lemma greedy_committed (p : ascii -> bool) (k : mstate -> option mstate) (s : string)
    pv n cs :
  committed p k ->
  greedy p s pv n cs k
  = k (adv (runLen p s) {| prev := pv; rest := s; pos := n; caps := cs |}).
Proof.
  intros Hk. revert pv n. induction s as [|c s IH]; intros pv n; cbn [greedy runLen].
  - now rewrite adv_0.
  - destruct (p c) eqn:Epc; [|now rewrite adv_0].
    rewrite IH, adv_S.
    destruct Hk as [Hk|Hk].
    + rewrite (Hk {| prev := pv; rest := String c s; pos := n; caps := cs |})
        by (cbn; exact Epc).
      now destruct (k _).
    + destruct (k (adv (runLen p s) _)) eqn:E; [reflexivity|]. now apply Hk in E.
Qed.

Lemma rmatch_star_committed (p : ascii -> bool) (st : mstate)
    (k : mstate -> option mstate) :
  committed p k ->
  rmatch (Star true (Chr p)) st k = k (adv (runLen p (rest st)) st).
Proof.
  intros Hk. rewrite rmatch_star_chr, greedy_committed by assumption.
  now destruct st.
Qed.

Lemma rmatch_plus_committed (p : ascii -> bool) (st : mstate)
    (k : mstate -> option mstate) :
  committed p k ->
  rmatch (plus (Chr p)) st k
  = if headSat p (rest st) then k (adv (runLen p (rest st)) st) else None.
Proof.
  intros Hk. unfold plus. rewrite rmatch_seq, rmatch_chr.
  destruct st as [pv s m cs]. cbn [rest prev pos caps].
  destruct s as [|c s]; [reflexivity|]. cbn [headSat runLen].
  destruct (p c); [|reflexivity].
  rewrite rmatch_star_committed by assumption. cbn [rest]. now rewrite adv_S.
Qed.

Lemma implements_blankLines :
  implements reBlankLines [Lit (JS.NL +:+ JS.NL)] ruleBlankLines.
Proof.
  intros [pv s m cs] Hcaps. cbn [caps prev rest] in *. subst cs.
  unfold ruleBlankLines, matchHere, reBlankLines, times.
  rewrite !rmatch_seq.
  destruct s as [|c1 s]; [reflexivity|].
  rewrite rmatch_chr; cbn [rest runLen]. destruct (isNl c1) eqn:E1; [|reflexivity].
  destruct s as [|c2 s]; [reflexivity|].
  rewrite rmatch_seq, rmatch_chr; cbn [rest runLen]. destruct (isNl c2) eqn:E2; [|reflexivity].
  destruct s as [|c3 s]; [reflexivity|].
  rewrite rmatch_seq, rmatch_chr; cbn [rest runLen]. destruct (isNl c3) eqn:E3; [|reflexivity].
  rewrite rmatch_eps, rmatch_star_chr, greedy_some. cbn [rest prev pos caps Nat.leb].
  split; [lia|]. finish_impl.
Qed.

Lemma implements_sentenceEnd :
  implements reSentenceEnd [Ref 1; Lit " "] ruleSentenceEnd.
Proof.
  intros [pv s m cs] Hcaps. cbn [caps prev rest] in *. subst cs.
  unfold ruleSentenceEnd, matchHere, reSentenceEnd.
  rewrite rmatch_seq, rmatch_group, rmatch_chr. cbn [rest].
  destruct s as [|c s]; [reflexivity|].
  change (oneOf ".!?" c) with (isPunct c).
  destruct (isPunct c) eqn:Ep; [|reflexivity]. cbn [andb].
  rewrite rmatch_notahead, rmatch_chr. cbn [rest pos prev caps].
  destruct s as [|c' s]; cbn [headSat negb].
  - split; [lia|]. finish_impl.
    replace (S m - m) with 1 by lia. reflexivity.
  - change (isChar (ascii_of_nat 34) c' || isChar (ascii_of_nat 39) c' || isChar "." c')
      with (isQD c').
    destruct (isQD c'); cbn [negb]; [reflexivity|].
    split; [lia|]. finish_impl.
    replace (S m - m) with 1 by lia. reflexivity.
Qed.

Lemma headSat_drop_runLen (p : ascii -> bool) (s : string) :
  headSat p (JS.drop (runLen p s) s) = false.
Proof.
  induction s as [|c s IH]; [reflexivity|]. cbn [runLen].
  destruct (p c) eqn:E; [exact IH|]. cbn. exact E.
Qed.

Lemma runLen_le (p : ascii -> bool) (s : string) : runLen p s <= String.length s.
Proof. induction s as [|c s IH]; cbn; [lia|]. destruct (p c); cbn; lia. Qed.

Lemma drop_S_drop (n : nat) (s : string) : JS.drop 1 (JS.drop n s) = JS.drop (S n) s.
Proof. rewrite drop_drop. f_equal. lia. Qed.

Lemma charBefore_S_drop (n : nat) (pv : option ascii) (s : string) (c : ascii) (s' : string) :
  JS.drop n s = String c s' -> charBefore (S n) pv s = Some c.
Proof.
  revert pv s. induction n as [|n IH]; intros pv s H.
  - rewrite drop_0 in H. subst s. reflexivity.
  - destruct s as [|a s]; [discriminate|]. cbn [JS.drop] in H. cbn [charBefore].
    now apply IH.
Qed.

Lemma charBefore_plus_drop (n w : nat) (pv : option ascii) (s : string) :
  n <= String.length s ->
  charBefore w (charBefore n pv s) (JS.drop n s) = charBefore (n + w) pv s.
Proof.
  intros H. destruct (charBefore_add n w pv s) as [->|]; [reflexivity|lia].
Qed.

Lemma implements_bullet : implements reBullet [Ref 1; Lit " "] ruleBullet.
Proof.
  intros [pv s m cs] Hcaps. cbn [caps prev rest] in *. subst cs.
  unfold ruleBullet, matchHere, reBullet. cbn [seqs].
  rewrite rmatch_seq, rmatch_bol. unfold atLineStart. cbn [prev].
  change (match pv with Some c => isLineTerminator c | None => true end)
    with (lineStart pv).
  destruct s as [|c s]; [now destruct (lineStart pv)|].
  destruct (lineStart pv); [|reflexivity]. cbn [andb].
  rewrite rmatch_seq, rmatch_group, rmatch_chr. cbn [rest].
  change (oneOf "*-" c) with (isBulletChar c).
  destruct (isBulletChar c); [|reflexivity].
  rewrite rmatch_star_chr, greedy_some. cbn [rest pos prev caps].
  split; [lia|]. finish_impl.
  replace (S m - m) with 1 by lia. reflexivity.
Qed.

Lemma implements_numbered : implements reNumbered [Ref 1; Lit ". "] ruleNumbered.
Proof.
  intros [pv s m cs] Hcaps. cbn [caps prev rest] in *. subst cs.
  unfold ruleNumbered, matchHere, reNumbered. cbn [seqs].
  rewrite rmatch_seq, rmatch_bol. unfold atLineStart. cbn [prev].
  change (match pv with Some c => isLineTerminator c | None => true end)
    with (lineStart pv).
  destruct (lineStart pv); [|reflexivity]. cbn [andb].
  rewrite rmatch_seq, rmatch_group.
  rewrite rmatch_plus_committed.
  2:{ left. intros st Hst. rewrite rmatch_seq, rmatch_chr. cbn [rest].
      destruct (rest st) as [|c r]; [reflexivity|]. cbn in Hst.
      unfold isChar. destruct (Ascii.eqb_spec "." c) as [<-|]; [discriminate|reflexivity]. }
  cbn [rest]. pose proof (runLen_le isDigit s) as Hle.
  destruct s as [|c0 s0] eqn:Es; [reflexivity|]. rewrite <- Es in *.
  assert (Hhead : headSat isDigit s = Nat.leb 1 (runLen isDigit s)).
  { rewrite Es. cbn. now destruct (isDigit c0). }
  rewrite Hhead. destruct (Nat.leb 1 (runLen isDigit s)) eqn:Ed; [|reflexivity].
  cbn [andb]. unfold adv. cbn [prev rest pos caps].
  rewrite rmatch_seq, rmatch_chr. cbn [rest].
  destruct (JS.drop (runLen isDigit s) s) as [|c1 s1] eqn:Edrop; [reflexivity|].
  cbn [headSat]. destruct (isChar "." c1) eqn:Edot; [|reflexivity].
  rewrite rmatch_group, rmatch_star_committed by (right; discriminate).
  unfold adv. cbn [rest pos prev caps].
  assert (Hdrop1 : JS.drop (S (runLen isDigit s)) s = s1).
  { rewrite <- drop_S_drop, Edrop. reflexivity. }
  rewrite Hdrop1.
  split; [lia|]. eexists. split; [reflexivity|]. cbn [pos rest prev caps].
  split; [lia|]. split.
  { rewrite <- Hdrop1. rewrite drop_drop. f_equal. }
  split.
  { rewrite <- (charBefore_plus_drop (S (runLen isDigit s)) _ pv s).
    - rewrite Hdrop1. f_equal. symmetry. eapply charBefore_S_drop; eauto.
    - assert (String.length (JS.drop (runLen isDigit s) s) = String.length s - runLen isDigit s)
        by apply length_drop.
      rewrite Edrop in H. cbn in H. lia. }
  cbn [expand capture Nat.eqb].
  replace (m + runLen isDigit s - m) with (runLen isDigit s) by lia.
  reflexivity.
Qed.

Lemma rmatch_upTo_committed (p : ascii -> bool) (k : mstate -> option mstate) (n : nat) :
  committed p k ->
  forall st, rmatch (upTo n (Chr p)) st k
             = k (adv (Nat.min n (runLen p (rest st))) st).
Proof.
  intros Hk. induction n as [|n IH]; intros st.
  - cbn [upTo Nat.min]. now rewrite rmatch_eps, adv_0.
  - cbn [upTo]. unfold opt. rewrite rmatch_alt, rmatch_seq, rmatch_chr, rmatch_eps.
    destruct st as [pv s m cs]. cbn [rest prev pos caps].
    destruct s as [|c s]; cbn [runLen].
    + rewrite Nat.min_0_r, adv_0. reflexivity.
    + destruct (p c) eqn:Epc.
      * rewrite IH. cbn [rest].
        replace (Nat.min (S n) (S (runLen p s))) with (S (Nat.min n (runLen p s))) by lia.
        rewrite adv_S.
        destruct Hk as [Hk|Hk].
        -- rewrite (Hk {| prev := pv; rest := String c s; pos := m; caps := cs |})
             by (cbn; exact Epc).
           now destruct (k _).
        -- destruct (k (adv _ _)) eqn:E; [reflexivity|]. now apply Hk in E.
      * rewrite Nat.min_0_r, adv_0. reflexivity.
Qed.

Lemma take_cons (n : nat) (a : ascii) (s : string) :
  JS.take (S n) (String a s) = String a (JS.take n s).
Proof. reflexivity. Qed.

Lemma take_S_drop (n : nat) (s : string) (c : ascii) (s' : string) :
  JS.drop n s = String c s' -> JS.take (S n) s = JS.take n s +:+ String c "".
Proof.
  revert s. induction n as [|n IH]; intros s H.
  - rewrite drop_0 in H. subst s. reflexivity.
  - destruct s as [|a s]; [discriminate|]. cbn [JS.drop] in H.
    rewrite (take_cons (S n)), (take_cons n), append_cons. now rewrite (IH s H).
Qed.

Lemma runLen_all (p : ascii -> bool) (s : string) (n : nat) :
  n <= runLen p s -> headSat p (JS.drop n s) = true \/ n = runLen p s.
Proof.
  revert n. induction s as [|c s IH]; intros n H; cbn [runLen] in *.
  - right. lia.
  - destruct (p c) eqn:E.
    + destruct n as [|n]; [left; exact E|]. cbn [JS.drop].
      destruct (IH n) as [?|?]; [lia|now left|right; lia].
    + right. lia.
Qed.

Lemma implements_heading : implements reHeading [Ref 1; Lit " "; Ref 2] ruleHeading.
Proof.
  intros [pv s m cs] Hcaps. cbn [caps prev rest] in *. subst cs.
  unfold ruleHeading, matchHere, reHeading. cbn [seqs].
  rewrite rmatch_seq, rmatch_bol. unfold atLineStart. cbn [prev].
  change (match pv with Some c => isLineTerminator c | None => true end)
    with (lineStart pv).
  destruct (lineStart pv); [|reflexivity]. cbn [andb].
  rewrite rmatch_seq, rmatch_group, rmatch_seq, rmatch_chr. cbn [rest].
  change (isChar "#") with isHash.
  destruct s as [|c s]; [reflexivity|]. cbn [runLen].
  destruct (isHash c) eqn:Ec; [|reflexivity].
  rewrite rmatch_upTo_committed.
  2:{ left. intros st Hst. rewrite rmatch_group, rmatch_chr. cbn [rest].
      destruct (rest st) as [|a r]; [reflexivity|]. cbn [headSat] in Hst.
      unfold notSpaceNotHash, notP, orP.
      change (isChar "#" a) with (isHash a). rewrite Hst.
      now rewrite orb_true_r. }
  unfold adv. cbn [rest pos prev caps].
  rewrite rmatch_group, rmatch_chr. cbn [rest pos prev caps Nat.leb].
  set (h := runLen isHash s).
  destruct (Nat.leb_spec (S h) 6) as [H6|H6].
  - assert (Hmin : Nat.min 5 h = h) by lia. rewrite Hmin.
    replace (Nat.leb h 5) with true by (symmetry; apply Nat.leb_le; lia).
    cbn [JS.drop andb]. change (notP (orP JS.isSpace isHash)) with notSpaceNotHash.
    destruct (JS.drop h s) as [|a r] eqn:Edrop; [reflexivity|]. cbn [headSat].
    destruct (notSpaceNotHash a) eqn:Ea; [|reflexivity].
    split; [lia|]. eexists. split; [reflexivity|]. cbn [pos rest prev caps].
    split; [lia|]. split.
    { change (JS.drop (S (S h)) (String c s)) with (JS.drop (S h) s).
      rewrite <- (drop_S_drop h s), Edrop. reflexivity. }
    split.
    { symmetry. apply (charBefore_S_drop (S h) pv (String c s) a r). exact Edrop. }
    cbn [expand capture Nat.eqb].
    replace (S (S m + h) - (S m + h)) with 1 by lia.
    replace (S m + h - m) with (S h) by lia.
    reflexivity.
  - assert (Hmin : Nat.min 5 h = 5) by lia. rewrite Hmin.
    replace (Nat.leb h 5) with false by (symmetry; apply Nat.leb_gt; lia).
    destruct (runLen_all isHash s 5) as [Hh|Hh]; [lia| |lia].
    cbn [andb]. change (notP (orP JS.isSpace isHash)) with notSpaceNotHash.
    destruct (JS.drop 5 s) as [|a r]; [reflexivity|]. cbn [headSat] in Hh.
    unfold notSpaceNotHash, notP, orP. change (isChar "#" a) with (isHash a).
    rewrite Hh, orb_true_r. reflexivity.
Qed.

Lemma startsWith_nil (s : string) : JS.startsWith s "" = true.
Proof. now destruct s. Qed.

Lemma startsWith_app (s x y : string) :
  JS.startsWith s (x +:+ y)
  = JS.startsWith s x && JS.startsWith (JS.drop (String.length x) s) y.
Proof.
  revert s. induction x as [|a x IH]; intros s.
  - rewrite append_nil_l, startsWith_nil, drop_0. reflexivity.
  - rewrite append_cons. destruct s as [|c s]; [reflexivity|].
    cbn [JS.startsWith String.length JS.drop]. rewrite IH.
    now rewrite andb_assoc.
Qed.

Lemma startsWith_length (s p : string) :
  JS.startsWith s p = true -> String.length p <= String.length s.
Proof.
  revert s. induction p as [|a p IH]; intros s H; [cbn; lia|].
  destruct s as [|c s]; [discriminate|]. cbn in *.
  apply andb_true_iff in H as [_ H]. apply IH in H. lia.
Qed.

Lemma implements_lit (pat rep : string) :
  0 < String.length pat -> implements (lit pat) [Lit rep] (ruleLit pat rep).
Proof.
  intros Hlen [pv s m cs] Hcaps. cbn [caps prev rest] in *. subst cs.
  unfold ruleLit, matchHere. rewrite rmatch_lit. cbn [rest].
  destruct (JS.startsWith s pat); [|reflexivity].
  split; [exact Hlen|]. eexists. split; [reflexivity|].
  unfold adv. cbn [pos rest prev caps expand]. repeat split.
  apply append_nil_r.
Qed.

Lemma implements_litOpt (a b rep : string) :
  implements (seqs [lit (a +:+ "."); opt (Chr (isChar Normalizer.sp)); lit b]) [Lit rep]
    (ruleLitOpt a b rep).
Proof.
  intros [pv s m cs] Hcaps. cbn [caps prev rest] in *. subst cs.
  unfold ruleLitOpt, matchHere. cbn [seqs]. unfold opt.
  rewrite rmatch_seq, rmatch_lit. cbn [rest].
  assert (E1 : a +:+ ". " +:+ b = (a +:+ ".") +:+ (" " +:+ b))
    by (now rewrite append_assoc).
  assert (E2 : a +:+ "." +:+ b = (a +:+ ".") +:+ b)
    by (now rewrite append_assoc).
  rewrite E1, E2. clear E1 E2.
  assert (Hn : 0 < String.length (a +:+ ".")) by (rewrite length_append; cbn; lia).
  generalize dependent (a +:+ "."). intros A Hn.
  rewrite (startsWith_app s A (" " +:+ b)), (startsWith_app s A b).
  destruct (JS.startsWith s A) eqn:Ea; [|reflexivity]. cbn [andb].
  pose proof (startsWith_length _ _ Ea) as Hlen.
  set (n := String.length A) in *.
  rewrite rmatch_seq, rmatch_alt, rmatch_chr, rmatch_eps, !rmatch_lit.
  unfold adv. cbn [rest pos prev caps].
  destruct (JS.drop n s) as [|c r] eqn:Edrop.
  - cbn [orElse]. destruct b as [|b0 b]; cbn [JS.startsWith]; [|reflexivity].
    split; [rewrite length_append; cbn; lia|]. eexists. split; [reflexivity|].
    unfold adv. cbn [pos rest prev caps expand String.length].
    rewrite !length_append. cbn [String.length]. fold n.
    rewrite !Nat.add_0_r. repeat split.
    + now rewrite Edrop.
    + apply append_nil_r.
  - change (" " +:+ b) with (String " " b). cbn [JS.startsWith].
    change (isChar Normalizer.sp c) with (Ascii.eqb " " c).
    destruct (Ascii.eqb " " c) eqn:Esp; cbn [andb].
    + rewrite rmatch_lit. unfold adv. cbn [rest pos prev caps].
      destruct (JS.startsWith r b) eqn:Eb; cbn [orElse].
      * split; [rewrite length_append; cbn; lia|]. eexists. split; [reflexivity|].
        cbn [pos rest prev caps expand].
        rewrite !length_append. cbn [String.length]. fold n.
        split; [lia|]. split.
        { rewrite <- (drop_drop _ n), Edrop.
          replace (S (String.length b)) with (1 + String.length b) by lia.
          rewrite <- drop_drop. reflexivity. }
        split.
        { rewrite <- (charBefore_plus_drop n _ pv s) by lia. rewrite Edrop. reflexivity. }
        apply append_nil_r.
      * apply Ascii.eqb_eq in Esp. subst c.
        change (match b with
                | "" => true
                | String a0 p' => (a0 =? " ")%char && JS.startsWith r p'
                end) with (JS.startsWith (String " " r) b).
        destruct (JS.startsWith (String " " r) b) eqn:Eb2; [|reflexivity].
        split; [rewrite length_append; lia|]. eexists. split; [reflexivity|].
        cbn [pos rest prev caps expand].
        rewrite !length_append. fold n.
        split; [lia|]. split.
        { rewrite <- (drop_drop _ n), Edrop. reflexivity. }
        split.
        { rewrite <- (charBefore_plus_drop n _ pv s) by lia. rewrite Edrop. reflexivity. }
        apply append_nil_r.
    + cbn [orElse].
      change (match b with
              | "" => true
              | String a0 p' => (a0 =? c)%char && JS.startsWith r p'
              end) with (JS.startsWith (String c r) b).
      destruct (JS.startsWith (String c r) b) eqn:Eb2; [|reflexivity].
      split; [rewrite length_append; lia|]. eexists. split; [reflexivity|].
      unfold adv. cbn [pos rest prev caps expand].
      rewrite !length_append. fold n.
      split; [lia|]. split.
      { rewrite <- (drop_drop _ n), Edrop. reflexivity. }
      split.
      { rewrite <- (charBefore_plus_drop n _ pv s) by lia. rewrite Edrop. reflexivity. }
      apply append_nil_r.
Qed.

Lemma rmatch_group_plus (p : ascii -> bool) (i : nat) (st : mstate)
    (k : mstate -> option mstate) :
  committed p k ->
  rmatch (Group i (plus (Chr p))) st k
  = if headSat p (rest st)
    then k (capAdd i (JS.take (runLen p (rest st)) (rest st))
              (adv (runLen p (rest st)) st))
    else None.
Proof.
  intros Hk. rewrite rmatch_group, rmatch_plus_committed.
  - destruct (headSat p (rest st)); [|reflexivity]. unfold adv, capAdd.
    cbn [prev rest pos caps].
    now replace (pos st + runLen p (rest st) - pos st) with (runLen p (rest st)) by lia.
  - destruct Hk as [Hk|Hk]; [left|right]; intros st'; [intros H|]; cbn [rest];
      [now apply Hk|apply Hk].
Qed.

Lemma headSat_runLen (p : ascii -> bool) (s : string) :
  headSat p s = Nat.leb 1 (runLen p s).
Proof. destruct s as [|c s]; [reflexivity|]. cbn. now destruct (p c). Qed.

Lemma committed_dot (k : mstate -> option mstate) :
  committed isDigit (fun st => rmatch (lit ". ") st k).
Proof.
  left. intros st H. rewrite rmatch_lit.
  destruct (rest st) as [|c r]; [discriminate|]. cbn [headSat] in H.
  cbn [JS.startsWith].
  destruct (Ascii.eqb_spec "."%char c) as [<-|]; [discriminate|reflexivity].
Qed.

Lemma adv_capAdd (n i : nat) (v : string) (st : mstate) :
  adv n (capAdd i v st) = capAdd i v (adv n st).
Proof. reflexivity. Qed.

Lemma implements_version :
  implements reVersion [Ref 1; Lit "."; Ref 2; Lit "."; Ref 3] ruleVersion.
Proof.
  intros [pv s m cs] Hcaps. cbn [caps prev rest] in *. subst cs.
  unfold ruleVersion, matchHere, reVersion. cbn [seqs].
  set (d1 := runLen isDigit s). set (s1 := JS.drop d1 s).
  set (s2 := JS.drop 2 s1). set (d2 := runLen isDigit s2).
  set (s3 := JS.drop d2 s2). set (s4 := JS.drop 2 s3).
  set (d3 := runLen isDigit s4).
  rewrite rmatch_seq, rmatch_group_plus.
  2:{ destruct (committed_dot (fun st' =>
        rmatch (Seq (Group 2 (plus (Chr isDigit)))
                    (Seq (lit ". ") (Group 3 (plus (Chr isDigit))))) st' Some))
        as [H|H]; [left|right]; intros st'; [intros Hh|];
        rewrite rmatch_seq; [now apply H|apply H]. }
  cbn [rest]. fold d1. rewrite headSat_runLen. fold d1.
  destruct (Nat.leb 1 d1) eqn:E1; [|reflexivity]. cbn [andb].
  rewrite rmatch_seq, rmatch_lit. rewrite adv_capAdd. cbn [rest capAdd adv].
  fold s1. destruct (JS.startsWith s1 ". ") eqn:Ea; [|reflexivity]. cbn [andb].
  rewrite rmatch_seq, rmatch_group_plus.
  2:{ destruct (committed_dot (fun st' => rmatch (Group 3 (plus (Chr isDigit))) st' Some))
        as [H|H]; [left|right]; intros st'; [intros Hh|];
        rewrite rmatch_seq; [now apply H|apply H]. }
  cbn [rest capAdd adv String.length]. fold s1; fold s2; fold d2. rewrite headSat_runLen. fold d2.
  destruct (Nat.leb 1 d2) eqn:E2; [|reflexivity]. cbn [andb].
  rewrite rmatch_seq, rmatch_lit. cbn [rest capAdd adv]. fold s1; fold s2; fold d2; fold s3.
  destruct (JS.startsWith s3 ". ") eqn:Eb; [|reflexivity]. cbn [andb].
  rewrite rmatch_group_plus by (right; discriminate).
  cbn [rest capAdd adv String.length]. fold s1; fold s2; fold d2; fold s3; fold s4; fold d3. rewrite headSat_runLen. fold d3.
  destruct (Nat.leb 1 d3) eqn:E3; [|reflexivity].
  apply Nat.leb_le in E1, E2, E3.
  pose proof (startsWith_length _ _ Ea) as La.
  pose proof (startsWith_length _ _ Eb) as Lb.
  cbn [String.length] in La, Lb.
  assert (L1 : String.length s1 = String.length s - d1) by apply length_drop.
  assert (L2 : String.length s2 = String.length s1 - 2) by apply length_drop.
  assert (L3 : String.length s3 = String.length s2 - d2) by apply length_drop.
  assert (L4 : String.length s4 = String.length s3 - 2) by apply length_drop.
  pose proof (runLen_le isDigit s2) as R2. fold d2 in R2.
  split; [lia|]. eexists. split; [reflexivity|].
  unfold adv, capAdd. cbn [pos rest prev caps].
  split; [lia|]. split.
  { rewrite !drop_drop. f_equal. lia. }
  split.
  { rewrite !drop_drop.
    rewrite (charBefore_plus_drop d1 2) by lia.
    rewrite (charBefore_plus_drop (d1 + 2) d2) by lia.
    rewrite (charBefore_plus_drop (d1 + 2 + d2) 2) by lia.
    rewrite (charBefore_plus_drop (d1 + 2 + d2 + 2) d3) by lia.
    reflexivity. }
  cbn [expand capture Nat.eqb].
  now rewrite append_nil_r.
Qed.

End RegexScan.

Section MachineFacts.
Import Normalizer Scanner Shaper.

Lemma emit_app (c : ascii) (a b : list tok) :
  emit c (a ++ b)%list = emit c a +:+ emit c b.
Proof.
  induction a as [|t a IH]; cbn [emit app].
  - now rewrite append_nil_l.
  - now rewrite append_cons, IH.
Qed.

Lemma classify_render (c : ascii) (t : tok) :
  classify (render c t) = tokClass (classify c) t.
Proof. now destruct t. Qed.

Lemma emit_after (c : ascii) (t : tok) (o : list tok) :
  emit c (map (after t) o) = emit (render c t) o.
Proof.
  induction o as [|t2 o IH]; [reflexivity|]. cbn [map emit]. rewrite IH.
  now destruct t, t2.
Qed.

Lemma steps_nil (M : machine) (q : state M) : steps M q "" = (q, "").
Proof. reflexivity. Qed.

Lemma steps_cons (M : machine) (q : state M) (c : ascii) (s : string) :
  steps M q (String c s)
  = (fst (steps M (fst (step M q (classify c))) s),
     emit c (snd (step M q (classify c)))
     +:+ snd (steps M (fst (step M q (classify c))) s)).
Proof.
  cbn [steps]. destruct (step M q (classify c)) as [q1 ts]. cbn [fst snd].
  now destruct (steps M q1 s).
Qed.

Lemma steps_app (M : machine) (q : state M) (a b : string) :
  steps M q (a +:+ b)
  = (fst (steps M (fst (steps M q a)) b),
     snd (steps M q a) +:+ snd (steps M (fst (steps M q a)) b)).
Proof.
  revert q. induction a as [|c a IH]; intros q.
  - rewrite append_nil_l, steps_nil. cbn [fst snd]. rewrite append_nil_l.
    now destruct (steps M q b).
  - rewrite append_cons, !steps_cons, IH. cbn [fst snd].
    now rewrite append_assoc.
Qed.

Lemma feed_cons (M : machine) (q : state M) (k : cclass) (t : tok) (ts : list tok) :
  feed M q k (t :: ts)
  = (fst (feed M (fst (step M q (tokClass k t))) k ts),
     (map (after t) (snd (step M q (tokClass k t)))
      ++ snd (feed M (fst (step M q (tokClass k t))) k ts))%list).
Proof.
  cbn [feed]. destruct (step M q (tokClass k t)) as [q1 o1]. cbn [fst snd].
  now destruct (feed M q1 k ts).
Qed.

Lemma steps_emit (M : machine) (q : state M) (c : ascii) (ts : list tok) :
  steps M q (emit c ts)
  = (fst (feed M q (classify c) ts), emit c (snd (feed M q (classify c) ts))).
Proof.
  revert q. induction ts as [|t ts IH]; intros q; [reflexivity|].
  cbn [emit]. rewrite steps_cons, feed_cons, IH, classify_render. cbn [fst snd].
  now rewrite emit_app, emit_after.
Qed.

Lemma step_comp (M1 M2 : machine) (q1 : state M1) (q2 : state M2) (k : cclass) :
  step (comp M1 M2) (q1, q2) k
  = ((fst (step M1 q1 k), fst (feed M2 q2 k (snd (step M1 q1 k)))),
     snd (feed M2 q2 k (snd (step M1 q1 k)))).
Proof.
  cbn [step comp fst snd]. destruct (step M1 q1 k) as [q1' ts]. cbn [fst snd].
  now destruct (feed M2 q2 k ts).
Qed.

Lemma steps_comp (M1 M2 : machine) (q1 : state M1) (q2 : state M2) (s : string) :
  steps (comp M1 M2) (q1, q2) s
  = ((fst (steps M1 q1 s), fst (steps M2 q2 (snd (steps M1 q1 s)))),
     snd (steps M2 q2 (snd (steps M1 q1 s)))).
Proof.
  revert q1 q2. induction s as [|c s IH]; intros q1 q2; [reflexivity|].
  rewrite steps_cons, step_comp. cbn [fst snd]. rewrite IH. cbn [fst snd].
  rewrite (steps_cons M1). cbn [fst snd]. rewrite steps_app, steps_emit.
  cbn [fst snd]. reflexivity.
Qed.

Lemma spaces_emit (n : nat) : spaces n = emit " " (repeat Spc n).
Proof. induction n as [|n IH]; [reflexivity|]. cbn. now rewrite IH. Qed.

Lemma emit_space (o : list tok) : emit " " o = spaces (length o).
Proof.
  induction o as [|t o IH]; [reflexivity|]. cbn. rewrite IH. now destruct t.
Qed.

Lemma spaces_add (a b : nat) : spaces (a + b) = spaces a +:+ spaces b.
Proof.
  induction a as [|a IH]; cbn [spaces Nat.add].
  - now rewrite append_nil_l.
  - now rewrite append_cons, IH.
Qed.

Lemma run_steps (M : machine) (q : state M) (s : string) :
  run M q s = snd (steps M q s) +:+ spaces (fin M (fst (steps M q s))).
Proof. unfold run. now destruct (steps M q s). Qed.

Lemma fin_comp (M1 M2 : machine) (q1 : state M1) (q2 : state M2) :
  fin (comp M1 M2) (q1, q2)
  = length (snd (feed M2 q2 K_sp (repeat Spc (fin M1 q1))))
    + fin M2 (fst (feed M2 q2 K_sp (repeat Spc (fin M1 q1)))).
Proof.
  cbn [fin comp fst snd].
  now destruct (feed M2 q2 K_sp (repeat Spc (fin M1 q1))).
Qed.

Lemma run_comp (M1 M2 : machine) (q1 : state M1) (q2 : state M2) (s : string) :
  run (comp M1 M2) (q1, q2) s = run M2 q2 (run M1 q1 s).
Proof.
  rewrite (run_steps (comp M1 M2)), steps_comp. cbn [fst snd].
  rewrite (run_steps M1), (run_steps M2), steps_app. cbn [fst snd].
  rewrite fin_comp, spaces_add.
  rewrite (spaces_emit (fin M1 (fst (steps M1 q1 s)))), steps_emit. cbn [fst snd].
  change (classify " ") with K_sp. rewrite emit_space.
  now rewrite !append_assoc.
Qed.

Lemma Sound_comp (M1 M2 : machine) : Sound M1 -> Sound M2 -> Sound (comp M1 M2).
Proof.
  intros H1 H2 [a1 a2] [b1 b2] H. cbn [same comp fst snd] in H.
  apply andb_true_iff in H as [Ha Hb]. f_equal; auto.
Qed.

Lemma lineState_eqb_eq (a b : lineState) : lineState_eqb a b = true -> a = b.
Proof.
  destruct a, b; cbn; try discriminate; try reflexivity.
  - intros H. apply Nat.eqb_eq in H. now subst.
  - intros H. apply Bool.eqb_prop in H. now subst.
Qed.

Lemma Sound_collapse (p : cclass -> bool) : Sound (collapse p).
Proof. intros a b H. now apply Bool.eqb_prop. Qed.

Lemma Sound_trimStart : Sound mTrimStart.
Proof. intros a b H. now apply Bool.eqb_prop. Qed.

Lemma Sound_sentenceEnd : Sound mSentenceEnd.
Proof. intros a b H. now apply Bool.eqb_prop. Qed.

Lemma Sound_blankLines : Sound mBlankLines.
Proof. intros a b H. now apply Nat.eqb_eq. Qed.

Lemma Sound_heading : Sound mHeading.
Proof. intros a b H. now apply lineState_eqb_eq. Qed.

Lemma Sound_gap first : Sound (mGap first).
Proof. intros a b H. now apply lineState_eqb_eq. Qed.

Lemma Sound_shape (h n : bool) : Sound (mShape h n).
Proof.
  unfold mShape, mLines, mSpacing.
  destruct h, n;
    repeat first [ apply Sound_comp | apply Sound_collapse | apply Sound_trimStart
                 | apply Sound_sentenceEnd | apply Sound_blankLines
                 | apply Sound_heading | apply Sound_gap ].
Qed.

Lemma allClasses_complete (k : cclass) : In k allClasses.
Proof. destruct k; cbn; tauto. Qed.

Lemma seen_In (M : machine) (q : state M) (qs : list (state M)) :
  Sound M -> seen M q qs = true -> In q qs.
Proof.
  intros HS H. apply existsb_exists in H as (x & Hin & Hx).
  apply HS in Hx. now subst.
Qed.

Lemma closed_Reach (M : machine) (qs : list (state M)) :
  Sound M -> closed M qs = true -> forall q, Reach M q -> In q qs.
Proof.
  intros HS H. apply andb_true_iff in H as [Hi Hc].
  induction 1 as [|q k Hq IH].
  - now apply seen_In.
  - rewrite forallb_forall in Hc. specialize (Hc q IH).
    rewrite forallb_forall in Hc. apply seen_In; [assumption|].
    apply Hc, allClasses_complete.
Qed.

Lemma Reach_steps (M : machine) (q : state M) (s : string) :
  Reach M q -> Reach M (fst (steps M q s)).
Proof.
  revert q. induction s as [|c s IH]; intros q H; [exact H|].
  rewrite steps_cons. cbn [fst]. apply IH. now constructor.
Qed.

End MachineFacts.

Section ClassFacts.
Import Normalizer Scanner Shaper.

Lemma allAscii_complete (c : ascii) : In c allAscii.
Proof.
  rewrite <- (ascii_nat_embedding c). apply in_map, in_seq.
  pose proof (nat_ascii_bounded c). lia.
Qed.

Lemma ascii_eq (f g : ascii -> bool) :
  forallb (fun c => Bool.eqb (f c) (g c)) allAscii = true -> forall c, f c = g c.
Proof.
  intros H c. rewrite forallb_forall in H.
  apply Bool.eqb_prop, H, allAscii_complete.
Qed.

Lemma isSpace_class c : JS.isSpace c = kSpace (classify c).
Proof. revert c. apply ascii_eq. vm_compute. reflexivity. Qed.

Lemma isBlank_class c : isBlank c = kBlank (classify c).
Proof. revert c. apply ascii_eq. vm_compute. reflexivity. Qed.

Lemma isNl_class c : isNl c = kNl (classify c).
Proof. revert c. apply ascii_eq. vm_compute. reflexivity. Qed.

Lemma isSpNotNl_class c : isSpNotNl c = kSpNotNl (classify c).
Proof. revert c. apply ascii_eq. vm_compute. reflexivity. Qed.

Lemma isLineTerminator_class c : Regex.isLineTerminator c = kLineEnd (classify c).
Proof. revert c. apply ascii_eq. vm_compute. reflexivity. Qed.

Lemma isPunct_class c : isPunct c = kPunct (classify c).
Proof. revert c. apply ascii_eq. vm_compute. reflexivity. Qed.

Lemma isQD_class c : isQD c = kQD (classify c).
Proof. revert c. apply ascii_eq. vm_compute. reflexivity. Qed.

Lemma isHash_class c : isHash c = kHash (classify c).
Proof. revert c. apply ascii_eq. vm_compute. reflexivity. Qed.

Lemma isBulletChar_class c : isBulletChar c = kBullet (classify c).
Proof. revert c. apply ascii_eq. vm_compute. reflexivity. Qed.

Lemma isDigit_class c : Regex.isDigit c = kDigit (classify c).
Proof. revert c. apply ascii_eq. vm_compute. reflexivity. Qed.

Lemma isDot_class c : Regex.isChar "." c = kDot (classify c).
Proof. revert c. apply ascii_eq. vm_compute. reflexivity. Qed.

Lemma notSpaceNotHash_class c :
  notSpaceNotHash c = negb (kSpace (classify c) || kHash (classify c)).
Proof. revert c. apply ascii_eq. vm_compute. reflexivity. Qed.

Lemma kNl_char c : kNl (classify c) = true -> c = JS.nl.
Proof.
  rewrite <- isNl_class. unfold isNl, Regex.isChar. intros H.
  apply Ascii.eqb_eq in H. now subst.
Qed.

Lemma kDot_char c : kDot (classify c) = true -> c = "."%char.
Proof.
  rewrite <- isDot_class. unfold Regex.isChar. intros H.
  apply Ascii.eqb_eq in H. now subst.
Qed.

End ClassFacts.

Section PassFacts.
Import Normalizer Scanner Shaper.

Lemma run_nil (M : machine) (q : state M) : run M q "" = spaces (fin M q).
Proof. reflexivity. Qed.

Lemma run_cons (M : machine) (q : state M) (c : ascii) (s : string) :
  run M q (String c s)
  = emit c (snd (step M q (classify c))) +:+ run M (fst (step M q (classify c))) s.
Proof.
  rewrite !run_steps, steps_cons. cbn [fst snd]. now rewrite append_assoc.
Qed.

Lemma length_drop_lt (n : nat) (c : ascii) (s : string) (fuel : nat) :
  String.length (String c s) < S fuel -> String.length (JS.drop n s) < fuel.
Proof. rewrite length_drop. cbn. lia. Qed.

(** ** Runs that become one space *)
Section Collapse.

Variables (pc : ascii -> bool) (p : cclass -> bool).

Hypothesis Hp : forall c, pc c = p (classify c).

Lemma collapse_skip (s : string) :
  run (collapse p) true s = run (collapse p) false (JS.drop (runLen pc s) s).
Proof.
  induction s as [|c s IH]; [reflexivity|].
  cbn [runLen]. rewrite Hp. destruct (p (classify c)) eqn:E.
  - cbn [JS.drop]. rewrite <- IH, run_cons. cbn [collapse step fst snd].
    rewrite E. cbn [fst snd emit]. now rewrite append_nil_l.
  - rewrite drop_0, !run_cons. cbn [collapse step fst snd]. now rewrite E.
Qed.

Lemma scan_collapse (fuel : nat) (pv : option ascii) (s : string) :
  String.length s < fuel ->
  scan (rulePlus pc " ") fuel pv s = run (collapse p) false s.
Proof.
  revert pv s. induction fuel as [|f IH]; intros pv s Hlen; [lia|].
  cbn [scan]. destruct s as [|c s]; [reflexivity|].
  unfold rulePlus at 1. rewrite run_cons. cbn [collapse step fst snd].
  rewrite Hp. destruct (p (classify c)) eqn:E; cbn [fst snd emit].
  - cbn [runLen]. rewrite Hp, E. cbn [JS.drop charBefore].
    rewrite IH by (eapply length_drop_lt; eassumption).
    now rewrite collapse_skip.
  - rewrite IH by (cbn in Hlen; lia). reflexivity.
Qed.

Lemma replaceAll_collapse (s : string) :
  Regex.replaceAll (Regex.plus (Regex.Chr pc)) [Regex.Lit " "] s = run (collapse p) false s.
Proof.
  rewrite (replaceAll_scan _ _ _ s (implements_plus pc " ")).
  apply scan_collapse. lia.
Qed.

End Collapse.

(** ** [trimStart] *)
Lemma run_trimStart_body (s : string) : run mTrimStart false s = s.
Proof.
  induction s as [|c s IH]; [reflexivity|].
  rewrite run_cons. cbn [mTrimStart step fst snd emit andb]. now rewrite IH.
Qed.

Lemma run_trimStart (s : string) : run mTrimStart true s = JS.trimStart s.
Proof.
  induction s as [|c s IH]; [reflexivity|].
  rewrite run_cons. cbn [mTrimStart step JS.trimStart andb].
  rewrite isSpace_class. destruct (kSpace (classify c)); cbn [fst snd emit].
  - now rewrite append_nil_l.
  - now rewrite run_trimStart_body.
Qed.

(** ** The space after a sentence end *)
Lemma run_sentenceEnd_pending (s : string) :
  run mSentenceEnd true s
  = (if headSat isQD s then "" else " ") +:+ run mSentenceEnd false s.
Proof.
  destruct s as [|c s]; [reflexivity|].
  rewrite !run_cons. cbn [mSentenceEnd step fst snd headSat andb].
  rewrite isQD_class. destruct (kQD (classify c)); cbn [negb emit render].
  - now rewrite append_nil_l.
  - reflexivity.
Qed.

Lemma scan_sentenceEnd (fuel : nat) (pv : option ascii) (s : string) :
  String.length s < fuel ->
  scan ruleSentenceEnd fuel pv s = run mSentenceEnd false s.
Proof.
  revert pv s. induction fuel as [|f IH]; intros pv s Hlen; [lia|].
  cbn [scan]. destruct s as [|c s]; [reflexivity|].
  unfold ruleSentenceEnd at 1. rewrite run_cons. cbn [mSentenceEnd step fst snd andb emit render].
  rewrite isPunct_class. destruct (kPunct (classify c)) eqn:E; cbn [andb].
  - rewrite run_sentenceEnd_pending.
    destruct (headSat isQD s) eqn:EQ; cbn [negb].
    + rewrite IH by (cbn in Hlen; lia). now rewrite append_nil_l.
    + cbn [JS.drop charBefore].
      rewrite IH by (cbn in Hlen; lia). reflexivity.
  - rewrite IH by (cbn in Hlen; lia). reflexivity.
Qed.

(** ** Blank lines *)
Lemma blankLines_skip (s : string) :
  run mBlankLines 2 s = run mBlankLines 0 (JS.drop (runLen isNl s) s).
Proof.
  induction s as [|c s IH]; [reflexivity|].
  cbn [runLen]. rewrite isNl_class. destruct (kNl (classify c)) eqn:E.
  - cbn [JS.drop]. rewrite <- IH, run_cons. cbn [mBlankLines step fst snd].
    rewrite E. cbn [Nat.ltb Nat.leb fst snd emit]. now rewrite append_nil_l.
  - rewrite drop_0, !run_cons. cbn [mBlankLines step fst snd]. now rewrite E.
Qed.

Lemma scan_blankLines (fuel : nat) (pv : option ascii) (s : string) (n : nat) :
  String.length s < fuel -> n = 0 \/ n + runLen isNl s <= 2 ->
  scan ruleBlankLines fuel pv s = run mBlankLines n s.
Proof.
  revert pv s n. induction fuel as [|f IH]; intros pv s n Hlen Hn; [lia|].
  cbn [scan]. destruct s as [|c s]; [reflexivity|].
  unfold ruleBlankLines at 1. rewrite run_cons. cbn [mBlankLines step fst snd].
  cbn [runLen] in *. rewrite isNl_class in *.
  destruct (kNl (classify c)) eqn:E.
  - pose proof (kNl_char c E) as ->.
    destruct (Nat.leb 3 (S (runLen isNl s))) eqn:E3.
    + apply Nat.leb_le in E3. assert (n = 0) by lia. subst n.
      cbn [Nat.ltb Nat.leb fst snd emit render JS.drop].
      destruct s as [|c2 s]; [cbn in E3; lia|].
      cbn [runLen] in *. rewrite isNl_class in *.
      destruct (kNl (classify c2)) eqn:E2; [|lia].
      pose proof (kNl_char c2 E2) as ->.
      cbn [JS.drop]. rewrite run_cons. cbn [mBlankLines step fst snd].
      rewrite E2. cbn [Nat.ltb Nat.leb fst snd emit render].
      rewrite blankLines_skip.
      rewrite (IH _ _ 0); [reflexivity| |now left].
      rewrite length_drop. cbn in Hlen. lia.
    + apply Nat.leb_gt in E3.
      replace (Nat.ltb n 2) with true by (symmetry; apply Nat.ltb_lt; lia).
      cbn [fst snd emit render].
      rewrite (IH _ _ (S n)); [reflexivity|cbn in Hlen; lia|right; lia].
  - cbn [Nat.leb fst snd emit render].
    rewrite (IH _ _ 0); [reflexivity|cbn in Hlen; lia|now left].
Qed.

Lemma lineStateOf_some (c : ascii) : lineStateOf (Some c) = lineNext (classify c).
Proof. unfold lineStateOf, lineNext, lineStart. now rewrite isLineTerminator_class. Qed.

Lemma lineNext_notSpace (k : cclass) : kSpace k = false -> lineNext k = L_mid.
Proof. now destruct k. Qed.

(** *** Headings *)
Lemma heading_hit (n : nat) (s : string) (x : ascii) (rest : string) :
  1 <= n -> n + runLen isHash s <= 6 ->
  JS.drop (runLen isHash s) s = String x rest -> notSpaceNotHash x = true ->
  run mHeading (L_run n) s
  = JS.take (runLen isHash s) s +:+ String " " (String x (run mHeading L_mid rest)).
Proof.
  revert n. induction s as [|c s IH]; intros n Hn H6 Hd Hx; [discriminate|].
  cbn [runLen] in *. rewrite isHash_class in *. rewrite run_cons.
  destruct (kHash (classify c)) eqn:E.
  - assert (K : classify c = K_hash) by (destruct (classify c); now try discriminate).
    rewrite K. cbn [mHeading step fst snd emit render].
    replace (Nat.ltb n 6) with true by (symmetry; apply Nat.ltb_lt; lia).
    cbn [JS.drop] in Hd. rewrite (IH (S n)); try assumption; try lia.
    rewrite take_cons. now rewrite !append_cons, append_nil_l.
  - rewrite drop_0 in Hd. injection Hd as -> ->.
    rewrite notSpaceNotHash_class in Hx. rewrite E in Hx.
    destruct (kSpace (classify x)) eqn:Es; [discriminate|].
    cbn [JS.take]. rewrite append_nil_l.
    destruct (classify x); try discriminate; reflexivity.
Qed.

Lemma heading_miss (n : nat) (s : string) :
  1 <= n <= 6 ->
  6 < n + runLen isHash s
  \/ headSat notSpaceNotHash (JS.drop (runLen isHash s) s) = false ->
  run mHeading (L_run n) s = run mHeading L_mid s.
Proof.
  revert n. induction s as [|c s IH]; intros n Hn H; [reflexivity|].
  cbn [runLen] in *. rewrite isHash_class in *. rewrite !run_cons.
  destruct (kHash (classify c)) eqn:E.
  - assert (K : classify c = K_hash) by (destruct (classify c); now try discriminate).
    rewrite K. cbn [mHeading step fst snd emit render lineNext kLineEnd].
    destruct (Nat.ltb n 6) eqn:E6; [|reflexivity].
    apply Nat.ltb_lt in E6. cbn [JS.drop] in H.
    rewrite (IH (S n)); [reflexivity|lia|].
    destruct H as [H|H]; [left; lia|now right].
  - destruct H as [H|H]; [lia|]. rewrite drop_0 in H. cbn [headSat] in H.
    rewrite notSpaceNotHash_class, E in H.
    destruct (classify c); try discriminate; reflexivity.
Qed.

Lemma scan_heading (fuel : nat) (pv : option ascii) (s : string) :
  String.length s < fuel ->
  scan ruleHeading fuel pv s = run mHeading (lineStateOf pv) s.
Proof.
  revert pv s. induction fuel as [|f IH]; intros pv s Hlen; [lia|].
  cbn [scan]. destruct s as [|c s];
    [unfold ruleHeading, lineStateOf; now destruct (lineStart pv)|].
  unfold ruleHeading at 1, lineStateOf.
  destruct (lineStart pv) eqn:Els; cbn [andb].
  2:{ rewrite IH by (cbn in Hlen; lia). rewrite run_cons, lineStateOf_some.
      reflexivity. }
  cbn [runLen]. rewrite isHash_class.
  destruct (kHash (classify c)) eqn:E.
  - assert (K : classify c = K_hash) by (destruct (classify c); now try discriminate).
    set (h := runLen isHash s).
    destruct (Nat.leb 1 (S h) && Nat.leb (S h) 6
              && headSat notSpaceNotHash (JS.drop (S h) (String c s))) eqn:Ec.
    + apply andb_true_iff in Ec as [Ec Hx]. apply andb_true_iff in Ec as [_ H6].
      apply Nat.leb_le in H6.
      change (JS.drop (S h) (String c s)) with (JS.drop h s) in Hx |- *.
      change (JS.drop (S (S h)) (String c s)) with (JS.drop (S h) s).
      destruct (JS.drop h s) as [|x rest] eqn:Ed; [discriminate|].
      cbn [headSat] in Hx.
      rewrite run_cons, K. cbn [mHeading step fst snd emit render].
      rewrite (heading_hit 1 s x rest); try assumption; try lia.
      fold h. rewrite take_cons.
      assert (Hcb : charBefore (S (S h)) pv (String c s) = Some x).
      { cbn [charBefore]. exact (charBefore_S_drop h (Some c) s x rest Ed). }
      rewrite Hcb.
      replace (JS.drop (S h) s) with rest
        by (rewrite <- drop_S_drop, Ed; reflexivity).
      rewrite IH.
      2:{ pose proof (length_drop h s) as Hl. rewrite Ed in Hl. cbn in Hl, Hlen. lia. }
      rewrite lineStateOf_some, lineNext_notSpace.
      2:{ rewrite notSpaceNotHash_class in Hx.
          destruct (kSpace (classify x)); [discriminate|reflexivity]. }
      cbn [JS.take]. rewrite !append_cons, !append_nil_l, append_assoc.
      now rewrite !append_cons, append_nil_l.
    + rewrite IH by (cbn in Hlen; lia). rewrite lineStateOf_some.
      rewrite run_cons, K. cbn [mHeading step fst snd emit render lineNext kLineEnd].
      rewrite (heading_miss 1 s); [reflexivity|lia|].
      fold h. change (JS.drop (S h) (String c s)) with (JS.drop h s) in Ec.
      change (Nat.leb 1 (S h)) with true in Ec. cbn [andb] in Ec.
      destruct (Nat.leb (S h) 6) eqn:E6.
      * right. exact Ec.
      * left. apply Nat.leb_gt in E6. lia.
  - cbn [Nat.leb andb]. rewrite IH by (cbn in Hlen; lia).
    rewrite lineStateOf_some, run_cons.
    destruct (classify c); try discriminate; reflexivity.
Qed.

(** *** List items *)
Section Gap.

Variable first : lineState -> cclass -> lineState * list tok.

Hypothesis first_mid : forall k, first L_mid k = (lineNext k, [Echo]).

Lemma gap_eat (s : string) (c0 : ascii) :
  run (mGap first) (L_gap (Regex.isLineTerminator c0)) s
  = run (mGap first)
      (lineStateOf (charBefore (runLen JS.isSpace s) (Some c0) s))
      (JS.drop (runLen JS.isSpace s) s).
Proof.
  revert c0. induction s as [|c s IH]; intros c0.
  - cbn [runLen charBefore JS.drop]. unfold lineStateOf, lineStart.
    now destruct (Regex.isLineTerminator c0).
  - cbn [runLen]. rewrite isSpace_class.
    destruct (kSpace (classify c)) eqn:E.
    + cbn [charBefore JS.drop]. rewrite <- IH, run_cons.
      cbn [mGap step gapStep fst snd]. rewrite E. cbn [fst snd emit].
      now rewrite append_nil_l, isLineTerminator_class.
    + cbn [charBefore JS.drop]. rewrite !run_cons. unfold lineStateOf, lineStart.
      cbn [mGap step gapStep fst snd]. rewrite E.
      destruct (Regex.isLineTerminator c0); [reflexivity|].
      change (gapStep first L_mid (classify c)) with (first L_mid (classify c)).
      rewrite first_mid, (lineNext_notSpace _ E). reflexivity.
Qed.

Lemma gap0_eat (s : string) (c0 : ascii) :
  Regex.isLineTerminator c0 = false ->
  run (mGap first) L_gap0 s
  = String " " (run (mGap first)
                  (lineStateOf (charBefore (runLen JS.isSpace s) (Some c0) s))
                  (JS.drop (runLen JS.isSpace s) s)).
Proof.
  intros Hc0. destruct s as [|c s].
  - cbn [runLen charBefore JS.drop]. unfold lineStateOf, lineStart. now rewrite Hc0.
  - cbn [runLen]. rewrite isSpace_class, run_cons.
    cbn [mGap step gapStep fst snd].
    destruct (kSpace (classify c)) eqn:E; cbn [fst snd emit render].
    + cbn [charBefore JS.drop]. rewrite <- gap_eat, <- isLineTerminator_class.
      now rewrite append_cons, append_nil_l.
    + cbn [charBefore JS.drop]. unfold lineStateOf, lineStart. rewrite Hc0.
      rewrite run_cons. cbn [mGap step fst snd].
      change (gapStep first L_mid (classify c)) with (first L_mid (classify c)).
      rewrite first_mid, (lineNext_notSpace _ E). cbn [fst snd emit render].
      now rewrite !append_cons, !append_nil_l.
Qed.

End Gap.

Lemma numberedFirst_mid (k : cclass) : numberedFirst L_mid k = (lineNext k, [Echo]).
Proof. reflexivity. Qed.

Lemma bulletFirst_mid (k : cclass) : bulletFirst L_mid k = (lineNext k, [Echo]).
Proof. reflexivity. Qed.

Lemma numbered_hit (n : nat) (s : string) :
  headSat (Regex.isChar ".") (JS.drop (runLen Regex.isDigit s) s) = true ->
  run mNumbered (L_run n) s
  = JS.take (runLen Regex.isDigit s) s
    +:+ String "." (run mNumbered L_gap0 (JS.drop (S (runLen Regex.isDigit s)) s)).
Proof.
  revert n. induction s as [|c s IH]; intros n H; [discriminate|].
  cbn [runLen] in *. rewrite isDigit_class in *. rewrite run_cons.
  destruct (kDigit (classify c)) eqn:E.
  - assert (K : classify c = K_digit) by (destruct (classify c); now try discriminate).
    rewrite K. cbn [mNumbered mGap step gapStep numberedFirst fst snd emit render].
    change (JS.drop (S (runLen Regex.isDigit s)) (String c s))
      with (JS.drop (runLen Regex.isDigit s) s) in H.
    rewrite (IH 0 H), take_cons.
    change (JS.drop (S (S (runLen Regex.isDigit s))) (String c s))
      with (JS.drop (S (runLen Regex.isDigit s)) s).
    now rewrite !append_cons, append_nil_l.
  - rewrite drop_0 in H. cbn [headSat] in H. rewrite isDot_class in H.
    pose proof (kDot_char c H) as ->. cbn [JS.take JS.drop]. rewrite append_nil_l.
    reflexivity.
Qed.

Lemma numbered_miss (n : nat) (s : string) :
  headSat (Regex.isChar ".") (JS.drop (runLen Regex.isDigit s) s) = false ->
  run mNumbered (L_run n) s = run mNumbered L_mid s.
Proof.
  revert n. induction s as [|c s IH]; intros n H; [reflexivity|].
  cbn [runLen] in *. rewrite isDigit_class in *. rewrite !run_cons.
  destruct (kDigit (classify c)) eqn:E.
  - assert (K : classify c = K_digit) by (destruct (classify c); now try discriminate).
    rewrite K. cbn [mNumbered mGap step gapStep numberedFirst fst snd emit render
                    lineNext kLineEnd].
    change (JS.drop (S (runLen Regex.isDigit s)) (String c s))
      with (JS.drop (runLen Regex.isDigit s) s) in H.
    now rewrite (IH 0 H).
  - rewrite drop_0 in H. cbn [headSat] in H. rewrite isDot_class in H.
    destruct (classify c); try discriminate; reflexivity.
Qed.

Lemma scan_numbered (fuel : nat) (pv : option ascii) (s : string) :
  String.length s < fuel ->
  scan ruleNumbered fuel pv s = run mNumbered (lineStateOf pv) s.
Proof.
  revert pv s. induction fuel as [|f IH]; intros pv s Hlen; [lia|].
  cbn [scan]. destruct s as [|c s];
    [unfold ruleNumbered, lineStateOf; now destruct (lineStart pv)|].
  unfold ruleNumbered at 1, lineStateOf.
  destruct (lineStart pv) eqn:Els; cbn [andb].
  2:{ rewrite IH by (cbn in Hlen; lia). rewrite run_cons, lineStateOf_some.
      reflexivity. }
  cbn [runLen]. rewrite isDigit_class.
  destruct (kDigit (classify c)) eqn:E.
  - assert (K : classify c = K_digit) by (destruct (classify c); now try discriminate).
    set (d := runLen Regex.isDigit s).
    change (Nat.leb 1 (S d)) with true. cbn [andb].
    change (JS.drop (S d) (String c s)) with (JS.drop d s).
    change (JS.drop (S (S d)) (String c s)) with (JS.drop (S d) s).
    rewrite run_cons, K.
    cbn [mNumbered mGap step gapStep numberedFirst fst snd emit render].
    destruct (headSat (Regex.isChar ".") (JS.drop d s)) eqn:Eh.
    + fold mNumbered. rewrite (numbered_hit 0 s Eh). fold d.
      rewrite (gap0_eat numberedFirst numberedFirst_mid _ "."%char eq_refl).
      set (t := JS.drop (S d) s). set (w := runLen JS.isSpace t).
      destruct (JS.drop d s) as [|x rest] eqn:Ed; [discriminate|].
      cbn [headSat] in Eh. rewrite isDot_class in Eh.
      pose proof (kDot_char x Eh) as ->.
      assert (Hd : d < String.length s).
      { pose proof (length_drop d s) as Hl. rewrite Ed in Hl. cbn in Hl. lia. }
      assert (Hcb : charBefore (S (S d) + w) pv (String c s)
                    = charBefore w (Some "."%char) t).
      { rewrite <- (charBefore_plus_drop (S (S d)) w) by (cbn; lia).
        f_equal. cbn [charBefore]. exact (charBefore_S_drop d (Some c) s _ rest Ed). }
      rewrite Hcb.
      replace (JS.drop (S (S d) + w) (String c s)) with (JS.drop w t)
        by (unfold t; rewrite drop_drop; cbn [JS.drop Nat.add]; f_equal; lia).
      rewrite IH.
      2:{ rewrite length_drop. unfold t. rewrite length_drop. cbn in Hlen. lia. }
      rewrite take_cons.
      rewrite !append_cons, !append_nil_l, append_assoc.
      now rewrite !append_cons, append_nil_l.
    + fold mNumbered. rewrite (numbered_miss 0 s Eh).
      rewrite IH by (cbn in Hlen; lia). rewrite lineStateOf_some, K. reflexivity.
  - cbn [Nat.leb andb]. rewrite IH by (cbn in Hlen; lia).
    rewrite lineStateOf_some, run_cons.
    destruct (classify c); try discriminate; reflexivity.
Qed.

Lemma scan_bullet (fuel : nat) (pv : option ascii) (s : string) :
  String.length s < fuel ->
  scan ruleBullet fuel pv s = run mBullet (lineStateOf pv) s.
Proof.
  revert pv s. induction fuel as [|f IH]; intros pv s Hlen; [lia|].
  cbn [scan]. destruct s as [|c s];
    [unfold lineStateOf; now destruct (lineStart pv)|].
  unfold ruleBullet at 1, lineStateOf.
  destruct (lineStart pv) eqn:Els; cbn [andb].
  2:{ rewrite IH by (cbn in Hlen; lia). rewrite run_cons, lineStateOf_some.
      reflexivity. }
  rewrite isBulletChar_class.
  destruct (kBullet (classify c)) eqn:E.
  - assert (K : classify c = K_bullet) by (destruct (classify c); now try discriminate).
    rewrite run_cons, K.
    cbn [mBullet mGap step gapStep bulletFirst fst snd emit render].
    fold mBullet.
    assert (Hlt : Regex.isLineTerminator c = false)
      by (rewrite isLineTerminator_class, K; reflexivity).
    change (run mBullet L_gap0 s) with (run (mGap bulletFirst) L_gap0 s).
    rewrite (gap0_eat bulletFirst bulletFirst_mid s c Hlt). fold mBullet.
    change (charBefore (S (runLen JS.isSpace s)) pv (String c s))
      with (charBefore (runLen JS.isSpace s) (Some c) s).
    change (JS.drop (S (runLen JS.isSpace s)) (String c s))
      with (JS.drop (runLen JS.isSpace s) s).
    rewrite IH by (rewrite length_drop; cbn in Hlen; lia).
    now rewrite !append_cons, !append_nil_l.
  - rewrite IH by (cbn in Hlen; lia).
    rewrite lineStateOf_some, run_cons.
    destruct (classify c); try discriminate; reflexivity.
Qed.

End PassFacts.

Section TrimEndFacts.
Import Normalizer Scanner Shaper.

Lemma allSpace_app (a b : string) :
  allSpace (a +:+ b) = allSpace a && allSpace b.
Proof.
  induction a as [|c a IH]; [now rewrite append_nil_l|].
  rewrite append_cons. cbn [allSpace]. now rewrite IH, andb_assoc.
Qed.

Lemma allSpace_spaces (n : nat) : allSpace (spaces n) = true.
Proof. induction n; [reflexivity|exact IHn]. Qed.

Lemma trimEnd_allSpace (w : string) : allSpace w = true -> JS.trimEnd w = "".
Proof.
  induction w as [|c w IH]; [reflexivity|]. cbn [allSpace JS.trimEnd].
  intros H. apply andb_true_iff in H as [Hc Hw]. now rewrite (IH Hw), Hc.
Qed.

Lemma trimEnd_app_space (a w : string) :
  allSpace w = true -> JS.trimEnd (a +:+ w) = JS.trimEnd a.
Proof.
  intros Hw. induction a as [|c a IH].
  - rewrite append_nil_l. now apply trimEnd_allSpace.
  - rewrite append_cons. cbn [JS.trimEnd]. now rewrite IH.
Qed.

Lemma trimEnd_split (s : string) :
  exists w, allSpace w = true /\ s = JS.trimEnd s +:+ w.
Proof.
  induction s as [|c s (w & Hw & Hs)]; [now exists ""|].
  cbn [JS.trimEnd]. destruct (JS.trimEnd s) as [|d t] eqn:E.
  - destruct (JS.isSpace c) eqn:Ec.
    + exists (String c s). split; [|now rewrite append_nil_l].
      cbn [allSpace]. rewrite Ec. rewrite append_nil_l in Hs. now subst w.
    + exists w. split; [assumption|]. rewrite append_nil_l in Hs. subst w.
      now rewrite append_cons, append_nil_l.
  - exists w. split; [assumption|]. rewrite append_cons. now rewrite <- Hs.
Qed.

Lemma emit_allSpace (c : ascii) (ts : list tok) :
  JS.isSpace c = true -> allSpace (emit c ts) = true.
Proof.
  intros Hc. induction ts as [|t ts IH]; [reflexivity|].
  cbn [emit allSpace]. rewrite IH. now destruct t; cbn [render]; rewrite ?Hc.
Qed.

Lemma steps_allSpace (M : machine) (q : state M) (w : string) :
  allSpace w = true -> allSpace (snd (steps M q w)) = true.
Proof.
  revert q. induction w as [|c w IH]; intros q H; [reflexivity|].
  cbn [allSpace] in H. apply andb_true_iff in H as [Hc Hw].
  rewrite steps_cons. cbn [snd]. rewrite allSpace_app, (IH _ Hw).
  now rewrite (emit_allSpace _ _ Hc).
Qed.

Lemma run_app_space (M : machine) (q : state M) (a w : string) :
  allSpace w = true ->
  JS.trimEnd (run M q (a +:+ w)) = JS.trimEnd (snd (steps M q a)).
Proof.
  intros Hw. rewrite run_steps, steps_app. cbn [fst snd].
  rewrite append_assoc. apply trimEnd_app_space.
  now rewrite allSpace_app, steps_allSpace, allSpace_spaces.
Qed.

Lemma trimEnd_run (M : machine) (q : state M) (a : string) :
  JS.trimEnd (run M q a) = JS.trimEnd (snd (steps M q a)).
Proof. rewrite <- (run_app_space M q a "" eq_refl). now rewrite append_nil_r. Qed.

(** The white space at the end of the input does not matter. *)
Lemma trimEnd_run_trimEnd (M : machine) (q : state M) (s : string) :
  JS.trimEnd (run M q (JS.trimEnd s)) = JS.trimEnd (run M q s).
Proof.
  destruct (trimEnd_split s) as (w & Hw & Hs).
  rewrite Hs at 2. rewrite run_app_space by assumption. apply trimEnd_run.
Qed.

End TrimEndFacts.

Section ShapeFacts.
Import Normalizer Scanner Shaper.

Lemma replaceAll_blanks (s : string) :
  Regex.replaceAll reBlanks [Regex.Lit " "] s = run mBlanks false s.
Proof. exact (replaceAll_collapse isBlank kBlank isBlank_class s). Qed.

Lemma replaceAll_newlines (s : string) :
  Regex.replaceAll reNewlines [Regex.Lit " "] s = run mNewlines false s.
Proof. exact (replaceAll_collapse isNl kNl isNl_class s). Qed.

Lemma replaceAll_spaces (s : string) :
  Regex.replaceAll reSpaces [Regex.Lit " "] s = run mSpaces false s.
Proof. exact (replaceAll_collapse JS.isSpace kSpace isSpace_class s). Qed.

Lemma replaceAll_spacesNotNl (s : string) :
  Regex.replaceAll reSpacesNotNl [Regex.Lit " "] s = run mSpacesNotNl false s.
Proof. exact (replaceAll_collapse isSpNotNl kSpNotNl isSpNotNl_class s). Qed.

Lemma replaceAll_sentenceEnd (s : string) :
  Regex.replaceAll reSentenceEnd [Regex.Ref 1; Regex.Lit " "] s
  = run mSentenceEnd false s.
Proof.
  rewrite (replaceAll_scan _ _ _ s implements_sentenceEnd).
  apply scan_sentenceEnd. lia.
Qed.

Lemma replaceAll_blankLines (s : string) :
  Regex.replaceAll reBlankLines [Regex.Lit (JS.NL +:+ JS.NL)] s = run mBlankLines 0 s.
Proof.
  rewrite (replaceAll_scan _ _ _ s implements_blankLines).
  apply scan_blankLines; [lia|now left].
Qed.

Lemma replaceAll_heading (s : string) :
  Regex.replaceAll reHeading [Regex.Ref 1; Regex.Lit " "; Regex.Ref 2] s
  = run mHeading L_start s.
Proof.
  rewrite (replaceAll_scan _ _ _ s implements_heading).
  apply (scan_heading _ None). lia.
Qed.

Lemma replaceAll_numbered (s : string) :
  Regex.replaceAll reNumbered [Regex.Ref 1; Regex.Lit ". "] s = run mNumbered L_start s.
Proof.
  rewrite (replaceAll_scan _ _ _ s implements_numbered).
  apply (scan_numbered _ None). lia.
Qed.

Lemma replaceAll_bullet (s : string) :
  Regex.replaceAll reBullet [Regex.Ref 1; Regex.Lit " "] s = run mBullet L_start s.
Proof.
  rewrite (replaceAll_scan _ _ _ s implements_bullet).
  apply (scan_bullet _ None). lia.
Qed.

Lemma run_comp_init (M1 M2 : machine) (s : string) :
  run (comp M1 M2) (init (comp M1 M2)) s = run M2 (init M2) (run M1 (init M1) s).
Proof. apply run_comp. Qed.

(** [processText] is the transducer of its options, a [trimEnd] and the
    technical terms. *)
Lemma processText_shape (x : string) (o : TextProcessingOptions) :
  processText x o
  = fixTechnicalTerms (shape (preserveMarkdownHeadings o) (preserveNewlines o) x).
Proof.
  unfold processText, normalizeLists, shape, mShape.
  rewrite (run_comp_init mBlanks), (run_comp_init mTrimStart).
  rewrite <- trimEnd_run_trimEnd.
  rewrite replaceAll_blanks, !replaceAll_sentenceEnd.
  unfold JS.trim. rewrite <- !run_trimStart.
  unfold mLines, mSpacing.
  destruct (preserveMarkdownHeadings o), (preserveNewlines o); cbn [negb];
    rewrite !run_comp_init, ?replaceAll_heading, ?replaceAll_numbered,
      ?replaceAll_bullet, ?replaceAll_blankLines, ?replaceAll_newlines,
      ?replaceAll_spaces, ?replaceAll_spacesNotNl;
    reflexivity.
Qed.

End ShapeFacts.

Section EchoFacts.
Import Normalizer Scanner Shaper.

Lemma classify_sp (c : ascii) : classify c = K_sp -> c = " "%char.
Proof.
  intros H.
  assert (E : forall c, match classify c with K_sp => Ascii.eqb c " " | _ => true end = true).
  { intros d.
    apply (ascii_eq (fun c => match classify c with K_sp => Ascii.eqb c " " | _ => true end)
                    (fun _ => true)).
    vm_compute. reflexivity. }
  specialize (E c). rewrite H in E. now apply Ascii.eqb_eq in E.
Qed.

Lemma isEcho_emit (c : ascii) (ts : list tok) :
  isEcho (classify c) ts = true -> emit c ts = String c "".
Proof.
  destruct ts as [|[] [|? ?]]; try discriminate; [reflexivity|].
  cbn [isEcho emit render]. intros H.
  destruct (classify c) eqn:K; try discriminate. now rewrite (classify_sp c K).
Qed.

Lemma echoes_cons (M : machine) (q : state M) (c : ascii) (s : string) :
  echoes M q (String c s)
  = if isEcho (classify c) (snd (step M q (classify c)))
    then echoes M (fst (step M q (classify c))) s else None.
Proof. cbn [echoes]. now destruct (step M q (classify c)). Qed.

Lemma echoes_steps (M : machine) (q q' : state M) (s : string) :
  echoes M q s = Some q' -> steps M q s = (q', s).
Proof.
  revert q. induction s as [|c s IH]; intros q H.
  - cbn in H. now injection H as ->.
  - rewrite echoes_cons in H. rewrite steps_cons.
    destruct (isEcho (classify c) (snd (step M q (classify c)))) eqn:E; [|discriminate].
    rewrite (IH _ H), (isEcho_emit _ _ E). reflexivity.
Qed.

Lemma echoes_app (M : machine) (q : state M) (a b : string) :
  echoes M q (a +:+ b)
  = match echoes M q a with Some q1 => echoes M q1 b | None => None end.
Proof.
  revert q. induction a as [|c a IH]; intros q.
  - now rewrite append_nil_l.
  - rewrite append_cons, !echoes_cons.
    destruct (isEcho (classify c) (snd (step M q (classify c)))); [apply IH|reflexivity].
Qed.

Lemma feed_nil (M : machine) (q : state M) (k : cclass) : feed M q k [] = (q, []).
Proof. reflexivity. Qed.

Lemma feedEcho_echoes (M : machine) (q : state M) (c : ascii) (ts : list tok) :
  feedEcho M q (classify c) ts = true ->
  echoes M q (emit c ts) = Some (fst (feed M q (classify c) ts)).
Proof.
  revert q. induction ts as [|t ts IH]; intros q H; [reflexivity|].
  cbn [feedEcho] in H. cbn [emit]. rewrite echoes_cons, feed_cons, classify_render.
  destruct (step M q (tokClass (classify c) t)) as [q1 o]. cbn [fst snd] in *.
  apply andb_true_iff in H as [H1 H2]. rewrite H1. now apply IH.
Qed.

Section Own.

Variable M : machine.

Hypothesis M_sound : Sound M.

Variable qs : list (state (comp M M)).

Hypothesis M_closed : closed (comp M M) qs = true.

Hypothesis M_echo : echoesOwn M qs = true.

Lemma own_output_echoes (x : string) (q1 q2 : state M) :
  Reach (comp M M) (q1, q2) ->
  exists q, echoes M q2 (snd (steps M q1 x)) = Some q.
Proof.
  revert q1 q2. induction x as [|c x IH]; intros q1 q2 HR; [now exists q2|].
  rewrite steps_cons. cbn [snd]. rewrite echoes_app.
  assert (Hin : In (q1, q2) qs).
  { apply (closed_Reach (comp M M)); [now apply Sound_comp|exact M_closed|exact HR]. }
  unfold echoesOwn in M_echo. rewrite forallb_forall in M_echo.
  specialize (M_echo _ Hin). rewrite forallb_forall in M_echo.
  specialize (M_echo (classify c) (allClasses_complete _)). cbn [fst snd] in M_echo.
  rewrite (feedEcho_echoes _ _ _ _ M_echo).
  apply IH.
  pose proof (Reach_step (comp M M) (q1, q2) (classify c) HR) as HR'.
  now rewrite step_comp in HR'.
Qed.

End Own.

Lemma shape_closed (h n : bool) :
  closed (comp (mShape h n) (mShape h n))
         (reached (comp (mShape h n) (mShape h n))) = true.
Proof. destruct h, n; vm_compute; reflexivity. Qed.

Lemma shape_echoesOwn (h n : bool) :
  echoesOwn (mShape h n) (reached (comp (mShape h n) (mShape h n))) = true.
Proof. destruct h, n; vm_compute; reflexivity. Qed.

Lemma shape_steps (h n : bool) (x : string) :
  shape h n x = JS.trimEnd (snd (steps (mShape h n) (init _) x)).
Proof. apply trimEnd_run. Qed.

Lemma shaped_shape (h n : bool) (x : string) : shaped h n (shape h n x).
Proof.
  split; [|unfold shape; apply trimEnd_idem].
  rewrite shape_steps.
  destruct (own_output_echoes (mShape h n) (Sound_shape h n) _ (shape_closed h n)
              (shape_echoesOwn h n) x (init _) (init _)) as [q Hq].
  { apply (Reach_init (comp (mShape h n) (mShape h n))). }
  destruct (trimEnd_split (snd (steps (mShape h n) (init _) x))) as (w & _ & Hs).
  rewrite Hs, echoes_app in Hq.
  destruct (echoes (mShape h n) (init _) (JS.trimEnd (snd (steps (mShape h n) (init _) x))))
    as [q1|]; [now exists q1|discriminate].
Qed.

Lemma shape_shaped (h n : bool) (y : string) : shaped h n y -> shape h n y = y.
Proof.
  intros [[q Hq] Ht]. rewrite shape_steps, (echoes_steps _ _ _ _ Hq). exact Ht.
Qed.

End EchoFacts.

Section ScanFacts.
Import Normalizer Scanner Shaper.

Lemma scan_fuel (rule : Rule) (f1 f2 : nat) (pv : option ascii) (s : string) :
  proper rule -> String.length s < f1 -> String.length s < f2 ->
  scan rule f1 pv s = scan rule f2 pv s.
Proof.
  intros Hp. revert f2 pv s. induction f1 as [|f1 IH]; intros f2 pv s H1 H2; [lia|].
  destruct f2 as [|f2]; [lia|]. cbn [scan].
  destruct (rule pv s) as [[rep n]|] eqn:E.
  - destruct (Hp _ _ _ _ E) as [Hn Hle]. f_equal.
    apply IH; rewrite length_drop; lia.
  - destruct s as [|c s]; [reflexivity|]. f_equal. apply IH; cbn in *; lia.
Qed.

Lemma Scan_eq (rule : Rule) (pv : option ascii) (s : string) :
  proper rule ->
  Scan rule pv s
  = match rule pv s with
    | Some (rep, n) => rep +:+ Scan rule (charBefore n pv s) (JS.drop n s)
    | None =>
        match s with
        | String c s' => String c (Scan rule (Some c) s')
        | EmptyString => EmptyString
        end
    end.
Proof.
  intros Hp. unfold Scan at 1. cbn [scan].
  destruct (rule pv s) as [[rep n]|] eqn:E.
  - destruct (Hp _ _ _ _ E) as [Hn Hle]. f_equal. unfold Scan.
    apply scan_fuel; [assumption| |lia]. rewrite length_drop. lia.
  - destruct s as [|c s]; [reflexivity|]. f_equal.
Qed.

Lemma scan_ext (r1 r2 : Rule) (f : nat) (pv : option ascii) (s : string) :
  (forall pv s, r1 pv s = r2 pv s) -> scan r1 f pv s = scan r2 f pv s.
Proof.
  intros H. revert pv s. induction f as [|f IH]; intros pv s; [reflexivity|].
  cbn [scan]. rewrite H. destruct (r2 pv s) as [[rep n]|].
  - now rewrite IH.
  - destruct s; [reflexivity|]. now rewrite IH.
Qed.

Lemma scan_terms_pv (A : list (string * string)) (f : nat) (pv : option ascii) (s : string) :
  scan (ruleTerms A) f pv s = scan (ruleTerms A) f None s.
Proof.
  revert pv s. induction f as [|f IH]; intros pv s; [reflexivity|].
  cbn [scan]. change (ruleTerms A pv s) with (firstMatch A s).
  change (ruleTerms A None s) with (firstMatch A s).
  destruct (firstMatch A s) as [[rep n]|].
  - apply (f_equal (String.append rep)).
    etransitivity; [apply IH|symmetry; apply IH].
  - destruct s as [|c s]; reflexivity.
Qed.

End ScanFacts.

Section TermFacts.
Import Normalizer Scanner Shaper.

Lemma startsWith_refl_app (p t : string) : JS.startsWith (p +:+ t) p = true.
Proof.
  induction p as [|a p IH]; [now destruct t|].
  rewrite append_cons. cbn [JS.startsWith]. now rewrite Ascii.eqb_refl.
Qed.

Lemma startsWith_split (s p : string) :
  JS.startsWith s p = true -> s = p +:+ JS.drop (String.length p) s.
Proof.
  revert s. induction p as [|a p IH]; intros s H.
  - now rewrite append_nil_l, drop_0.
  - destruct s as [|c s]; [discriminate|]. cbn [JS.startsWith] in H.
    apply andb_true_iff in H as [Hc Hs]. apply Ascii.eqb_eq in Hc. subst c.
    cbn [String.length JS.drop]. rewrite append_cons. f_equal. now apply IH.
Qed.

Lemma startsWith_app_compat (r t p : string) :
  JS.startsWith (r +:+ t) p = true -> compat r p = true.
Proof.
  unfold compat. revert p. induction r as [|c r IH]; intros p H.
  - destruct p; reflexivity.
  - destruct p as [|a p]; [reflexivity|].
    rewrite append_cons in H. cbn [JS.startsWith] in *.
    apply andb_true_iff in H as [Hc Hs]. apply Ascii.eqb_eq in Hc. subst c.
    rewrite Ascii.eqb_refl. cbn [andb]. now apply IH.
Qed.

Lemma firstMatch_some (A : list (string * string)) (s r : string) (n : nat) :
  firstMatch A s = Some (r, n) ->
  exists p, In (p, r) A /\ n = String.length p /\ JS.startsWith s p = true.
Proof.
  induction A as [|[p0 r0] A IH]; [discriminate|]. cbn [firstMatch].
  destruct (JS.startsWith s p0) eqn:E.
  - intros H. injection H as <- <-. exists p0. repeat split; [now left|assumption].
  - intros H. destruct (IH H) as (p & Hin & Hn & Hs). exists p.
    repeat split; [now right|assumption|assumption].
Qed.

Lemma firstMatch_none (A : list (string * string)) (s : string) :
  firstMatch A s = None <-> forall p, In p (pats A) -> JS.startsWith s p = false.
Proof.
  induction A as [|[p0 r0] A IH]; cbn [firstMatch pats map].
  - split; [intros _ p []|reflexivity].
  - destruct (JS.startsWith s p0) eqn:E.
    + split; [discriminate|]. intros H. specialize (H p0 (or_introl eq_refl)).
      cbn in H. congruence.
    + rewrite IH. split.
      * intros H p [<-|Hin]; [exact E|now apply H].
      * intros H p Hin. apply H. now right.
Qed.

Lemma firstMatch_app (A B : list (string * string)) (s : string) :
  firstMatch (A ++ B) s
  = match firstMatch A s with Some x => Some x | None => firstMatch B s end.
Proof.
  induction A as [|[p r] A IH]; [reflexivity|]. cbn [app firstMatch].
  destruct (JS.startsWith s p); [reflexivity|exact IH].
Qed.

Lemma proper_terms (A : list (string * string)) :
  nonempty A = true -> proper (ruleTerms A).
Proof.
  intros HA pv s rep n H. unfold ruleTerms in H.
  destruct (firstMatch_some _ _ _ _ H) as (p & Hin & -> & Hs).
  unfold nonempty in HA. rewrite forallb_forall in HA.
  specialize (HA _ Hin). cbn [fst] in HA. apply Nat.ltb_lt in HA.
  split; [assumption|]. now apply startsWith_length.
Qed.

Lemma terms_eq (A : list (string * string)) (s : string) :
  nonempty A = true ->
  terms A s
  = match firstMatch A s with
    | Some (r, n) => r +:+ terms A (JS.drop n s)
    | None =>
        match s with
        | String c s' => String c (terms A s')
        | EmptyString => EmptyString
        end
    end.
Proof.
  intros HA. unfold terms. rewrite (Scan_eq _ _ _ (proper_terms A HA)).
  unfold ruleTerms at 1. destruct (firstMatch A s) as [[r n]|].
  - f_equal. unfold Scan. apply scan_terms_pv.
  - destruct s as [|c s]; [reflexivity|]. f_equal. unfold Scan. apply scan_terms_pv.
Qed.

Lemma terms_nil (A : list (string * string)) : nonempty A = true -> terms A "" = "".
Proof.
  intros HA. rewrite terms_eq by assumption.
  destruct (firstMatch A "") as [[r n]|] eqn:E; [|reflexivity].
  destruct (proper_terms A HA None "" r n E) as [H1 H2]. cbn in H2. lia.
Qed.

Lemma quiet_In (xs ys : list string) (x y : string) :
  quiet xs ys = true -> In x xs -> In y ys -> clash x y = false.
Proof.
  unfold quiet. rewrite forallb_forall. intros H Hx Hy.
  specialize (H x Hx). rewrite forallb_forall in H.
  specialize (H y Hy). now destruct (clash x y).
Qed.

Lemma clash_cons (c : ascii) (x y : string) :
  clash (String c x) y = false -> compat (String c x) y = false /\ clash x y = false.
Proof. cbn [clash]. intros H. now apply orb_false_iff in H. Qed.

Lemma In_pats (A : list (string * string)) (p r : string) :
  In (p, r) A -> In p (pats A).
Proof. intros H. apply (in_map fst) in H. exact H. Qed.

Lemma In_reps (A : list (string * string)) (p r : string) :
  In (p, r) A -> In r (reps A).
Proof. intros H. apply (in_map snd) in H. exact H. Qed.

Section OneSet.

Variable A : list (string * string).

Hypothesis A_nonempty : nonempty A = true.

(** No pattern of [A] begins inside [r], whatever follows. *)
Lemma terms_inside (r : string) :
  (forall p, In p (pats A) -> clash r p = false) ->
  forall t, terms A (r +:+ t) = r +:+ terms A t.
Proof.
  induction r as [|c r IH]; intros H t; [now rewrite !append_nil_l|].
  rewrite terms_eq by assumption.
  assert (E : firstMatch A (String c r +:+ t) = None).
  { apply firstMatch_none. intros p Hp.
    destruct (JS.startsWith (String c r +:+ t) p) eqn:Es; [|reflexivity].
    apply startsWith_app_compat in Es.
    destruct (clash_cons _ _ _ (H p Hp)). congruence. }
  rewrite E, !append_cons. f_equal. apply IH.
  intros p Hp. now destruct (clash_cons _ _ _ (H p Hp)).
Qed.

(** A pattern found after the replacements was there before them. *)
Lemma terms_new (p : string) :
  (forall r, In r (reps A) -> clash p r = false) ->
  forall s, JS.startsWith (terms A s) p = true -> JS.startsWith s p = true.
Proof.
  induction p as [|a p IH]; intros H s Hs; [now destruct s|].
  rewrite terms_eq in Hs by assumption.
  destruct (firstMatch A s) as [[r n]|] eqn:E.
  - destruct (firstMatch_some _ _ _ _ E) as (q & Hin & _ & _).
    apply startsWith_app_compat in Hs.
    destruct (clash_cons _ _ _ (H r (In_reps _ _ _ Hin))) as [Hc _].
    unfold compat in *. rewrite orb_comm in Hs. congruence.
  - destruct s as [|c s]; [discriminate|]. cbn [JS.startsWith] in *.
    apply andb_true_iff in Hs as [Hc Hs]. rewrite Hc. cbn [andb].
    apply IH; [|assumption].
    intros r Hr. now destruct (clash_cons _ _ _ (H r Hr)).
Qed.

Lemma terms_idempotent :
  quiet (reps A) (pats A) = true -> quiet (pats A) (reps A) = true ->
  forall s, terms A (terms A s) = terms A s.
Proof.
  intros H1 H3 s.
  remember (String.length s) as m eqn:Hm. revert s Hm.
  induction m as [m IH] using lt_wf_ind. intros s Hm.
  rewrite (terms_eq A s) by assumption.
  destruct (firstMatch A s) as [[r n]|] eqn:E.
  - destruct (firstMatch_some _ _ _ _ E) as (q & Hin & -> & Hs).
    rewrite terms_inside.
    2:{ intros p Hp. apply (quiet_In (reps A) (pats A) r p H1);
          [eapply In_reps; eassumption|assumption]. }
    apply (f_equal (String.append r)).
    apply (IH (String.length (JS.drop (String.length q) s))); [|reflexivity].
    rewrite length_drop. pose proof (startsWith_length _ _ Hs).
    unfold nonempty in A_nonempty. rewrite forallb_forall in A_nonempty.
    specialize (A_nonempty _ Hin). cbn [fst] in A_nonempty.
    apply Nat.ltb_lt in A_nonempty. lia.
  - destruct s as [|c s]; [now rewrite !terms_nil|].
    rewrite terms_eq by assumption.
    assert (E2 : firstMatch A (String c (terms A s)) = None).
    { apply firstMatch_none. intros p Hp.
      destruct (JS.startsWith (String c (terms A s)) p) eqn:Es; [|reflexivity].
      assert (Hs : JS.startsWith (terms A (String c s)) p = true).
      { rewrite terms_eq, E by assumption. exact Es. }
      apply terms_new in Hs.
      - rewrite firstMatch_none in E. now rewrite (E p Hp) in Hs.
      - intros r Hr. exact (quiet_In (pats A) (reps A) p r H3 Hp Hr). }
    rewrite E2. f_equal. apply (IH (String.length s)); [cbn in Hm; lia|reflexivity].
Qed.

End OneSet.

Lemma prefixes_compat (s x y : string) :
  JS.startsWith s x = true -> JS.startsWith s y = true -> compat x y = true.
Proof.
  intros Hx Hy. rewrite (startsWith_split s x Hx) in Hy.
  now apply startsWith_app_compat in Hy.
Qed.

Lemma nonempty_app (A B : list (string * string)) :
  nonempty A = true -> nonempty B = true -> nonempty (A ++ B) = true.
Proof. unfold nonempty. intros HA HB. rewrite forallb_app. now rewrite HA, HB. Qed.

Lemma nonempty_In (A : list (string * string)) (p r : string) :
  nonempty A = true -> In (p, r) A -> 0 < String.length p.
Proof.
  unfold nonempty. rewrite forallb_forall. intros H Hin.
  specialize (H _ Hin). now apply Nat.ltb_lt in H.
Qed.

Section TwoSets.

Variables A B : list (string * string).

Hypothesis A_nonempty : nonempty A = true.

Hypothesis B_nonempty : nonempty B = true.

Hypothesis rA_pB : quiet (reps A) (pats B) = true.

Hypothesis pB_pA : quiet (pats B) (pats A) = true.

Hypothesis pB_rA : quiet (pats B) (reps A) = true.

Lemma terms_keeps (p : string) (s : string) :
  In p (pats B) -> JS.startsWith (terms A s) p = JS.startsWith s p.
Proof.
  intros Hp. destruct (JS.startsWith s p) eqn:E.
  - rewrite (startsWith_split s p E), (terms_inside A A_nonempty).
    + apply startsWith_refl_app.
    + intros q Hq. exact (quiet_In _ _ p q pB_pA Hp Hq).
  - destruct (JS.startsWith (terms A s) p) eqn:E2; [|reflexivity].
    apply (terms_new A A_nonempty) in E2; [congruence|].
    intros r Hr. exact (quiet_In _ _ p r pB_rA Hp Hr).
Qed.

Lemma firstMatch_terms (s : string) :
  firstMatch B (terms A s) = firstMatch B s.
Proof.
  assert (H : forall B', (forall p, In p (pats B') -> In p (pats B)) ->
                         firstMatch B' (terms A s) = firstMatch B' s).
  { induction B' as [|[p r] B' IH]; intros Hsub; [reflexivity|].
    cbn [firstMatch]. rewrite terms_keeps by (apply Hsub; now left).
    rewrite IH; [reflexivity|]. intros q Hq. apply Hsub. now right. }
  now apply H.
Qed.

Lemma terms_seq (s : string) : terms B (terms A s) = terms (A ++ B) s.
Proof.
  pose proof (nonempty_app A B A_nonempty B_nonempty) as AB_nonempty.
  remember (String.length s) as m eqn:Hm. revert s Hm.
  induction m as [m IH] using lt_wf_ind. intros s Hm.
  rewrite (terms_eq (A ++ B) s) by assumption. rewrite firstMatch_app.
  destruct (firstMatch A s) as [[r n]|] eqn:E.
  - destruct (firstMatch_some _ _ _ _ E) as (q & Hin & -> & Hs).
    rewrite (terms_eq A s), E by assumption.
    rewrite (terms_inside B B_nonempty).
    2:{ intros p Hp. apply (quiet_In _ _ r p rA_pB); [|assumption].
        eapply In_reps; eassumption. }
    apply (f_equal (String.append r)).
    apply (IH (String.length (JS.drop (String.length q) s))); [|reflexivity].
    rewrite length_drop. pose proof (startsWith_length _ _ Hs).
    pose proof (nonempty_In A q r A_nonempty Hin). lia.
  - rewrite (terms_eq B) by assumption. rewrite firstMatch_terms.
    destruct (firstMatch B s) as [[r n]|] eqn:EB.
    + destruct (firstMatch_some _ _ _ _ EB) as (q & Hin & -> & Hs).
      apply (f_equal (String.append r)).
      rewrite (startsWith_split s q Hs) at 1.
      rewrite (terms_inside A A_nonempty).
      2:{ intros p Hp. apply (quiet_In _ _ q p pB_pA); [|assumption].
          eapply In_pats; eassumption. }
      rewrite drop_append_length.
      apply (IH (String.length (JS.drop (String.length q) s))); [|reflexivity].
      rewrite length_drop. pose proof (startsWith_length _ _ Hs).
      pose proof (nonempty_In B q r B_nonempty Hin). lia.
    + rewrite (terms_eq A s), E by assumption.
      destruct s as [|c s]; [reflexivity|]. apply (f_equal (String c)).
      apply (IH (String.length s)); [cbn in Hm; lia|reflexivity].
Qed.

Lemma firstMatch_swap (s : string) :
  firstMatch (A ++ B) s = firstMatch (B ++ A) s.
Proof.
  rewrite !firstMatch_app.
  destruct (firstMatch A s) as [[rA nA]|] eqn:EA,
           (firstMatch B s) as [[rB nB]|] eqn:EB; try reflexivity.
  destruct (firstMatch_some _ _ _ _ EA) as (pA & HinA & _ & HsA).
  destruct (firstMatch_some _ _ _ _ EB) as (pB & HinB & _ & HsB).
  pose proof (prefixes_compat s pB pA HsB HsA) as Hc.
  pose proof (quiet_In _ _ pB pA pB_pA (In_pats _ _ _ HinB) (In_pats _ _ _ HinA)) as Hq.
  pose proof (nonempty_In B pB rB B_nonempty HinB) as Hl.
  destruct pB as [|c pB]; [cbn in Hl; lia|].
  apply clash_cons in Hq as [Hq _]. congruence.
Qed.

Lemma terms_swap (s : string) : terms (A ++ B) s = terms (B ++ A) s.
Proof. unfold terms, Scan. apply scan_ext. intros pv t. unfold ruleTerms. apply firstMatch_swap. Qed.

End TwoSets.

Lemma terms_commute (A B : list (string * string)) (s : string) :
  apart A B = true -> terms B (terms A s) = terms A (terms B s).
Proof.
  unfold apart. intros H.
  repeat (apply andb_true_iff in H as [H ?]).
  rewrite (terms_seq A B), (terms_seq B A) by assumption.
  now apply terms_swap.
Qed.

Lemma terms_twice (A : list (string * string)) (s : string) :
  settledTerms A = true -> terms A (terms A s) = terms A s.
Proof.
  unfold settledTerms. intros H. repeat (apply andb_true_iff in H as [H ?]).
  now apply terms_idempotent.
Qed.

End TermFacts.

Section TermsOfSource.
Import Normalizer Scanner Shaper.

Lemma replaceAll_lit (pat rep s : string) :
  0 < String.length pat ->
  Regex.replaceAll (Regex.lit pat) [Regex.Lit rep] s = terms [(pat, rep)] s.
Proof.
  intros Hp. rewrite (replaceAll_scan _ _ _ s (implements_lit pat rep Hp)).
  unfold terms, Scan. apply scan_ext. intros pv t.
  unfold ruleLit, ruleTerms. cbn [firstMatch]. reflexivity.
Qed.

Lemma replaceAll_litOpt (a b rep s : string) :
  Regex.replaceAll
    (Regex.seqs [Regex.lit (a +:+ "."); Regex.opt (Regex.Chr (Regex.isChar sp)); Regex.lit b])
    [Regex.Lit rep] s
  = terms [(a +:+ ". " +:+ b, rep); (a +:+ "." +:+ b, rep)] s.
Proof.
  rewrite (replaceAll_scan _ _ _ s (implements_litOpt a b rep)).
  unfold terms, Scan. apply scan_ext. intros pv t.
  unfold ruleLitOpt, ruleTerms. cbn [firstMatch]. reflexivity.
Qed.

Lemma replaceAll_version (s : string) :
  Regex.replaceAll reVersion
    [Regex.Ref 1; Regex.Lit "."; Regex.Ref 2; Regex.Lit "."; Regex.Ref 3] s
  = versions s.
Proof. exact (replaceAll_scan _ _ _ s implements_version). Qed.

Lemma fixTechnicalTerms_terms (s : string) :
  fixTechnicalTerms s
  = versions (terms vueTerms (terms reactTerms (terms javaTerms
      (terms typeTerms (terms nodeTerms (terms nextTerms s)))))).
Proof.
  unfold fixTechnicalTerms.
  rewrite replaceAll_version.
  unfold reNext, reNode. rewrite !replaceAll_lit by (cbn; lia).
  rewrite (replaceAll_litOpt "Type" "Script"), (replaceAll_litOpt "Java" "Script"),
    (replaceAll_litOpt "React" "js"), (replaceAll_litOpt "Vue" "js").
  reflexivity.
Qed.

End TermsOfSource.

Section TermPeel.
Import Normalizer Scanner Shaper.

Variable M : machine.

Hypothesis M_sound : Sound M.

Variable qs : list (state M).

Hypothesis M_closed : closed M qs = true.

Lemma sameRun_steps (q : state M) (a b : string) :
  sameRun M q a b = true -> steps M q a = steps M q b.
Proof.
  unfold sameRun. intros H. apply andb_true_iff in H as [H1 H2].
  apply M_sound in H1. apply String.eqb_eq in H2.
  destruct (steps M q a), (steps M q b). cbn [fst snd] in *. now subst.
Qed.

Lemma steps_app_congr (q : state M) (a a' b b' : string) :
  steps M q a = steps M q a' ->
  steps M (fst (steps M q a)) b = steps M (fst (steps M q a)) b' ->
  steps M q (a +:+ b) = steps M q (a' +:+ b').
Proof. intros Ha Hb. rewrite !steps_app, <- Ha, Hb. reflexivity. Qed.

Lemma terms_steps (C : list (string * string)) :
  nonempty C = true -> peels M C qs = true ->
  forall v q, Reach M q -> steps M q (terms C v) = steps M q v.
Proof.
  intros HC HP v.
  remember (String.length v) as m eqn:Hm. revert v Hm.
  induction m as [m IH] using lt_wf_ind. intros v Hm q Hq.
  rewrite (terms_eq C v HC).
  destruct (firstMatch C v) as [[r n]|] eqn:E.
  - destruct (firstMatch_some _ _ _ _ E) as (p & Hin & -> & Hs).
    rewrite (startsWith_split v p Hs) at 2.
    assert (Hpr : steps M q r = steps M q p).
    { symmetry. apply sameRun_steps.
      unfold peels in HP. rewrite forallb_forall in HP.
      specialize (HP q (closed_Reach M qs M_sound M_closed q Hq)).
      rewrite forallb_forall in HP. exact (HP _ Hin). }
    apply steps_app_congr; [exact Hpr|].
    apply (IH (String.length (JS.drop (String.length p) v))); [|reflexivity|].
    + rewrite length_drop. pose proof (startsWith_length _ _ Hs).
      pose proof (nonempty_In C p r HC Hin). lia.
    + now apply Reach_steps.
  - destruct v as [|c v]; [reflexivity|].
    rewrite !steps_cons. rewrite (IH (String.length v)); [reflexivity| |reflexivity|].
    + cbn in Hm. lia.
    + now apply Reach_step.
Qed.

End TermPeel.

Section VersionFacts.
Import Normalizer Scanner Shaper.

Lemma proper_version : proper ruleVersion.
Proof.
  intros pv s rep n. unfold ruleVersion.
  set (d1 := runLen Regex.isDigit s). set (s1 := JS.drop d1 s).
  set (s2 := JS.drop 2 s1). set (d2 := runLen Regex.isDigit s2).
  set (s3 := JS.drop d2 s2). set (s4 := JS.drop 2 s3).
  set (d3 := runLen Regex.isDigit s4).
  destruct (Nat.leb 1 d1 && JS.startsWith s1 ". " && Nat.leb 1 d2
            && JS.startsWith s3 ". " && Nat.leb 1 d3) eqn:E; [|discriminate].
  intros H. injection H as _ <-.
  repeat (apply andb_true_iff in E as [E ?]).
  apply Nat.leb_le in E.
  pose proof (startsWith_length _ _ H2) as La.
  pose proof (startsWith_length _ _ H0) as Lb.
  cbn [String.length] in La, Lb.
  assert (L1 : String.length s1 = String.length s - d1) by apply length_drop.
  assert (L2 : String.length s2 = String.length s1 - 2) by apply length_drop.
  assert (L3 : String.length s3 = String.length s2 - d2) by apply length_drop.
  assert (L4 : String.length s4 = String.length s3 - 2) by apply length_drop.
  pose proof (runLen_le Regex.isDigit s4) as R4. fold d3 in R4.
  pose proof (runLen_le Regex.isDigit s2) as R2. fold d2 in R2.
  pose proof (runLen_le Regex.isDigit s) as R1. fold d1 in R1.
  apply Nat.leb_le in H1, H. lia.
Qed.

Lemma headSat_take (p : ascii -> bool) (s t : string) :
  1 <= runLen p s -> headSat p (JS.take (runLen p s) s +:+ t) = true.
Proof.
  destruct s as [|c s]; cbn [runLen]; [lia|].
  destruct (p c) eqn:E; [|lia]. intros _. rewrite take_cons, append_cons. exact E.
Qed.

End VersionFacts.

Section VersionPeel.
Import Normalizer Scanner Shaper.

Variable M : machine.

Hypothesis M_sound : Sound M.

Variable qs : list (state M).

Hypothesis M_closed : closed M qs = true.

Lemma alike_refl (a : string) : alike M a a.
Proof. intros q _. reflexivity. Qed.

Lemma alike_trans (a b c : string) : alike M a b -> alike M b c -> alike M a c.
Proof. intros H1 H2 q Hq. now rewrite (H1 q Hq), (H2 q Hq). Qed.

Lemma alike_app (a b b' : string) : alike M b b' -> alike M (a +:+ b) (a +:+ b').
Proof.
  intros H q Hq. rewrite !steps_app. rewrite (H _ (Reach_steps M q a Hq)). reflexivity.
Qed.

Lemma alike_cons (c : ascii) (b b' : string) : alike M b b' -> alike M (String c b) (String c b').
Proof.
  intros H q Hq. rewrite !steps_cons.
  rewrite (H _ (Reach_step M q (classify c) Hq)). reflexivity.
Qed.

Hypothesis M_digit : peelsDigit M qs = true.

Lemma alike_dot_digit (u : string) :
  headSat Regex.isDigit u = true -> alike M (". " +:+ u) ("." +:+ u).
Proof.
  destruct u as [|x u]; [discriminate|]. cbn [headSat]. intros Hx q Hq.
  change (". " +:+ String x u) with (String "." (String " " (String x "")) +:+ u).
  change ("." +:+ String x u) with (String "." (String x "") +:+ u).
  apply (steps_app_congr M); [|reflexivity].
  apply (sameRun_steps M M_sound).
  unfold peelsDigit in M_digit. rewrite forallb_forall in M_digit.
  specialize (M_digit q (closed_Reach M qs M_sound M_closed q Hq)).
  rewrite forallb_forall in M_digit.
  specialize (M_digit x (allAscii_complete x)). now rewrite Hx in M_digit.
Qed.

Lemma versions_alike (v : string) (pv : option ascii) :
  alike M (Scan ruleVersion pv v) v.
Proof.
  remember (String.length v) as m eqn:Hm. revert v pv Hm.
  induction m as [m IH] using lt_wf_ind. intros v pv Hm.
  rewrite (Scan_eq _ _ _ proper_version).
  destruct (ruleVersion pv v) as [[rep n]|] eqn:E.
  - pose proof (proper_version _ _ _ _ E) as [Hn Hle].
    unfold ruleVersion in E.
    set (d1 := runLen Regex.isDigit v) in *. set (s1 := JS.drop d1 v) in *.
    set (s2 := JS.drop 2 s1) in *. set (d2 := runLen Regex.isDigit s2) in *.
    set (s3 := JS.drop d2 s2) in *. set (s4 := JS.drop 2 s3) in *.
    set (d3 := runLen Regex.isDigit s4) in *.
    destruct (Nat.leb 1 d1 && JS.startsWith s1 ". " && Nat.leb 1 d2
              && JS.startsWith s3 ". " && Nat.leb 1 d3) eqn:Ec; [|discriminate].
    injection E as <- <-.
    repeat (apply andb_true_iff in Ec as [Ec ?]).
    apply Nat.leb_le in Ec, H1, H.
    assert (Hv : v = JS.take d1 v +:+ ". " +:+ JS.take d2 s2 +:+ ". "
                     +:+ JS.take d3 s4 +:+ JS.drop d3 s4).
    { rewrite (take_drop d3 s4).
      change s4 with (JS.drop (String.length ". ") s3).
      rewrite <- (startsWith_split s3 ". " H0).
      unfold s3. rewrite (take_drop d2 s2).
      change s2 with (JS.drop (String.length ". ") s1).
      rewrite <- (startsWith_split s1 ". " H2).
      unfold s1. now rewrite (take_drop d1 v). }
    assert (Hd : JS.drop (d1 + 2 + d2 + 2 + d3) v = JS.drop d3 s4).
    { unfold s4, s3, s2, s1. rewrite !drop_drop. f_equal. lia. }
    rewrite Hd.
    generalize (charBefore (d1 + 2 + d2 + 2 + d3) pv v). intros pv'.
    rewrite Hv at 2.
    rewrite !append_assoc.
    apply alike_app.
    eapply alike_trans;
      [|apply alike_trans with (b := "." +:+ JS.take d2 s2 +:+ ". "
                                      +:+ JS.take d3 s4 +:+ JS.drop d3 s4);
        [|intros q Hq; symmetry; revert q Hq; apply alike_dot_digit, headSat_take, H1]].
    2: apply alike_refl.
    change ("." +:+ ?x) with (String "." x).
    apply alike_cons, alike_app.
    eapply alike_trans;
      [|intros q Hq; symmetry; revert q Hq; apply alike_dot_digit, headSat_take, H].
    apply alike_cons, alike_app.
    apply (IH (String.length (JS.drop d3 s4))); [|reflexivity].
    rewrite <- Hd, length_drop. lia.
  - destruct v as [|c v]; [apply alike_refl|].
    apply alike_cons. apply (IH (String.length v)); [cbn in Hm; lia|reflexivity].
Qed.

Lemma terms_echoes (D : list (string * string)) :
  nonempty D = true -> keeps M D qs = true ->
  forall y q q', Reach M q -> echoes M q y = Some q' ->
                 echoes M q (terms D y) = Some q'.
Proof.
  intros HD HK y.
  remember (String.length y) as m eqn:Hm. revert y Hm.
  induction m as [m IH] using lt_wf_ind. intros y Hm q q' Hq He.
  rewrite (terms_eq D y HD).
  destruct (firstMatch D y) as [[r n]|] eqn:E.
  - destruct (firstMatch_some _ _ _ _ E) as (p & Hin & -> & Hs).
    rewrite (startsWith_split y p Hs), echoes_app in He.
    destruct (echoes M q p) as [q1|] eqn:Ep; [|discriminate].
    unfold keeps in HK. rewrite forallb_forall in HK.
    specialize (HK q (closed_Reach M qs M_sound M_closed q Hq)).
    rewrite forallb_forall in HK. specialize (HK _ Hin). cbn [fst snd] in HK.
    rewrite Ep in HK. destruct (echoes M q r) as [q2|] eqn:Er; [|discriminate].
    apply M_sound in HK. subst q2.
    rewrite echoes_app, Er.
    apply (IH (String.length (JS.drop (String.length p) y))); [|reflexivity| |exact He].
    + rewrite length_drop. pose proof (startsWith_length _ _ Hs).
      pose proof (nonempty_In D p r HD Hin). lia.
    + pose proof (echoes_steps _ _ _ _ Ep) as Hst.
      pose proof (Reach_steps M q p Hq) as HR. now rewrite Hst in HR.
  - destruct y as [|c y]; [exact He|].
    rewrite echoes_cons in *.
    destruct (isEcho (classify c) (snd (step M q (classify c)))); [|discriminate].
    apply (IH (String.length y)); [cbn in Hm; lia|reflexivity| |exact He].
    now apply Reach_step.
Qed.

End VersionPeel.

Section EndFacts.
Import Normalizer Scanner Shaper.

Lemma trimEnd_fixed (s : string) : JS.trimEnd s = s <-> endsSpace s = false.
Proof.
  induction s as [|c s IH]; [cbn; tauto|].
  cbn [JS.trimEnd endsSpace]. destruct s as [|d s].
  - cbn [JS.trimEnd]. destruct (JS.isSpace c); split; congruence.
  - destruct (JS.trimEnd (String d s)) as [|e t] eqn:E.
    + split.
      * destruct (JS.isSpace c); discriminate.
      * intros H. apply IH in H. discriminate.
    + rewrite <- IH. split; intros H; [now injection H as -> ->|now rewrite H].
Qed.

Lemma endsSpace_cons (c : ascii) (s : string) :
  s <> "" -> endsSpace (String c s) = endsSpace s.
Proof. destruct s; [congruence|reflexivity]. Qed.

Lemma endsSpace_app (a b : string) : b <> "" -> endsSpace (a +:+ b) = endsSpace b.
Proof.
  intros Hb. induction a as [|c a IH]; [now rewrite append_nil_l|].
  rewrite append_cons, endsSpace_cons; [exact IH|].
  destruct a; [now rewrite append_nil_l|rewrite append_cons; discriminate].
Qed.

Lemma terms_nonempty (D : list (string * string)) (y : string) :
  nonempty D = true -> cleanReps D = true -> y <> "" -> terms D y <> "".
Proof.
  intros HD HC Hy. rewrite (terms_eq D y HD).
  destruct (firstMatch D y) as [[r n]|] eqn:E.
  - destruct (firstMatch_some _ _ _ _ E) as (p & Hin & _ & _).
    unfold cleanReps in HC. rewrite forallb_forall in HC.
    specialize (HC _ Hin). cbn [snd] in HC. apply andb_true_iff in HC as [_ HC].
    apply Nat.ltb_lt in HC. destruct r; [cbn in HC; lia|].
    rewrite append_cons. discriminate.
  - destruct y; [congruence|discriminate].
Qed.

Lemma terms_endsSpace (D : list (string * string)) :
  nonempty D = true -> cleanReps D = true ->
  forall y, endsSpace y = false -> endsSpace (terms D y) = false.
Proof.
  intros HD HC y.
  remember (String.length y) as m eqn:Hm. revert y Hm.
  induction m as [m IH] using lt_wf_ind. intros y Hm Hy.
  rewrite (terms_eq D y HD).
  destruct (firstMatch D y) as [[r n]|] eqn:E.
  - destruct (firstMatch_some _ _ _ _ E) as (p & Hin & -> & Hs).
    destruct (JS.drop (String.length p) y) as [|c t] eqn:Ed.
    + rewrite (terms_nil D HD), append_nil_r.
      unfold cleanReps in HC. rewrite forallb_forall in HC.
      specialize (HC _ Hin). cbn [snd] in HC. apply andb_true_iff in HC as [HC _].
      now destruct (endsSpace r).
    + rewrite endsSpace_app by (apply terms_nonempty; auto; discriminate).
      apply (IH (String.length (String c t))); [|reflexivity|].
      * rewrite <- Ed, length_drop. pose proof (startsWith_length _ _ Hs).
        pose proof (nonempty_In D p r HD Hin). lia.
      * rewrite (startsWith_split y p Hs), Ed in Hy.
        now rewrite endsSpace_app in Hy by discriminate.
  - destruct y as [|c y]; [reflexivity|].
    destruct y as [|d y].
    + now rewrite (terms_nil D HD).
    + rewrite endsSpace_cons by (apply terms_nonempty; auto; discriminate).
      apply (IH (String.length (String d y))); [cbn in Hm |- *; lia|reflexivity|].
      now rewrite endsSpace_cons in Hy by discriminate.
Qed.

End EndFacts.

Section ShapeChecks.
Import Normalizer Scanner Shaper.

Variables h n : bool.

Lemma shape_reached : closed (mShape h n) (reached (mShape h n)) = true.
Proof. destruct h, n; vm_compute; reflexivity. Qed.

Lemma shape_peels_next : peels (mShape h n) nextTerms (reached (mShape h n)) = true.
Proof. destruct h, n; vm_compute; reflexivity. Qed.

Lemma shape_peels_node : peels (mShape h n) nodeTerms (reached (mShape h n)) = true.
Proof. destruct h, n; vm_compute; reflexivity. Qed.

Lemma shape_peels_react : peels (mShape h n) reactTerms (reached (mShape h n)) = true.
Proof. destruct h, n; vm_compute; reflexivity. Qed.

Lemma shape_peels_vue : peels (mShape h n) vueTerms (reached (mShape h n)) = true.
Proof. destruct h, n; vm_compute; reflexivity. Qed.

Lemma shape_peels_digit : peelsDigit (mShape h n) (reached (mShape h n)) = true.
Proof. destruct h, n; vm_compute; reflexivity. Qed.

Lemma shape_keeps_type : keeps (mShape h n) typeTerms (reached (mShape h n)) = true.
Proof. destruct h, n; vm_compute; reflexivity. Qed.

Lemma shape_keeps_java : keeps (mShape h n) javaTerms (reached (mShape h n)) = true.
Proof. destruct h, n; vm_compute; reflexivity. Qed.

Lemma shape_terms (C : list (string * string)) (v : string) :
  nonempty C = true -> peels (mShape h n) C (reached (mShape h n)) = true ->
  shape h n (terms C v) = shape h n v.
Proof.
  intros HC HP. rewrite !shape_steps. f_equal. f_equal.
  apply (terms_steps _ (Sound_shape h n) _ shape_reached C HC HP).
  apply Reach_init.
Qed.

Lemma shape_versions (v : string) : shape h n (versions v) = shape h n v.
Proof.
  rewrite !shape_steps. f_equal. f_equal.
  apply (versions_alike _ (Sound_shape h n) _ shape_reached shape_peels_digit).
  apply Reach_init.
Qed.

Lemma shaped_terms (D : list (string * string)) (y : string) :
  nonempty D = true -> cleanReps D = true ->
  keeps (mShape h n) D (reached (mShape h n)) = true ->
  shaped h n y -> shaped h n (terms D y).
Proof.
  intros HD HC HK [[q Hq] Ht]. split.
  - exists q.
    apply (terms_echoes _ (Sound_shape h n) _ shape_reached D HD HK);
      [apply Reach_init|exact Hq].
  - apply trimEnd_fixed, terms_endsSpace; try assumption. now apply trimEnd_fixed.
Qed.

End ShapeChecks.

Section Commute.
Import Normalizer Scanner Shaper.

Lemma deletions_first (s : string) :
  terms javaTerms (terms typeTerms (terms nodeTerms (terms nextTerms s)))
  = terms nodeTerms (terms nextTerms (terms javaTerms (terms typeTerms s))).
Proof.
  rewrite (terms_commute nodeTerms typeTerms) by (vm_compute; reflexivity).
  rewrite (terms_commute nodeTerms javaTerms) by (vm_compute; reflexivity).
  rewrite (terms_commute nextTerms typeTerms) by (vm_compute; reflexivity).
  rewrite (terms_commute nextTerms javaTerms) by (vm_compute; reflexivity).
  reflexivity.
Qed.

Lemma deletions_twice (s : string) :
  terms javaTerms (terms typeTerms (terms javaTerms (terms typeTerms s)))
  = terms javaTerms (terms typeTerms s).
Proof.
  rewrite <- (terms_commute typeTerms javaTerms (terms typeTerms s))
    by (vm_compute; reflexivity).
  rewrite (terms_twice typeTerms) by (vm_compute; reflexivity).
  rewrite (terms_twice javaTerms) by (vm_compute; reflexivity).
  reflexivity.
Qed.

End Commute.

(** C7. Normalizer idempotence: for every input string and every option set,
    normalizing the normalized text gives the normalized text again:
    [processText (processText x o) o = processText x o]. *)
Theorem processText_idempotent (x : string) (o : Normalizer.TextProcessingOptions) :
  Normalizer.processText (Normalizer.processText x o) o = Normalizer.processText x o.
Proof.
  rewrite !processText_shape.
  set (h := Normalizer.preserveMarkdownHeadings o).
  set (n := Normalizer.preserveNewlines o).
  set (w := Shaper.shape h n x).
  assert (Hw : Shaper.shaped h n w) by apply shaped_shape.
  rewrite (fixTechnicalTerms_terms w).
  rewrite shape_versions.
  rewrite (shape_terms h n Scanner.vueTerms) by (reflexivity || apply shape_peels_vue).
  rewrite (shape_terms h n Scanner.reactTerms) by (reflexivity || apply shape_peels_react).
  rewrite deletions_first.
  rewrite (shape_terms h n Scanner.nodeTerms) by (reflexivity || apply shape_peels_node).
  rewrite (shape_terms h n Scanner.nextTerms) by (reflexivity || apply shape_peels_next).
  rewrite (shape_shaped h n).
  2:{ apply shaped_terms; [reflexivity|reflexivity|apply shape_keeps_java|].
      apply shaped_terms; [reflexivity|reflexivity|apply shape_keeps_type|exact Hw]. }
  rewrite fixTechnicalTerms_terms.
  rewrite deletions_first, deletions_twice, <- deletions_first.
  reflexivity.
Qed.

(* ===================================================================== *)
(** * Further properties *)
(* ===================================================================== *)

(** ** Deduplication: what is kept *)

Section DedupeMore.

Lemma overlaps_split (e d : string) (k : nat) :
  overlaps e d k -> e +:+ JS.drop k d = JS.take (String.length e - k) e +:+ d.
Proof.
  intros (Hke & Hkd & Heq).
  rewrite <- (take_drop (String.length e - k) e) at 1.
  rewrite Heq, append_assoc, take_drop. reflexivity.
Qed.

Lemma appendDeduped_endsWith (e d : string) :
  JS.endsWith (appendDeduped e d) d = true.
Proof.
  apply endsWith_spec. unfold appendDeduped.
  destruct (dedupe_longest e d) as (_ & Hov & _).
  eexists. now apply overlaps_split.
Qed.

Lemma appendDeduped_present (e d : string) :
  JS.endsWith e d = true -> String.length d <= 50 -> appendDeduped e d = e.
Proof.
  intros He Hd. unfold appendDeduped.
  destruct (dedupe_longest e d) as (_ & (Hke & Hkd & Heq) & Hmax).
  assert (Hk : dedupe e d = String.length d).
  { destruct (Nat.eq_dec (dedupe e d) (String.length d)) as [|Hne]; [assumption|].
    exfalso. apply (Hmax (String.length d)); [lia|lia|lia|].
    now apply endsWith_overlaps. }
  rewrite Hk, drop_all by lia. apply append_nil_r.
Qed.

Lemma flushUpdater_content (d : string) (a : UIArtifact) :
  content (flushUpdater d a) = content a +:+ JS.drop (dedupeBuffered (content a) d) d.
Proof.
  unfold flushUpdater.
  destruct (Nat.eqb (String.length (JS.drop (dedupeBuffered (content a) d) d)) 0) eqn:E;
    cbn [andb]; [|reflexivity].
  apply Nat.eqb_eq in E.
  destruct (JS.drop (dedupeBuffered (content a) d) d); [|discriminate].
  rewrite append_nil_r. now destruct (Nat.ltb 0 (dedupeBuffered (content a) d)).
Qed.

Lemma flushUpdater_endsWith (d : string) (a : UIArtifact) :
  JS.endsWith (content (flushUpdater d a)) d = true.
Proof.
  rewrite flushUpdater_content. apply endsWith_spec.
  destruct (dedupeBuffered_longest (content a) d) as (_ & Hov & _).
  eexists. now apply overlaps_split.
Qed.

Lemma dedupeBuffered_present (e d : string) :
  JS.endsWith e d = true -> d <> "" -> dedupeBuffered e d = String.length d.
Proof.
  intros He Hd. unfold dedupeBuffered. rewrite He.
  destruct d as [|c d]; [congruence|].
  destruct e as [|c' e]; [discriminate He + (cbn in He; discriminate)|].
  reflexivity.
Qed.

End DedupeMore.

Section ClientMore.

Lemma endsWith_nil (s : string) : JS.endsWith s "" = true.
Proof. apply endsWith_spec. exists s. now rewrite append_nil_r. Qed.

Lemma flushUpdater_present (d : string) (a : UIArtifact) :
  JS.endsWith (content a) d = true -> d <> "" -> flushUpdater d a = a.
Proof.
  intros He Hd. unfold flushUpdater.
  rewrite (dedupeBuffered_present _ _ He Hd), drop_all by lia.
  destruct d; [congruence|]. reflexivity.
Qed.

Lemma sliceFrom_app {A : Type} (a b : list A) :
  sliceFrom (Z.of_nat (List.length a) - 1 + 1) (a ++ b) = b.
Proof.
  unfold sliceFrom.
  destruct (Z.ltb_spec (Z.of_nat (List.length a) - 1 + 1) 0) as [H|H]; [lia|].
  replace (Z.to_nat (Z.of_nat (List.length a) - 1 + 1)) with (List.length a + 0) by lia.
  now rewrite skipn_app, Nat.add_0_r, skipn_all, Nat.sub_diag.
Qed.

End ClientMore.

(** X1.  After a text fragment has been handled by the handler with immediate
    deduplication, whatever the artifact definition did before the
    reducer, the content ends with the whole fragment: deduplication
    never loses a character of it. *)
Theorem fragment_survives_dedup (def : option ArtifactDefinition) (c : string)
    (st : ArtifactStore) :
  JS.endsWith (content (current (handleDelta def (d_text_delta c) st))) c = true.
Proof.
  unfold handleDelta, setArtifact.
  cbn [current reduceDelta content withIsVisible withStatus withContent].
  apply appendDeduped_endsWith.
Qed.

(** X2.  The buffering handler: after a flush the content ends with the whole
    text that was in the buffer. *)
Theorem buffer_survives_flush (def : option ArtifactDefinition) (h : BufferedHandler) :
  JS.endsWith (content (current (cell (flushTextBuffer def h)))) (textDeltaBuffer h)
  = true.
Proof.
  unfold flushTextBuffer.
  destruct (Nat.ltb_spec 0 (String.length (textDeltaBuffer h))) as [H|H]; cbn [cell].
  - unfold setArtifact. cbn [current]. apply flushUpdater_endsWith.
  - destruct (textDeltaBuffer h); [apply endsWith_nil|cbn in H; lia].
Qed.



(** X4.  The updater of the buffering handler's flush is idempotent for every
    buffer text, of any length: flushing the same text again changes
    nothing. *)
Theorem flush_replay_dropped (d : string) (a : UIArtifact) :
  flushUpdater d (flushUpdater d a) = flushUpdater d a.
Proof.
  destruct d as [|c d].
  - assert (H0 : forall e, dedupeBuffered e "" = 0).
    { intros e. unfold dedupeBuffered. cbn. now rewrite andb_false_r. }
    unfold flushUpdater. rewrite !H0. cbn. now rewrite !append_nil_r.
  - apply flushUpdater_present; [apply flushUpdater_endsWith|discriminate].
Qed.

Section TextArtifactFacts.

Lemma join_cons (c : string) (cs : list string) :
  JS.join "" (c :: cs) = c +:+ JS.join "" cs.
Proof.
  destruct cs as [|d cs]; cbn [JS.join]; [now rewrite append_nil_r|].
  now rewrite append_nil_l.
Qed.

(** One text fragment under a text artifact and then the reducer of the
    handler with immediate deduplication. *)
Lemma handleDelta_text_once (def : ArtifactDefinition) (c : string)
    (st : ArtifactStore) :
  String.length c <= 50 ->
  def = textArtifact \/ (def = textArtifactTrim /\ JS.trim c <> "") ->
  content (current (handleDelta (Some def) (d_text_delta c) st))
  = content (current st) +:+ c.
Proof.
  intros Hc Hdef.
  assert (H : content (current (onStreamPart def (d_text_delta c) st))
              = content (current st) +:+ c).
  { destruct Hdef as [->|[-> Hb]]; [reflexivity|].
    cbn [onStreamPart textArtifactTrim].
    destruct c as [|x c]; [now destruct Hb|]. cbn [JS.truthy negb].
    destruct (JS.trim (String x c)) eqn:E; [congruence|]. reflexivity. }
  unfold handleDelta, setArtifact.
  cbn [current reduceDelta content withIsVisible withStatus withContent].
  rewrite appendDeduped_present; [exact H| |exact Hc].
  rewrite H. apply endsWith_spec. now eexists.
Qed.

End TextArtifactFacts.

(** X5.  With a text artifact definition, the handler with immediate
    deduplication appends each fragment of at most 50 characters exactly
    once, although the definition and the reducer both append it: after
    a run of text deltas the content is the old content followed by the
    fragments in order.  (The second text artifact drops blank fragments
    itself, so there the fragments are to be non-blank.) *)
Theorem text_fragments_appended_once (def : ArtifactDefinition) (cs : list string)
    (st : ArtifactStore) :
  Forall (fun c => String.length c <= 50) cs ->
  def = textArtifact \/ (def = textArtifactTrim /\ Forall (fun c => JS.trim c <> "") cs) ->
  content (current (handleDeltas (Some def) (map d_text_delta cs) st))
  = content (current st) +:+ JS.join "" cs.
Proof.
  intros Hlen Hdef. revert st.
  induction cs as [|c cs IH]; intros st.
  - cbn. now rewrite append_nil_r.
  - inversion Hlen as [|? ? Hc Hcs]; subst.
    cbn [map]. unfold handleDeltas in *. cbn [fold_left].
    rewrite IH.
    + rewrite handleDelta_text_once, join_cons, append_assoc; auto.
      destruct Hdef as [->|[-> Hb]]; [now left|right; split; auto].
      now inversion Hb.
    + exact Hcs.
    + destruct Hdef as [->|[-> Hb]]; [now left|right; split; auto].
      now inversion Hb.
Qed.

Lemma text_fragments_appended_once_witness :
  Forall (fun c => String.length c <= 50) ["The cat "; "sat"; " on the mat"]
  /\ content (current (handleDeltas (Some textArtifact)
                      (map d_text_delta ["The cat "; "sat"; " on the mat"]) None))
  = "" +:+ JS.join "" ["The cat "; "sat"; " on the mat"].
Proof.
  split; [repeat constructor; cbn; lia|].
  apply (text_fragments_appended_once textArtifact ["The cat "; "sat"; " on the mat"] None).
  - repeat constructor; cbn; lia.
  - now left.
Defined.

(** X6.  Each delta of the data stream is handled exactly once, in order: when
    the handler has processed the stream [ds1] and the stream has grown to
    [ds1 ++ ds2], the effect handles exactly [ds2]; a run on a stream
    that has not grown handles nothing.  This holds for the handler with
    immediate deduplication and for the handler without. *)
Theorem deltas_processed_once (def : option ArtifactDefinition)
    (ds1 ds2 : list DataStreamDelta) (h : StreamHandler) :
  lastProcessedIndex h = (Z.of_nat (List.length ds1) - 1)%Z ->
  let h1 := processDataStream (handleDeltas def) (Some (ds1 ++ ds2)%list) h in
  let h2 := processDataStream (handleDeltasPlain def) (Some (ds1 ++ ds2)%list) h in
  artifactCell h1 = handleDeltas def ds2 (artifactCell h)
  /\ artifactCell h2 = handleDeltasPlain def ds2 (artifactCell h)
  /\ lastProcessedIndex h1 = (Z.of_nat (List.length (ds1 ++ ds2)%list) - 1)%Z
  /\ lastProcessedIndex h2 = (Z.of_nat (List.length (ds1 ++ ds2)%list) - 1)%Z.
Proof.
  intros Hh. cbv zeta. unfold processDataStream.
  destruct (Nat.eqb_spec (List.length (ds1 ++ ds2)%list) 0) as [E|E].
  - rewrite E. apply length_zero_iff_nil in E.
    apply app_eq_nil in E as [-> ->]. cbn in Hh. cbn. auto.
  - cbn [artifactCell lastProcessedIndex]. rewrite Hh, sliceFrom_app. auto.
Qed.

Lemma deltas_processed_once_witness :
  let h := {| artifactCell := None; lastProcessedIndex := (-1)%Z |} in
  lastProcessedIndex h = (Z.of_nat (List.length (@nil DataStreamDelta)) - 1)%Z
  /\ artifactCell (processDataStream (handleDeltas None)
                     (Some ([] ++ [d_id "doc-1"; d_text_delta "a"])%list) h)
     = handleDeltas None [d_id "doc-1"; d_text_delta "a"] (artifactCell h).
Proof.
  cbv zeta. split; [reflexivity|].
  apply (deltas_processed_once None [] [d_id "doc-1"; d_text_delta "a"]
           {| artifactCell := None; lastProcessedIndex := (-1)%Z |}).
  reflexivity.
Defined.

(** X7.  The handler without deduplication leaves text to the artifact
    definition: with the text artifact the content after a run of text
    deltas is the old content followed by every fragment verbatim, of any
    length; with no definition for the artifact's kind the text deltas
    change no content. *)
Theorem plain_handler_appends_verbatim (cs : list string) (st : ArtifactStore) :
  content (current (handleDeltasPlain (Some textArtifact) (map d_text_delta cs) st))
  = content (current st) +:+ JS.join "" cs
  /\ content (current (handleDeltasPlain None (map d_text_delta cs) st))
     = content (current st).
Proof.
  split; revert st; induction cs as [|c cs IH]; intros st;
    try (cbn; now rewrite ?append_nil_r).
  - cbn [map]. unfold handleDeltasPlain in *. cbn [fold_left].
    rewrite IH, join_cons, <- append_assoc. reflexivity.
  - cbn [map]. unfold handleDeltasPlain in *. cbn [fold_left].
    rewrite IH. reflexivity.
Qed.

(** X8.  Only [text-delta] and [clear] change the content: a run of other
    deltas (id, title, kind, finish, suggestion, code, sheet and image
    deltas) leaves the content as it is, in both handlers and under each
    artifact definition of the sources. *)
Theorem other_deltas_keep_content (def : option ArtifactDefinition)
    (ds : list DataStreamDelta) (st : ArtifactStore) :
  In def sourceDefinitions ->
  Forall (fun d => d <> d_clear /\ forall c, d <> d_text_delta c) ds ->
  content (current (handleDeltas def ds st)) = content (current st)
  /\ content (current (handleDeltasPlain def ds st)) = content (current st).
Proof.
  intros Hdef Hds. revert st.
  induction Hds as [|d ds [Hc Ht] _ IH]; intros st; [now split|].
  unfold handleDeltas, handleDeltasPlain in *. cbn [fold_left].
  destruct (IH (handleDelta def d st)) as [-> _].
  destruct (IH (handleDeltaPlain def d st)) as [_ ->].
  destruct d; try congruence; try (now destruct (Ht c));
    destruct Hdef as [<-|[<-|[<-|[]]]]; split; reflexivity.
Qed.

Lemma other_deltas_keep_content_witness :
  let ds := [d_id "doc-1"; d_title "Essay"; d_kind kind_text; d_finish] in
  let st := Some (withContent "Draft" initialArtifactData) in
  In (Some textArtifact) sourceDefinitions
  /\ Forall (fun d => d <> d_clear /\ forall c, d <> d_text_delta c) ds
  /\ content (current (handleDeltas (Some textArtifact) ds st)) = content (current st).
Proof.
  cbv zeta. split; [cbn; auto|]. split; [repeat constructor; discriminate|].
  apply (other_deltas_keep_content (Some textArtifact)
           [d_id "doc-1"; d_title "Essay"; d_kind kind_text; d_finish]
           (Some (withContent "Draft" initialArtifactData))).
  - cbn; auto.
  - repeat constructor; discriminate.
Defined.

(** ** Chat messages *)

Section ChatFacts.
Import Merger Chat.

Lemma atLast_app {A : Type} (l : list A) (x : A) : atLast (l ++ [x]) = Some x.
Proof.
  induction l as [|a l IH]; [reflexivity|].
  cbn [app atLast]. rewrite IH. destruct (l ++ [x])%list eqn:E; [|reflexivity].
  now destruct l.
Qed.

Lemma atLast_None {A : Type} (l : list A) : atLast l = None <-> l = [].
Proof.
  split; [|now intros ->].
  induction l as [|a l IH]; [reflexivity|].
  cbn [atLast]. destruct l; [discriminate|]. intros H. now specialize (IH H).
Qed.

Lemma atLast_Some {A : Type} (l : list A) (x : A) :
  atLast l = Some x <-> exists l', l = (l' ++ [x])%list.
Proof.
  split.
  - destruct l as [|a l] using rev_ind; [discriminate|].
    rewrite atLast_app. intros [= ->]. now exists l.
  - intros [l' ->]. apply atLast_app.
Qed.

(** The last element that satisfies [p], with what follows it. *)
Lemma filter_last {A : Type} (p : A -> bool) (l l' : list A) (x : A) :
  List.filter p l = (l' ++ [x])%list ->
  exists pre post, l = (pre ++ x :: post)%list /\ p x = true /\ List.filter p post = [].
Proof.
  revert l'. induction l as [|a l IH] using rev_ind; intros l' H.
  - now destruct l'.
  - rewrite List.filter_app in H. cbn [List.filter] in H. destruct (p a) eqn:E.
    + apply app_inj_tail in H as [_ ->]. exists l, []. auto.
    + rewrite app_nil_r in H. destruct (IH _ H) as (pre & post & -> & Hx & Hp).
      exists pre, (post ++ [a])%list. rewrite <- app_assoc. split; [reflexivity|].
      split; [exact Hx|]. rewrite List.filter_app, Hp. cbn. now rewrite E.
Qed.

End ChatFacts.

(** X9.  [getMostRecentUserMessage] gives nothing exactly when no message has
    the role [user]; otherwise it gives the user message after which no
    user message follows. *)
Theorem most_recent_user_message (messages : list Merger.Message) :
  match Chat.getMostRecentUserMessage messages with
  | None => forall m, In m messages -> Chat.isUser m = false
  | Some m =>
      exists pre post,
        messages = (pre ++ m :: post)%list
        /\ Chat.isUser m = true
        /\ forall m', In m' post -> Chat.isUser m' = false
  end.
Proof.
  unfold Chat.getMostRecentUserMessage.
  destruct (Chat.atLast (List.filter Chat.isUser messages)) as [m|] eqn:E.
  - apply atLast_Some in E as [l' E].
    destruct (filter_last _ _ _ _ E) as (pre & post & -> & Hm & Hp).
    exists pre, post. split; [reflexivity|]. split; [exact Hm|].
    intros m' Hin. destruct (Chat.isUser m') eqn:Em; [|reflexivity].
    assert (Hf : In m' (List.filter Chat.isUser post)) by (apply List.filter_In; auto).
    rewrite Hp in Hf. destruct Hf.
  - apply atLast_None in E. intros m Hin.
    destruct (Chat.isUser m) eqn:Em; [|reflexivity].
    assert (Hf : In m (List.filter Chat.isUser messages)) by (apply List.filter_In; auto).
    rewrite E in Hf. destruct Hf.
Qed.

(** X10.  [getDocumentTimestampByIndex] with an array of [n] documents: an index
    from 0 to [n - 1] gives the [createdAt] of that document and an index
    above [n] gives the current time, but the index [n] itself (and a
    negative index) passes the bounds test and raises a [TypeError]. *)
Theorem document_timestamp_bounds (documents : list Chat.DocumentRow) (index : Z) :
  let n := Z.of_nat (List.length documents) in
  let r := Chat.getDocumentTimestampByIndex (Some documents) index in
  ((0 <= index < n)%Z ->
     exists d, nth_error documents (Z.to_nat index) = Some d
               /\ r = Chat.time_created (Chat.createdAt d))
  /\ ((n < index)%Z -> r = Chat.time_now)
  /\ ((index = n \/ index < 0)%Z -> r = Chat.time_TypeError).
Proof.
  cbv zeta. unfold Chat.getDocumentTimestampByIndex, Chat.itemAt.
  split; [|split].
  - intros [H0 Hn].
    destruct (Z.ltb_spec (Z.of_nat (List.length documents)) index) as [H|H]; [lia|].
    destruct (Z.ltb_spec index 0) as [H'|H']; [lia|].
    destruct (nth_error documents (Z.to_nat index)) as [d|] eqn:E; [eauto|].
    apply nth_error_None in E. lia.
  - intros Hn.
    destruct (Z.ltb_spec (Z.of_nat (List.length documents)) index) as [H|H]; [reflexivity|lia].
  - intros Hn.
    destruct (Z.ltb_spec (Z.of_nat (List.length documents)) index) as [H|H]; [lia|].
    destruct (Z.ltb_spec index 0) as [H'|H']; [reflexivity|].
    destruct Hn as [->|Hn]; [|lia].
    rewrite Nat2Z.id.
    destruct (nth_error documents (List.length documents)) as [d|] eqn:E; [|reflexivity].
    assert (nth_error documents (List.length documents) <> None) by congruence.
    apply nth_error_Some in H0. lia.
Qed.

Section ToolResultFacts.
Import Merger Chat.

Lemma addToolResult_id (c : list ToolResultPart) (inv : ToolInvocation) :
  toolCallId (addToolResult c inv) = toolCallId inv.
Proof. unfold addToolResult. now destruct (find _ c). Qed.

Lemma addToolResult_name (c : list ToolResultPart) (inv : ToolInvocation) :
  toolName (addToolResult c inv) = toolName inv.
Proof. unfold addToolResult. now destruct (find _ c). Qed.

Lemma addToolResult_twice (c : list ToolResultPart) (inv : ToolInvocation) :
  addToolResult c (addToolResult c inv) = addToolResult c inv.
Proof.
  unfold addToolResult at 1. rewrite addToolResult_id.
  unfold addToolResult.
  destruct (find (fun tool => String.eqb (tr_toolCallId tool) (toolCallId inv)) c);
    reflexivity.
Qed.

Lemma addToolMessageToChat_map (c : list ToolResultPart) (ms : list Message) :
  addToolMessageToChat c ms = map (withToolResults c) ms.
Proof. reflexivity. Qed.

Lemma withToolResults_twice (c : list ToolResultPart) (m : Message) :
  withToolResults c (withToolResults c m) = withToolResults c m.
Proof.
  unfold withToolResults. destruct (toolInvocations m) as [invs|] eqn:E; cbn.
  - rewrite map_map. f_equal. f_equal. apply map_ext. intros inv.
    apply addToolResult_twice.
  - now rewrite E.
Qed.

Lemma withToolResults_invocations (c : list ToolResultPart) (m : Message) :
  invocationsOf (withToolResults c m) = map (addToolResult c) (invocationsOf m).
Proof.
  unfold withToolResults, invocationsOf.
  destruct (toolInvocations m) as [invs|] eqn:E; cbn; [reflexivity|now rewrite E].
Qed.

Lemma withToolResults_fields (c : list ToolResultPart) (m : Message) :
  msg_id (withToolResults c m) = msg_id m
  /\ role (withToolResults c m) = role m
  /\ msg_content (withToolResults c m) = msg_content m
  /\ reasoning (withToolResults c m) = reasoning m.
Proof. unfold withToolResults. now destruct (toolInvocations m). Qed.

Lemma withToolResults_isAssistant (c : list ToolResultPart) (m : Message) :
  isAssistant (withToolResults c m) = isAssistant m.
Proof.
  unfold isAssistant. now destruct (withToolResults_fields c m) as (_ & -> & _).
Qed.

Lemma withToolResults_hasDocumentTools (c : list ToolResultPart) (m : Message) :
  hasDocumentTools (withToolResults c m) = hasDocumentTools m.
Proof.
  unfold hasDocumentTools, withToolResults.
  destruct (toolInvocations m) as [invs|] eqn:E; cbn; [|now rewrite E].
  clear E. induction invs as [|inv invs IH]; [reflexivity|].
  cbn [map existsb]. rewrite IH. f_equal.
  unfold isDocumentTool. now rewrite addToolResult_name.
Qed.

Lemma withToolResults_hasDocumentContent (c : list ToolResultPart) (m n : Message) :
  hasDocumentContent (withToolResults c m) (withToolResults c n)
  = hasDocumentContent m n.
Proof.
  unfold hasDocumentContent.
  destruct (withToolResults_fields c m) as (_ & _ & -> & _).
  now destruct (withToolResults_fields c n) as (_ & _ & -> & _).
Qed.

Lemma withToolResults_sanitizeMerge (c : list ToolResultPart) (m n : Message) :
  sanitizeMerge (withToolResults c m) (withToolResults c n)
  = withToolResults c (sanitizeMerge m n).
Proof.
  unfold sanitizeMerge. rewrite !withToolResults_invocations.
  destruct (withToolResults_fields c m) as (-> & -> & -> & ->).
  destruct (withToolResults_fields c n) as (_ & _ & -> & _).
  unfold withToolResults at 1. cbn [toolInvocations msg_id role msg_content reasoning].
  now rewrite map_app.
Qed.

Lemma withToolResults_convertMerge (c : list ToolResultPart) (m n : Message) :
  convertMerge (withToolResults c m) (withToolResults c n)
  = withToolResults c (convertMerge m n).
Proof.
  unfold convertMerge. rewrite !withToolResults_invocations.
  destruct (withToolResults_fields c m) as (-> & -> & -> & ->).
  destruct (withToolResults_fields c n) as (_ & _ & -> & _).
  unfold withToolResults at 1. cbn [toolInvocations msg_id role msg_content reasoning].
  now rewrite map_app.
Qed.

Lemma mergeAdjacent_map (f : Message -> Message)
    (shouldMerge : Message -> Message -> bool)
    (merge2 : Message -> Message -> Message) :
  (forall m n, shouldMerge (f m) (f n) = shouldMerge m n) ->
  (forall m n, merge2 (f m) (f n) = f (merge2 m n)) ->
  forall l, mergeAdjacent shouldMerge merge2 (map f l)
            = map f (mergeAdjacent shouldMerge merge2 l).
Proof.
  intros Hs Hm l.
  induction l as [| a | a b l IHl IHbl] using list_ind2; try reflexivity.
  cbn [map] in *. rewrite !mergeAdjacent_eq, Hs.
  destruct (shouldMerge a b); cbn [map]; [now rewrite Hm, IHl|now rewrite IHbl].
Qed.

End ToolResultFacts.

(** X11.  [addToolMessageToChat] keeps every message in its place with its id,
    role and text and every tool invocation with its call id and tool
    name; an invocation whose call id the tool message answers gets the
    state [result] and the first such answer; and applying the same tool
    message again changes nothing. *)
Theorem tool_results_attached_once (toolMessage : list Chat.ToolResultPart)
    (messages : list Merger.Message) :
  let out := Chat.addToolMessageToChat toolMessage messages in
  Chat.addToolMessageToChat toolMessage out = out
  /\ map Merger.msg_id out = map Merger.msg_id messages
  /\ map Merger.role out = map Merger.role messages
  /\ map Merger.msg_content out = map Merger.msg_content messages
  /\ map (fun m => map (fun inv => (Merger.toolCallId inv, Merger.toolName inv))
                       (Merger.invocationsOf m)) out
     = map (fun m => map (fun inv => (Merger.toolCallId inv, Merger.toolName inv))
                         (Merger.invocationsOf m)) messages
  /\ forall m inv r,
       In m out -> In inv (Merger.invocationsOf m) ->
       find (fun tool => String.eqb (Chat.tr_toolCallId tool) (Merger.toolCallId inv))
            toolMessage = Some r ->
       Merger.inv_state inv = Merger.state_result
       /\ Merger.result inv = Some (Chat.tr_result r).
Proof.
  cbv zeta. rewrite !addToolMessageToChat_map.
  split; [|split; [|split; [|split; [|split]]]].
  - rewrite map_map. apply map_ext. intros m. apply withToolResults_twice.
  - rewrite map_map. apply map_ext. intros m.
    now destruct (withToolResults_fields toolMessage m) as (-> & _).
  - rewrite map_map. apply map_ext. intros m.
    now destruct (withToolResults_fields toolMessage m) as (_ & -> & _).
  - rewrite map_map. apply map_ext. intros m.
    now destruct (withToolResults_fields toolMessage m) as (_ & _ & -> & _).
  - rewrite map_map. apply map_ext. intros m.
    rewrite withToolResults_invocations, map_map. apply map_ext. intros inv.
    now rewrite addToolResult_id, addToolResult_name.
  - intros m inv r Hm Hinv Hr.
    apply in_map_iff in Hm as (m0 & <- & _).
    rewrite withToolResults_invocations in Hinv.
    apply in_map_iff in Hinv as (inv0 & <- & _).
    rewrite addToolResult_id in Hr. unfold Chat.addToolResult. now rewrite Hr.
Qed.

(** X12.  Attaching tool results and merging commute, for both merging passes:
    the merge decisions read roles, texts and tool names only, none of
    which a tool message changes. *)
Theorem merging_commutes_with_tool_results (toolMessage : list Chat.ToolResultPart)
    (messages : list Merger.Message) :
  Merger.mergeDocumentMessages (Chat.addToolMessageToChat toolMessage messages)
  = Chat.addToolMessageToChat toolMessage (Merger.mergeDocumentMessages messages)
  /\ Merger.sanitizeUIMessages (Chat.addToolMessageToChat toolMessage messages)
     = Chat.addToolMessageToChat toolMessage (Merger.sanitizeUIMessages messages).
Proof.
  rewrite !addToolMessageToChat_map, !convert_scheme, !sanitize_scheme. split.
  - apply mergeAdjacent_map.
    + intros m n. unfold Merger.convertShould.
      now rewrite !withToolResults_isAssistant, !withToolResults_hasDocumentTools.
    + apply withToolResults_convertMerge.
  - apply mergeAdjacent_map.
    + intros m n. unfold Merger.sanitizeShould.
      now rewrite !withToolResults_isAssistant, !withToolResults_hasDocumentTools,
        withToolResults_hasDocumentContent.
    + apply withToolResults_sanitizeMerge.
Qed.

Section ConvertFacts.
Import Merger Chat.

Lemma processMessages_fold (messages : list DBMessage) :
  processMessages messages = fold_left processMessage messages [].
Proof. reflexivity. Qed.

Lemma fold_processMessage (later : list DBMessage) (chat : list Message) :
  fold_left processMessage later chat
  = (afterLater later chat ++ fold_left processMessage later [])%list.
Proof.
  revert chat. induction later as [|m later IH] using rev_ind; intros chat.
  - cbn. now rewrite app_nil_r.
  - unfold afterLater. rewrite !fold_left_app. cbn [fold_left].
    fold (afterLater later chat). rewrite IH.
    destruct m as [id c|id r c]; cbn [Chat.processMessage].
    + rewrite !addToolMessageToChat_map, map_app. f_equal.
    + now rewrite app_assoc.
Qed.

Lemma afterLater_fields (later : list DBMessage) (chat : list Message) :
  map msg_id (afterLater later chat) = map msg_id chat
  /\ map role (afterLater later chat) = map role chat
  /\ map msg_content (afterLater later chat) = map msg_content chat.
Proof.
  revert chat. induction later as [|m later IH]; intros chat; [auto|].
  unfold afterLater. cbn [fold_left]. destruct m as [id c|id r c].
  - fold (afterLater later (addToolMessageToChat c chat)).
    destruct (IH (addToolMessageToChat c chat)) as (-> & -> & ->).
    rewrite addToolMessageToChat_map, !map_map.
    repeat split; apply map_ext; intros m;
      destruct (withToolResults_fields c m) as (H1 & H2 & H3 & _); congruence.
  - apply IH.
Qed.

End ConvertFacts.

Section ConvertOrder.
Import Merger Chat.

(** The id, the role and the text of the chat messages after one step of
    the [reduce]. *)
Lemma processMessage_fields (chatMessages : list Message) (message : DBMessage) :
  map (fun m => (msg_id m, role m, msg_content m)) (processMessage chatMessages message)
  = (map (fun m => (msg_id m, role m, msg_content m)) chatMessages
     ++ match message with
        | db_tool _ _ => []
        | db_message id r content =>
            [(id, r, msg_content (toUIMessage id r content))]
        end)%list.
Proof.
  destruct message as [id c|id r c]; cbn [processMessage].
  - rewrite app_nil_r, addToolMessageToChat_map, map_map. apply map_ext. intros m.
    destruct (withToolResults_fields c m) as (H1 & H2 & H3 & _). congruence.
  - rewrite map_app. cbn [map]. now destruct c.
Qed.

Lemma processMessages_fields (messages : list DBMessage) :
  map (fun m => (msg_id m, role m, msg_content m)) (processMessages messages)
  = flat_map (fun message =>
                match message with
                | db_tool _ _ => []
                | db_message id r content =>
                    [(id, r, msg_content (toUIMessage id r content))]
                end) messages.
Proof.
  rewrite processMessages_fold.
  induction messages as [|m l IH] using rev_ind; [reflexivity|].
  rewrite fold_left_app, flat_map_app. cbn [fold_left flat_map].
  now rewrite processMessage_fields, IH, app_nil_r.
Qed.

Lemma map_filter_fields (l : list Message) :
  map (fun m => (msg_id m, role m, msg_content m)) (List.filter notAssistant l)
  = List.filter (fun f => match snd (fst f) with role_assistant => false | _ => true end)
      (map (fun m => (msg_id m, role m, msg_content m)) l).
Proof.
  induction l as [|m l IH]; [reflexivity|].
  cbn [List.filter map fst snd]. unfold notAssistant at 1, isAssistant.
  destruct (role m) eqn:E; cbn [negb map]; rewrite ?E, IH; reflexivity.
Qed.

Lemma filter_flat_map {A B : Type} (p : B -> bool) (g : A -> list B) (l : list A) :
  List.filter p (flat_map g l) = flat_map (fun a => List.filter p (g a)) l.
Proof.
  induction l as [|a l IH]; [reflexivity|].
  cbn [flat_map]. now rewrite List.filter_app, IH.
Qed.

End ConvertOrder.

(** X13.  The first pass of [convertToUIMessages] makes exactly one chat message
    of every stored message that is no tool message, in the stored order,
    with the id, the role and the normalized text of that message; a tool
    message makes none. *)
Theorem stored_messages_converted_in_order (messages : list Chat.DBMessage) :
  map (fun m => (Merger.msg_id m, Merger.role m, Merger.msg_content m))
      (Chat.processMessages messages)
  = flat_map (fun message =>
                match message with
                | Chat.db_tool _ _ => []
                | Chat.db_message id r content =>
                    [(id, r, Merger.msg_content (Chat.toUIMessage id r content))]
                end) messages.
Proof.
  unfold Chat.processMessages.
  induction messages as [|m l IH] using rev_ind; [reflexivity|].
  rewrite fold_left_app, flat_map_app. cbn [fold_left flat_map].
  rewrite processMessage_fields, IH, app_nil_r.
  reflexivity.
Qed.

(** X14.  A tool message reaches the messages stored before it only: the chat
    messages made of the stored messages [later] are the same whatever
    was stored before them, and the earlier chat messages come first,
    with the tool messages of [later] applied.  So a tool message stored
    before every other message is lost. *)
Theorem tool_results_reach_earlier_messages_only (earlier later : list Chat.DBMessage) :
  Chat.processMessages (earlier ++ later)
  = (Chat.afterLater later (Chat.processMessages earlier)
     ++ Chat.processMessages later)%list
  /\ forall id content,
       Chat.processMessages (Chat.db_tool id content :: later)
       = Chat.processMessages later.
Proof.
  split.
  - rewrite !processMessages_fold, fold_left_app. apply fold_processMessage.
  - intros id content. reflexivity.
Qed.

Section MergeKeeps.
Import Merger Chat.

Section KeepsScheme.
Variable shouldMerge : Message -> Message -> bool.
Variable merge2 : Message -> Message -> Message.
Hypothesis shouldMerge_assistants :
  forall m n, shouldMerge m n = true -> isAssistant m = true /\ isAssistant n = true.
Hypothesis merge2_role : forall m n, isAssistant (merge2 m n) = isAssistant m.
Hypothesis merge2_invocations :
  forall m n, invocationsOf (merge2 m n) = (invocationsOf m ++ invocationsOf n)%list.
Hypothesis merge2_id : forall m n, msg_id (merge2 m n) = msg_id m.

Lemma merge_keeps_others (l : list Message) :
  List.filter notAssistant (mergeAdjacent shouldMerge merge2 l)
  = List.filter notAssistant l.
Proof.
  induction l as [| a | a b l IHl IHbl] using list_ind2; try reflexivity.
  rewrite mergeAdjacent_eq. destruct (shouldMerge a b) eqn:E.
  - apply shouldMerge_assistants in E as [Ha Hb].
    assert (H1 : notAssistant (merge2 a b) = false)
      by (unfold notAssistant; now rewrite merge2_role, Ha).
    assert (H2 : notAssistant a = false) by (unfold notAssistant; now rewrite Ha).
    assert (H3 : notAssistant b = false) by (unfold notAssistant; now rewrite Hb).
    cbn [List.filter]. now rewrite H1, H2, H3.
  - cbn [List.filter] in *. now rewrite IHbl.
Qed.

Lemma merge_keeps_invocations (l : list Message) :
  flat_map invocationsOf (mergeAdjacent shouldMerge merge2 l)
  = flat_map invocationsOf l.
Proof.
  induction l as [| a | a b l IHl IHbl] using list_ind2; try reflexivity.
  rewrite mergeAdjacent_eq. destruct (shouldMerge a b) eqn:E.
  - cbn [flat_map]. now rewrite merge2_invocations, IHl, app_assoc.
  - cbn [flat_map] in *. now rewrite IHbl.
Qed.

Lemma merge_length (l : list Message) :
  List.length (mergeAdjacent shouldMerge merge2 l) <= List.length l
  /\ List.length l <= 2 * List.length (mergeAdjacent shouldMerge merge2 l).
Proof.
  induction l as [| a | a b l IHl IHbl] using list_ind2; try (cbn; lia).
  rewrite mergeAdjacent_eq. destruct (shouldMerge a b); cbn [List.length] in *; lia.
Qed.

Lemma noAdjacent_settled (l : list Message) :
  noAdjacentAssistants l = true -> settled shouldMerge l = true.
Proof.
  induction l as [| a | a b l IHl IHbl] using list_ind2; try reflexivity.
  change (negb (isAssistant a && isAssistant b) && noAdjacentAssistants (b :: l) = true
          -> negb (shouldMerge a b) && settled shouldMerge (b :: l) = true).
  intros [Hab Hrest]%andb_true_iff. rewrite (IHbl Hrest), andb_true_r.
  destruct (shouldMerge a b) eqn:E; [|reflexivity].
  apply shouldMerge_assistants in E as [Ha Hb]. now rewrite Ha, Hb in Hab.
Qed.

End KeepsScheme.

Lemma sanitizeShould_assistants (m n : Message) :
  sanitizeShould m n = true -> isAssistant m = true /\ isAssistant n = true.
Proof.
  unfold sanitizeShould. intros E.
  apply andb_true_iff in E as [E _]. now apply andb_true_iff in E.
Qed.

Lemma convertShould_assistants (m n : Message) :
  convertShould m n = true -> isAssistant m = true /\ isAssistant n = true.
Proof.
  unfold convertShould. intros E.
  apply andb_true_iff in E as [E _]. now apply andb_true_iff in E.
Qed.

End MergeKeeps.

(** X15.  Neither merging pass drops, reorders or alters a message that is not
    from the assistant, and neither returns more messages than it was
    given or fewer than half of them. *)
Theorem merging_keeps_other_roles (messages : list Merger.Message) :
  let keeps (out : list Merger.Message) :=
    List.filter Chat.notAssistant out = List.filter Chat.notAssistant messages
    /\ List.length out <= List.length messages
    /\ List.length messages <= 2 * List.length out in
  keeps (Merger.sanitizeUIMessages messages)
  /\ keeps (Merger.mergeDocumentMessages messages).
Proof.
  cbv zeta beta. rewrite sanitize_scheme, convert_scheme.
  split; (split; [|apply merge_length]).
  - apply merge_keeps_others; [apply sanitizeShould_assistants|reflexivity].
  - apply merge_keeps_others; [apply convertShould_assistants|reflexivity].
Qed.

(** X16.  Neither merging pass loses, duplicates or reorders a tool invocation:
    the invocations of all messages, read in order, are the same before
    and after. *)
Theorem merging_keeps_tool_invocations (messages : list Merger.Message) :
  flat_map Merger.invocationsOf (Merger.sanitizeUIMessages messages)
  = flat_map Merger.invocationsOf messages
  /\ flat_map Merger.invocationsOf (Merger.mergeDocumentMessages messages)
     = flat_map Merger.invocationsOf messages.
Proof.
  rewrite sanitize_scheme, convert_scheme.
  split; apply merge_keeps_invocations; reflexivity.
Qed.

(** X17.  A conversation in which no two assistant messages are neighbours
    comes back from both merging passes exactly as it was. *)
Theorem merging_leaves_alternating_conversation (messages : list Merger.Message) :
  Chat.noAdjacentAssistants messages = true ->
  Merger.sanitizeUIMessages messages = messages
  /\ Merger.mergeDocumentMessages messages = messages.
Proof.
  intros H. rewrite sanitize_scheme, convert_scheme.
  split; apply settled_fixed.
  - apply noAdjacent_settled; [apply sanitizeShould_assistants|exact H].
  - apply noAdjacent_settled; [apply convertShould_assistants|exact H].
Qed.

Lemma merging_leaves_alternating_conversation_witness :
  let u := {| Merger.msg_id := "m1"; Merger.role := Merger.role_user;
              Merger.msg_content := "Write an essay"; Merger.reasoning := None;
              Merger.toolInvocations := None |} in
  let a := {| Merger.msg_id := "m2"; Merger.role := Merger.role_assistant;
              Merger.msg_content := "I have created a short document";
              Merger.reasoning := None;
              Merger.toolInvocations := None |} in
  Chat.noAdjacentAssistants [u; a; u; a] = true
  /\ Merger.sanitizeUIMessages [u; a; u; a] = [u; a; u; a].
Proof.
  cbv zeta. split; [reflexivity|].
  eapply merging_leaves_alternating_conversation. reflexivity.
Defined.

(** X18.  [convertToUIMessages] as a whole: every stored message that is
    neither a tool message nor from the assistant comes out exactly once,
    in the stored order, with its id, its role and its normalized text,
    whatever is merged around it; and the tool invocations of the result
    are those of the first pass, in order. *)
Theorem converted_conversation_keeps_other_roles (messages : list Chat.DBMessage) :
  map (fun m => (Merger.msg_id m, Merger.role m, Merger.msg_content m))
      (List.filter Chat.notAssistant (Chat.convertToUIMessages messages))
  = flat_map (fun message =>
                match message with
                | Chat.db_tool _ _ => []
                | Chat.db_message id Merger.role_assistant content => []
                | Chat.db_message id r content =>
                    [(id, r, Merger.msg_content (Chat.toUIMessage id r content))]
                end) messages
  /\ flat_map Merger.invocationsOf (Chat.convertToUIMessages messages)
     = flat_map Merger.invocationsOf (Chat.processMessages messages).
Proof.
  unfold Chat.convertToUIMessages. rewrite convert_scheme. split.
  - rewrite (merge_keeps_others Merger.convertShould Merger.convertMerge
               convertShould_assistants (fun _ _ => eq_refl)).
    rewrite map_filter_fields, processMessages_fields, filter_flat_map.
    apply flat_map_ext. intros [id c|id r c]; [reflexivity|].
    cbn [List.filter fst snd]. now destruct r.
  - apply merge_keeps_invocations. reflexivity.
Qed.

Section ResponseFacts.
Import Merger Chat.

Lemma sanitizeResponseMessages_eq (ms : list ResponseMessage) (reasoning : option string) :
  sanitizeResponseMessages ms reasoning
  = List.filter hasContent (map (sanitizeContent (toolResultIdsOf ms) reasoning) ms).
Proof. reflexivity. Qed.

Lemma toolResultIds_kept (ids : list string) (reasoning : option string)
    (ms : list ResponseMessage) :
  toolResultIdsOf (List.filter hasContent (map (sanitizeContent ids reasoning) ms))
  = toolResultIdsOf ms.
Proof.
  induction ms as [|m ms IH]; [reflexivity|].
  cbn [map List.filter].
  destruct (hasContent (sanitizeContent ids reasoning m)) eqn:E.
  - unfold toolResultIdsOf in *. cbn [flat_map]. rewrite IH. f_equal.
    destruct m as [id c|id [s|ps]]; reflexivity.
  - rewrite IH. unfold toolResultIdsOf. cbn [flat_map].
    destruct m as [id c|id [s|ps]]; try reflexivity.
    cbn in E. destruct c; [reflexivity|discriminate].
Qed.

Lemma existsb_eqb_In (id : string) (ids : list string) :
  existsb (String.eqb id) ids = true -> In id ids.
Proof.
  intros H. apply existsb_exists in H as (x & Hin & Hx).
  apply String.eqb_eq in Hx. now subst.
Qed.

Lemma sanitized_part (ids : list string) (reasoning : option string)
    (m : ResponseMessage) (id : string) (ps : list MessagePart) (p : MessagePart) :
  sanitizeContent ids reasoning m = resp_assistant id (content_parts ps) ->
  In p ps ->
  match p with
  | part_tool_call tid _ _ => In tid ids
  | part_text t => t <> ""
  | _ => True
  end.
Proof.
  destruct m as [i c|i [s|ps0]]; try discriminate.
  cbn [sanitizeContent]. intros [= _ <-] Hin.
  assert (Hk : In p (List.filter (keepPart ids) ps0)
               \/ exists r, p = part_reasoning r).
  { destruct reasoning as [r|]; [|now left].
    destruct (JS.truthy r); [|now left].
    apply in_app_or in Hin as [Hin|[<-|[]]]; [now left|right; eauto]. }
  destruct Hk as [Hk|[r ->]]; [|exact I].
  apply List.filter_In in Hk as [_ Hk].
  destruct p as [t|tid nm a|r|j]; try exact I.
  - cbn in Hk. destruct t; [discriminate|discriminate].
  - now apply existsb_eqb_In.
Qed.

Lemma filter_keepPart_twice (ids : list string) (ps : list MessagePart) :
  List.filter (keepPart ids) (List.filter (keepPart ids) ps)
  = List.filter (keepPart ids) ps.
Proof.
  induction ps as [|p ps IH]; [reflexivity|].
  cbn [List.filter]. destruct (keepPart ids p) eqn:E; [|exact IH].
  cbn [List.filter]. now rewrite E, IH.
Qed.

Lemma sanitizeContent_twice (ids : list string) (m : ResponseMessage) :
  sanitizeContent ids None (sanitizeContent ids None m) = sanitizeContent ids None m.
Proof.
  destruct m as [i c|i [s|ps]]; try reflexivity.
  cbn [sanitizeContent]. now rewrite filter_keepPart_twice.
Qed.

Lemma sanitize_pass_twice (ids : list string) (ms : list ResponseMessage) :
  List.filter hasContent
    (map (sanitizeContent ids None)
       (List.filter hasContent (map (sanitizeContent ids None) ms)))
  = List.filter hasContent (map (sanitizeContent ids None) ms).
Proof.
  induction ms as [|m ms IH]; [reflexivity|].
  cbn [map List.filter].
  destruct (hasContent (sanitizeContent ids None m)) eqn:E; [|exact IH].
  cbn [map List.filter]. now rewrite sanitizeContent_twice, E, IH.
Qed.

End ResponseFacts.

(** X19.  What [sanitizeResponseMessages] returns holds no message with empty
    content, no empty text part and no dangling tool call: every
    tool-call part that is left has its call id among the tool results of
    the returned tool messages, which are the tool results of the
    input. *)
Theorem sanitized_response_is_complete (messages : list Chat.ResponseMessage)
    (reasoning : option string) :
  let out := Chat.sanitizeResponseMessages messages reasoning in
  Chat.toolResultIdsOf out = Chat.toolResultIdsOf messages
  /\ (forall m, In m out -> Chat.hasContent m = true)
  /\ forall id parts part,
       In (Chat.resp_assistant id (Chat.content_parts parts)) out ->
       In part parts ->
       match part with
       | Chat.part_tool_call toolCallId _ _ => In toolCallId (Chat.toolResultIdsOf out)
       | Chat.part_text text => text <> ""
       | _ => True
       end.
Proof.
  cbv zeta. rewrite sanitizeResponseMessages_eq, toolResultIds_kept.
  split; [reflexivity|]. split.
  - intros m Hin. now apply List.filter_In in Hin.
  - intros id parts part Hin Hp.
    apply List.filter_In in Hin as [Hin _].
    apply in_map_iff in Hin as (m0 & Hm0 & _).
    exact (sanitized_part _ _ _ _ _ _ Hm0 Hp).
Qed.

(** X20.  Without reasoning to add, [sanitizeResponseMessages] is idempotent. *)
Theorem sanitize_response_idempotent (messages : list Chat.ResponseMessage) :
  Chat.sanitizeResponseMessages (Chat.sanitizeResponseMessages messages None) None
  = Chat.sanitizeResponseMessages messages None.
Proof.
  rewrite !sanitizeResponseMessages_eq, toolResultIds_kept.
  apply sanitize_pass_twice.
Qed.

(** ** The document handlers: the client channel, the locks and the drafts *)

Section HandlerRuns.
Import Server Channel.

Section StreamFacts.








End StreamFacts.

Section ProtocolFacts.



End ProtocolFacts.


Section UpdateFacts.

Lemma textOf_cons (p : StreamPart) (ps : list StreamPart) :
  textOf (p :: ps)
  = match p with text_delta_part t => t | other_part => "" end +:+ textOf ps.
Proof.
  unfold textOf. cbn [flat_map]. destruct p as [t|]; cbn [app].
  - apply join_cons.
  - now rewrite append_nil_l.
Qed.




Lemma streamText_stores (w : World) :
  updateLocks (snd (streamText w)) = updateLocks w
  /\ documents (snd (streamText w)) = documents w.
Proof. unfold streamText. now destruct (provider w). Qed.

(** What an update of a code or sheet document leaves of the stores. *)
Lemma update_run_stores (config : HandlerConfig) (document : Document) (w : World) :
  In config [codeDocumentHandler; sheetDocumentHandler] ->
  updateLocks (snd (cfg_onUpdateDocument config document w)) = updateLocks w
  /\ documents (snd (cfg_onUpdateDocument config document w)) = documents w.
Proof.
  intros [<-|[<-|[]]];
    cbn [cfg_onUpdateDocument codeDocumentHandler sheetDocumentHandler].
  - unfold codeOnUpdateDocument.
    destruct (streamText_stores w) as (Hl & Hd).
    destruct (streamText w) as [s w0]. cbn [snd] in Hl, Hd.
    match goal with
    | |- context [fold_left ?f ?ps (?l, ?w0)] =>
        pose proof (fold_sameStores _ f ps l w0 (codeUpdateStep_sameStores _)) as Hs;
        destruct (fold_left f ps (l, w0)) as [l1 w1]
    end.
    destruct Hs as (H1 & H2 & _). cbn [snd] in H1, H2.
    destruct (ending s); cbn [snd]; [|split; congruence].
    destruct (_ && _); cbn [writeData updateLocks documents]; split; congruence.
  - unfold sheetOnUpdateDocument, sheetRun.
    destruct (streamText_stores w) as (Hl & Hd).
    destruct (streamText w) as [s w0]. cbn [snd] in Hl, Hd.
    match goal with
    | |- context [fold_left sheetStep ?ps (?l, ?w0)] =>
        pose proof (fold_sameStores _ sheetStep ps l w0 sheetStep_sameStores) as Hs;
        destruct (fold_left sheetStep ps (l, w0)) as [l1 w1]
    end.
    destruct Hs as (H1 & H2 & _). cbn [snd] in H1, H2.
    destruct (ending s); cbn [snd]; [|split; congruence].
    destruct (Nat.ltb 0 (String.length (s_buffer l1)));
      [destruct (Nat.ltb 0 _)|];
      cbn [writeData updateLocks documents]; split; congruence.
Qed.

End UpdateFacts.

(** X22.  An update of a code or sheet document that finds the document
    unlocked is never skipped and never leaves a lock behind, whatever
    the provider's stream does: afterwards the lock map is the old one
    without the document's id, so the locks of other documents are as
    they were, and the next update of the document will run. *)
Theorem update_leaves_no_lock (config : Server.HandlerConfig)
    (document : Server.Document) (userId : option string) (w : Server.World) :
  In config [Server.codeDocumentHandler; Server.sheetDocumentHandler] ->
  Server.isLocked (Server.doc_id document) w = false ->
  let r := Server.onUpdateDocument config document userId w in
  fst r <> Server.skipped
  /\ Server.updateLocks (snd r) = delete (Server.doc_id document) (Server.updateLocks w)
  /\ Server.isLocked (Server.doc_id document) (snd r) = false.
Proof.
  intros Hcfg Hlock. cbv zeta. unfold onUpdateDocument. rewrite Hlock.
  destruct (update_run_stores config document (setLock (doc_id document) w) Hcfg)
    as [Hl _].
  assert (Hd : forall w', updateLocks w' = updateLocks (setLock (doc_id document) w) ->
             updateLocks (deleteLock (doc_id document) w')
             = delete (doc_id document) (updateLocks w)).
  { intros w' E. unfold deleteLock. cbn [updateLocks]. rewrite E.
    unfold setLock. cbn [updateLocks]. apply delete_insert_eq. }
  destruct (cfg_onUpdateDocument config document (setLock (doc_id document) w))
    as [[c|] w1]; cbn [snd] in Hl.
  - destruct userId as [u|]; cbn [fst snd].
    + split; [discriminate|]. split.
      * apply Hd. exact Hl.
      * unfold isLocked, deleteLock. cbn [updateLocks]. now rewrite lookup_delete_eq.
    + split; [discriminate|]. split.
      * apply Hd. exact Hl.
      * unfold isLocked, deleteLock. cbn [updateLocks]. now rewrite lookup_delete_eq.
  - cbn [fst snd]. split; [discriminate|]. split.
    + apply Hd. exact Hl.
    + unfold isLocked, deleteLock. cbn [updateLocks]. now rewrite lookup_delete_eq.
Qed.

Lemma update_leaves_no_lock_witness :
  let old := {| Server.doc_id := "doc-1"; Server.doc_title := "Prices";
                Server.doc_kind := kind_sheet; Server.doc_content := "a,b";
                Server.doc_userId := "user-1" |} in
  let s := {| Server.parts := [Server.text_delta_part "a,b,c"];
              Server.ending := Server.ends_normally |} in
  let w := {| Server.updateLocks := {[ "doc-2" := true ]};
              Server.documents := {[ "doc-1" := old ]};
              Server.provider := [s]; Server.written := [] |} in
  In Server.sheetDocumentHandler [Server.codeDocumentHandler; Server.sheetDocumentHandler]
  /\ Server.isLocked "doc-1" w = false
  /\ Server.isLocked "doc-1"
       (snd (Server.onUpdateDocument Server.sheetDocumentHandler old (Some "user-1") w))
     = false.
Proof.
  cbv zeta. split; [simpl; auto|]. split; [reflexivity|].
  eapply update_leaves_no_lock; [simpl; auto|reflexivity].
Defined.



Section SheetDraft.

Lemma withoutSpaces_app (a b : string) :
  withoutSpaces (a +:+ b) = withoutSpaces a +:+ withoutSpaces b.
Proof.
  induction a as [|c a IH]; [now rewrite !append_nil_l|].
  rewrite append_cons. cbn [withoutSpaces].
  destruct (Ascii.eqb c " "); [exact IH|]. now rewrite append_cons, IH.
Qed.

(** What one step of the sheet loop does to the draft: the fragment is
    appended, after a space or not; no space once the header has been
    received. *)
Lemma sheetStep_draft (l : SheetLoop) (w : World) (delta : StreamPart) :
  exists pad,
    (pad = "" \/ (pad = " " /\ s_headerReceived l = false))
    /\ s_draftContent (fst (sheetStep (l, w) delta))
       = s_draftContent l +:+ pad
         +:+ match delta with text_delta_part t => t | other_part => "" end
    /\ (s_headerReceived l = true ->
        s_headerReceived (fst (sheetStep (l, w) delta)) = true).
Proof.
  unfold sheetStep. destruct delta as [t|].
  2:{ exists "". rewrite !append_nil_r. auto. }
  match goal with
  | |- context [s_draftContent l +:+ (if ?c then " " else "") +:+ t] =>
      remember c as padded eqn:Epad
  end.
  exists (if padded then " " else ""). split; [|split].
  - destruct padded; [right|now left]. split; [reflexivity|].
    symmetry in Epad. repeat (apply andb_true_iff in Epad as [Epad ?]).
    now apply negb_true_iff.
  - clear Epad. destruct (_ && _); reflexivity.
  - clear Epad. intros Hh.
    destruct (_ && _); cbn [fst s_headerReceived]; now rewrite Hh.
Qed.

Lemma sheet_fold_draft (ps : list StreamPart) (l : SheetLoop) (w : World) :
  withoutSpaces (s_draftContent (fst (fold_left sheetStep ps (l, w))))
  = withoutSpaces (s_draftContent l +:+ textOf ps)
  /\ (s_headerReceived l = true ->
      s_draftContent (fst (fold_left sheetStep ps (l, w)))
      = s_draftContent l +:+ textOf ps).
Proof.
  revert l w. induction ps as [|p ps IH]; intros l w.
  - unfold textOf. cbn. now rewrite append_nil_r.
  - cbn [fold_left].
    destruct (sheetStep_draft l w p) as (pad & Hpad & Hd & Hh).
    destruct (sheetStep (l, w) p) as [l1 w1]. cbn [fst] in Hd, Hh.
    destruct (IH l1 w1) as [IH1 IH2]. rewrite textOf_cons. split.
    + rewrite IH1, Hd, !withoutSpaces_app.
      destruct Hpad as [->|[-> _]]; cbn [withoutSpaces Ascii.eqb];
        now rewrite ?append_nil_r, ?append_assoc.
    + intros Hl. rewrite (IH2 (Hh Hl)), Hd.
      destruct Hpad as [->|[_ Hf]]; [|congruence].
      now rewrite append_nil_l, append_assoc.
Qed.

End SheetDraft.

(** X24.  The draft that the sheet handler returns, which is what gets saved,
    is the text of the provider's stream with single spaces put between
    some fragments: apart from spaces the two are equal, no character is
    lost or moved.  When the first fragment already holds a line feed no
    space is put in and the draft is the text of the stream. *)
Theorem sheet_draft_keeps_stream_text (w : Server.World)
    (s : Server.FragmentStream) (q : list Server.FragmentStream) :
  Server.provider w = s :: q ->
  Server.ending s = Server.ends_normally ->
  exists draft,
    fst (Server.sheetOnCreateDocument w) = Server.resolved draft
    /\ Channel.withoutSpaces draft
       = Channel.withoutSpaces (Channel.textOf (Server.parts s))
    /\ forall t ps,
         Server.parts s = Server.text_delta_part t :: ps ->
         JS.includes t JS.NL = true ->
         draft = Channel.textOf (Server.parts s).
Proof.
  intros Hp He. unfold sheetOnCreateDocument, sheetRun, streamText. rewrite Hp.
  match goal with
  | |- context [fold_left sheetStep ?ps (?l, ?w0)] =>
      pose proof (sheet_fold_draft ps l w0) as [H1 _];
      pose proof (fun t ps' (E : ps = text_delta_part t :: ps') => E) as Hparts;
      destruct (fold_left sheetStep ps (l, w0)) as [l1 w1] eqn:Efold
  end.
  rewrite He. cbn [fst] in *. exists (s_draftContent l1).
  split; [reflexivity|]. split; [now rewrite H1, append_nil_l|].
  intros t ps Eps Hnl. rewrite Eps in Efold. cbn [fold_left] in Efold.
  match type of Efold with
  | fold_left sheetStep ps (sheetStep (?l0, ?w0) _) = _ =>
      destruct (sheetStep_draft l0 w0 (text_delta_part t)) as (pad & _ & _ & _);
      assert (Hstep : s_draftContent (fst (sheetStep (l0, w0) (text_delta_part t))) = t
                      /\ s_headerReceived (fst (sheetStep (l0, w0) (text_delta_part t)))
                         = true)
  end.
  { unfold sheetStep. cbn [s_draftContent s_buffer s_headerReceived String.length].
    rewrite andb_false_r. cbn [andb]. rewrite !append_nil_l, Hnl.
    destruct (_ && _); cbn [fst s_draftContent s_headerReceived]; auto. }
  destruct (sheetStep _ (text_delta_part t)) as [l2 w2]. cbn [fst] in Hstep.
  destruct Hstep as [Hd Hh].
  destruct (sheet_fold_draft ps l2 w2) as [_ H2]. rewrite Efold in H2. cbn [fst] in H2.
  rewrite (H2 Hh), Hd, Eps, textOf_cons. reflexivity.
Qed.

Lemma sheet_draft_keeps_stream_text_witness :
  let s := {| Server.parts := [Server.text_delta_part "name,a";
                               Server.text_delta_part ("ge" +:+ JS.NL +:+ "Ann,31")];
              Server.ending := Server.ends_normally |} in
  let w := {| Server.updateLocks := ∅; Server.documents := ∅;
              Server.provider := [s]; Server.written := [] |} in
  Server.provider w = [s]
  /\ Server.ending s = Server.ends_normally
  /\ exists draft,
       fst (Server.sheetOnCreateDocument w) = Server.resolved draft
       /\ Channel.withoutSpaces draft
          = Channel.withoutSpaces (Channel.textOf (Server.parts s)).
Proof.
  cbv zeta. split; [reflexivity|]. split; [reflexivity|].
  destruct (sheet_draft_keeps_stream_text
              {| Server.updateLocks := ∅; Server.documents := ∅;
                 Server.provider :=
                   [{| Server.parts :=
                         [Server.text_delta_part "name,a";
                          Server.text_delta_part ("ge" +:+ JS.NL +:+ "Ann,31")];
                       Server.ending := Server.ends_normally |}];
                 Server.written := [] |}
              {| Server.parts :=
                   [Server.text_delta_part "name,a";
                    Server.text_delta_part ("ge" +:+ JS.NL +:+ "Ann,31")];
                 Server.ending := Server.ends_normally |}
              [] eq_refl eq_refl) as (draft & H1 & H2 & _).
  exists draft. split; [exact H1|exact H2].
Defined.



End HandlerRuns.

(** ** The code decoder: trimmed code *)

Section TrimMore.

Lemma trimStart_idem (s : string) : JS.trimStart (JS.trimStart s) = JS.trimStart s.
Proof.
  induction s as [|c s IH]; [reflexivity|].
  cbn [JS.trimStart]. destruct (JS.isSpace c) eqn:E; [exact IH|].
  cbn [JS.trimStart]. now rewrite E.
Qed.

Lemma trim_idem (s : string) : JS.trim (JS.trim s) = JS.trim s.
Proof.
  unfold JS.trim. now rewrite trimStart_trimEnd, trimStart_idem, trimEnd_idem.
Qed.

End TrimMore.

(** X26.  The code that [processCodeOutput] returns never begins or ends with
    white space, whichever of its ways of reading the content applies:
    trimming it again changes nothing. *)
Theorem decoded_code_is_trimmed (content : string) :
  JS.trim (Decoders.code (Decoders.processCodeOutput content))
  = Decoders.code (Decoders.processCodeOutput content).
Proof.
  assert (Hc : forall x, JS.trim (Decoders.cleanCode x) = Decoders.cleanCode x)
    by (intros x; apply trim_idem).
  assert (Hf : forall c, JS.trim (Decoders.code (Decoders.processCodeFallback c))
                         = Decoders.code (Decoders.processCodeFallback c)).
  { intros c. unfold Decoders.processCodeFallback. cbv zeta.
    repeat match goal with
           | |- context [Regex.exec ?r ?x] => destruct (Regex.exec r x) as [[? ?]|]
           | |- context [Decoders.isValidLanguage ?x] =>
               destruct (Decoders.isValidLanguage x)
           | |- context [JS.includes ?a ?b] => destruct (JS.includes a b)
           end; cbn [Decoders.code]; solve [apply trim_idem | apply Hc]. }
  unfold Decoders.processCodeOutput.
  destruct (negb (JS.truthy content)); [reflexivity|].
  destruct (negb (JS.truthy (JS.trim content))); [reflexivity|].
  destruct (Nat.ltb 1 _); [|apply Hf].
  destruct (Decoders.isValidLanguage _); [apply trim_idem|apply Hf].
Qed.

(** ** The normalizer: the white space of its output *)

Section SpacingFacts.
Import Normalizer Scanner Spacing.

Lemma noSpace_app (a b : string) : noSpace (a +:+ b) = noSpace a && noSpace b.
Proof.
  induction a as [|c a IH]; [now rewrite append_nil_l|].
  rewrite append_cons. cbn [noSpace]. now rewrite IH, andb_assoc.
Qed.

Lemma noSpace_head (r t : string) :
  r <> "" -> noSpace r = true -> headSat JS.isSpace (r +:+ t) = false.
Proof.
  destruct r as [|c r]; [congruence|]. intros _ H. cbn [noSpace] in H.
  apply andb_true_iff in H as [H _]. rewrite append_cons. cbn [headSat].
  now apply negb_true_iff in H.
Qed.

Lemma noSpace_endsSpace (r : string) : noSpace r = true -> endsSpace r = false.
Proof.
  induction r as [|c r IH]; [reflexivity|]. cbn [noSpace endsSpace].
  intros H. apply andb_true_iff in H as [Hc Hr]. destruct r; [|now apply IH].
  now apply negb_true_iff in Hc.
Qed.

Lemma endsSpace_both (a b : string) :
  endsSpace a = false -> endsSpace b = false -> endsSpace (a +:+ b) = false.
Proof.
  intros Ha Hb. destruct b as [|c b]; [now rewrite append_nil_r|].
  now rewrite endsSpace_app by discriminate.
Qed.

Lemma space_isSpace (c : ascii) : Ascii.eqb c " " = true -> JS.isSpace c = true.
Proof. intros H. apply Ascii.eqb_eq in H. now subst. Qed.

Lemma nl_isSpace (c : ascii) : Ascii.eqb c JS.nl = true -> JS.isSpace c = true.
Proof. intros H. apply Ascii.eqb_eq in H. now subst. Qed.

Lemma singleSpaced_pv (n : bool) (p1 p2 : option ascii) (s : string) :
  spaceBefore p1 = spaceBefore p2 -> singleSpaced n p1 s = singleSpaced n p2 s.
Proof. intros H. destruct s as [|c s]; [reflexivity|]. cbn [singleSpaced]. now rewrite H. Qed.

Lemma notSpace_before (c : ascii) : JS.isSpace c = false -> spaceBefore (Some c) = false.
Proof.
  intros H. cbn [spaceBefore]. destruct (Ascii.eqb c " ") eqn:E; [|reflexivity].
  apply space_isSpace in E. congruence.
Qed.

(** A replacement without white space passes the test, and what follows
    it is tested as after a character that is no space. *)
Lemma singleSpaced_noSpace (n : bool) (pv : option ascii) (r t : string) (c : ascii) :
  r <> "" -> noSpace r = true -> JS.isSpace c = false ->
  singleSpaced n pv (r +:+ t) = singleSpaced n (Some c) t.
Proof.
  intros Hr Hn Hc. revert pv Hr. induction r as [|a r IH]; intros pv Hr; [congruence|].
  cbn [noSpace] in Hn. apply andb_true_iff in Hn as [Ha Hn].
  apply negb_true_iff in Ha.
  rewrite append_cons. cbn [singleSpaced].
  destruct (Ascii.eqb a " ") eqn:E1; [apply space_isSpace in E1; congruence|].
  destruct (Ascii.eqb a JS.nl) eqn:E2; [apply nl_isSpace in E2; congruence|].
  rewrite Ha. cbn [negb andb].
  destruct r as [|b r].
  - rewrite append_nil_l. apply singleSpaced_pv.
    now rewrite !notSpace_before.
  - apply IH; [assumption|discriminate].
Qed.

(** The test passes on every end of a string on which it passes. *)
Lemma singleSpaced_drop (n : bool) (k : nat) (pv : option ascii) (s : string) :
  singleSpaced n pv s = true ->
  singleSpaced n (charBefore k pv s) (JS.drop k s) = true.
Proof.
  revert pv s. induction k as [|k IH]; intros pv s H.
  - now rewrite charBefore_0, drop_0.
  - destruct s as [|c s]; [reflexivity|].
    cbn [charBefore JS.drop]. apply IH. cbn [singleSpaced] in H.
    now apply andb_true_iff in H as [_ H].
Qed.

Lemma charBefore_pv (k : nat) (p1 p2 : option ascii) (s : string) :
  0 < k -> k <= String.length s -> charBefore k p1 s = charBefore k p2 s.
Proof.
  intros H0 H1. destruct k as [|k]; [lia|].
  destruct s as [|c s]; [cbn in H1; lia|]. reflexivity.
Qed.

Section SolidRule.
Variable rule : Rule.
Hypothesis Hsolid : solid rule.

Lemma solid_proper : proper rule.
Proof. apply Hsolid. Qed.

Lemma Scan_singleSpaced (n : bool) (s : string) :
  forall pv pv', singleSpaced n pv s = true ->
                 singleSpaced n pv (Scan rule pv' s) = true.
Proof.
  remember (String.length s) as m eqn:Hm. revert s Hm.
  induction m as [m IH] using lt_wf_ind. intros s Hm pv pv' H.
  rewrite (Scan_eq rule pv' s solid_proper).
  destruct (rule pv' s) as [[rep k]|] eqn:E.
  - destruct Hsolid as [Hp Hs].
    destruct (Hp _ _ _ _ E) as [Hk0 Hk1].
    destruct (Hs _ _ _ _ E) as (Hr & Hn & c & Hc & Hcs).
    rewrite (singleSpaced_noSpace n pv rep _ c Hr Hn Hcs).
    apply (IH (String.length (JS.drop k s))); [rewrite length_drop; lia|reflexivity|].
    rewrite <- Hc, (charBefore_pv k pv' pv s Hk0 Hk1).
    now apply singleSpaced_drop.
  - destruct s as [|c s]; [reflexivity|].
    cbn [singleSpaced] in H |- *. apply andb_true_iff in H as [H1 H2].
    rewrite H1. cbn [andb].
    apply (IH (String.length s)); [cbn in Hm; lia|reflexivity|exact H2].
Qed.

Lemma Scan_head (s : string) (pv : option ascii) :
  headSat JS.isSpace s = false -> headSat JS.isSpace (Scan rule pv s) = false.
Proof.
  intros H. rewrite (Scan_eq rule pv s solid_proper).
  destruct (rule pv s) as [[rep k]|] eqn:E.
  - destruct Hsolid as [_ Hs]. destruct (Hs _ _ _ _ E) as (Hr & Hn & _).
    now apply noSpace_head.
  - destruct s as [|c s]; [reflexivity|exact H].
Qed.

Lemma Scan_endsSpace (s : string) :
  forall pv, endsSpace s = false -> endsSpace (Scan rule pv s) = false.
Proof.
  remember (String.length s) as m eqn:Hm. revert s Hm.
  induction m as [m IH] using lt_wf_ind. intros s Hm pv H.
  rewrite (Scan_eq rule pv s solid_proper).
  destruct (rule pv s) as [[rep k]|] eqn:E.
  - destruct Hsolid as [Hp Hs].
    destruct (Hp _ _ _ _ E) as [Hk0 Hk1].
    destruct (Hs _ _ _ _ E) as (Hr & Hn & _).
    apply endsSpace_both; [now apply noSpace_endsSpace|].
    apply (IH (String.length (JS.drop k s))); [rewrite length_drop; lia|reflexivity|].
    destruct (JS.drop k s) as [|d t] eqn:Ed; [reflexivity|].
    rewrite <- (take_drop k s), Ed in H.
    now rewrite endsSpace_app in H by discriminate.
  - destruct s as [|c s]; [reflexivity|].
    destruct s as [|d s].
    + unfold Scan. cbn [String.length scan]. 
      destruct (rule (Some c) "") as [[r k]|] eqn:E'.
      * destruct Hsolid as [Hp _]. destruct (Hp _ _ _ _ E') as [? ?]. cbn in *. lia.
      * exact H.
    + assert (Hs : endsSpace (Scan rule (Some c) (String d s)) = false).
      { apply (IH (String.length (String d s))); [cbn in Hm |- *; lia|reflexivity|].
        exact H. }
      destruct (Scan rule (Some c) (String d s)) as [|e u] eqn:Eu.
      * (* the scan of a non-empty string is not empty *)
        exfalso. rewrite (Scan_eq rule (Some c) (String d s) solid_proper) in Eu.
        destruct (rule (Some c) (String d s)) as [[r k]|] eqn:E'; [|discriminate].
        destruct Hsolid as [_ Hs']. destruct (Hs' _ _ _ _ E') as (Hr & _).
        destruct r; [congruence|discriminate].
      * exact Hs.
Qed.

End SolidRule.

End SpacingFacts.

Section SolidRules.
Import Normalizer Scanner Spacing.

Lemma charBefore_startsWith (p s : string) (pv : option ascii) :
  JS.startsWith s p = true -> p <> "" -> endsSpace p = false ->
  exists c, charBefore (String.length p) pv s = Some c /\ JS.isSpace c = false.
Proof.
  revert s pv. induction p as [|a p IH]; intros s pv Hs Hp He; [congruence|].
  destruct s as [|c s]; [discriminate|]. cbn [JS.startsWith] in Hs.
  apply andb_true_iff in Hs as [Hc Hs]. apply Ascii.eqb_eq in Hc. subst c.
  cbn [String.length charBefore]. destruct p as [|b p].
  - cbn [String.length]. rewrite charBefore_0. exists a. split; [reflexivity|].
    exact He.
  - apply IH; [assumption|discriminate|exact He].
Qed.

Lemma solid_terms (D : list (string * string)) :
  solidTerms D = true -> solid (ruleTerms D).
Proof.
  intros HD. unfold solidTerms in HD. rewrite forallb_forall in HD.
  assert (Hne : nonempty D = true).
  { unfold nonempty. apply forallb_forall. intros pr Hin. specialize (HD _ Hin).
    now repeat (apply andb_true_iff in HD as [HD _]). }
  split; [now apply proper_terms|].
  intros pv s rep n H. unfold ruleTerms in H.
  destruct (firstMatch_some _ _ _ _ H) as (p & Hin & -> & Hs).
  specialize (HD _ Hin). cbn [fst snd] in HD.
  apply andb_true_iff in HD as [HD H4]. apply andb_true_iff in HD as [HD H3].
  apply andb_true_iff in HD as [H1 H2].
  apply Nat.ltb_lt in H1, H3. apply negb_true_iff in H2.
  split; [destruct rep; [cbn in H3; lia|discriminate]|]. split; [exact H4|].
  apply charBefore_startsWith; auto. destruct p; [cbn in H1; lia|discriminate].
Qed.

Lemma digit_notSpace (c : ascii) : Regex.isDigit c = true -> JS.isSpace c = false.
Proof.
  assert (H : forall c, Regex.isDigit c && JS.isSpace c = false).
  { apply (ascii_eq (fun c => Regex.isDigit c && JS.isSpace c) (fun _ => false)).
    vm_compute. reflexivity. }
  intros Hd. specialize (H c). now rewrite Hd in H.
Qed.

Lemma noSpace_digits (s : string) :
  noSpace (JS.take (runLen Regex.isDigit s) s) = true.
Proof.
  induction s as [|c s IH]; [reflexivity|]. cbn [runLen].
  destruct (Regex.isDigit c) eqn:E; [|reflexivity].
  rewrite take_cons. cbn [noSpace]. now rewrite (digit_notSpace c E), IH.
Qed.

Lemma charBefore_run (p : ascii -> bool) (s : string) (pv : option ascii) :
  1 <= runLen p s ->
  exists c, charBefore (runLen p s) pv s = Some c /\ p c = true.
Proof.
  revert pv. induction s as [|c s IH]; intros pv; cbn [runLen]; [lia|].
  destruct (p c) eqn:E; [|lia]. intros _. cbn [charBefore].
  destruct (Nat.eq_dec (runLen p s) 0) as [H0|H0].
  - rewrite H0, charBefore_0. eauto.
  - apply IH. lia.
Qed.

Lemma solid_version : solid ruleVersion.
Proof.
  split; [apply proper_version|].
  intros pv s rep n H.
  pose proof (proper_version pv s rep n H) as [Hn0 Hn1].
  revert H. unfold ruleVersion.
  set (d1 := runLen Regex.isDigit s). set (s1 := JS.drop d1 s).
  set (s2 := JS.drop 2 s1). set (d2 := runLen Regex.isDigit s2).
  set (s3 := JS.drop d2 s2). set (s4 := JS.drop 2 s3).
  set (d3 := runLen Regex.isDigit s4).
  destruct (Nat.leb 1 d1 && JS.startsWith s1 ". " && Nat.leb 1 d2
            && JS.startsWith s3 ". " && Nat.leb 1 d3) eqn:E; [|discriminate].
  intros H. injection H as <- <-.
  repeat (apply andb_true_iff in E as [E ?]).
  apply Nat.leb_le in E, H1, H.
  split; [|split].
  - destruct s as [|c s]; [cbn in E; lia|]. subst d1. cbn [runLen] in *.
    destruct (Regex.isDigit c); [|lia]. rewrite take_cons, append_cons. discriminate.
  - rewrite !noSpace_app. subst d1 d2 d3. rewrite !noSpace_digits. reflexivity.
  - assert (L1 : String.length s1 = String.length s - d1) by apply length_drop.
    assert (L2 : String.length s2 = String.length s1 - 2) by apply length_drop.
    assert (L3 : String.length s3 = String.length s2 - d2) by apply length_drop.
    assert (L4 : String.length s4 = String.length s3 - 2) by apply length_drop.
    pose proof (runLen_le Regex.isDigit s4) as R4. fold d3 in R4.
    rewrite <- (charBefore_plus_drop (d1 + 2 + d2 + 2) d3) by lia.
    replace (JS.drop (d1 + 2 + d2 + 2) s) with s4.
    2:{ subst s4 s3 s2 s1. rewrite !drop_drop. f_equal. lia. }
    destruct (charBefore_run Regex.isDigit s4
                (charBefore (d1 + 2 + d2 + 2) pv s) H) as (c & Hc & Hd).
    exists c. split; [exact Hc|now apply digit_notSpace].
Qed.

End SolidRules.

Section CollapseFacts.
Import Normalizer Scanner Spacing.

Variable p : ascii -> bool.
Variable n : bool.
Hypothesis p_space : p " "%char = true.
Hypothesis p_covers :
  forall c, JS.isSpace c = true -> p c = true \/ (c = JS.nl /\ n = true).

Lemma proper_plus (rep : string) : proper (rulePlus p rep).
Proof.
  intros pv s r k. unfold rulePlus. destruct s as [|c s]; [discriminate|].
  destruct (p c) eqn:E; [|discriminate]. intros [= _ <-].
  pose proof (runLen_le p (String c s)). cbn [runLen] in *. rewrite E in *. lia.
Qed.

(** After the pass that puts one space for each run of [p], the text is
    single-spaced, also when a space comes before it, as it then begins
    with no character of [p]. *)
Lemma collapse_singleSpaced (s : string) :
  forall pv pv', (spaceBefore pv = true -> headSat p s = false) ->
                 singleSpaced n pv (Scan (rulePlus p " ") pv' s) = true.
Proof.
  remember (String.length s) as m eqn:Hm. revert s Hm.
  induction m as [m IH] using lt_wf_ind. intros s Hm pv pv' H.
  rewrite (Scan_eq _ pv' s (proper_plus " ")).
  destruct s as [|c s]; [reflexivity|]. cbn [rulePlus].
  destruct (p c) eqn:E.
  - pose proof (runLen_le p (String c s)) as Hle.
    assert (H1 : 1 <= runLen p (String c s)) by (cbn [runLen]; rewrite E; lia).
    change (" " +:+ ?t) with (String " " t). cbn [singleSpaced Ascii.eqb].
    change (Ascii.eqb " " " ") with true. cbv iota.
    destruct (spaceBefore pv) eqn:Eb.
    + specialize (H eq_refl). cbn [headSat] in H. congruence.
    + cbn [negb andb].
      apply (IH (String.length (JS.drop (runLen p (String c s)) (String c s))));
        [rewrite length_drop; lia|reflexivity|].
      intros _. apply headSat_drop_runLen.
  - cbn [singleSpaced].
    assert (Hc : (if Ascii.eqb c " " then negb (spaceBefore pv)
                  else if Ascii.eqb c JS.nl then n else negb (JS.isSpace c)) = true).
    { destruct (Ascii.eqb c " ") eqn:E1.
      { apply Ascii.eqb_eq in E1. subst c. congruence. }
      destruct (Ascii.eqb c JS.nl) eqn:E2.
      { apply Ascii.eqb_eq in E2. subst c.
        destruct (p_covers JS.nl eq_refl) as [Hp|[_ Hn]]; [congruence|exact Hn]. }
      destruct (JS.isSpace c) eqn:E3; [|reflexivity].
      destruct (p_covers c E3) as [Hp|[-> _]]; [congruence|].
      now rewrite Ascii.eqb_refl in E2. }
    rewrite Hc. cbn [andb].
    apply (IH (String.length s)); [cbn in Hm; lia|reflexivity|].
    intros Hb. cbn [spaceBefore] in Hb. apply Ascii.eqb_eq in Hb. subst c. congruence.
Qed.

End CollapseFacts.

Section TrimSpacing.
Import Normalizer Scanner Spacing.

Lemma singleSpaced_weaken (n : bool) (pv : option ascii) (s : string) :
  singleSpaced n pv s = true -> singleSpaced n None s = true.
Proof.
  destruct s as [|c s]; [reflexivity|]. cbn [singleSpaced spaceBefore].
  intros H. apply andb_true_iff in H as [H1 H2]. rewrite H2, andb_true_r.
  destruct (Ascii.eqb c " "); [reflexivity|exact H1].
Qed.

Lemma singleSpaced_trimStart (n : bool) (s : string) :
  singleSpaced n None s = true -> singleSpaced n None (JS.trimStart s) = true.
Proof.
  induction s as [|c s IH]; [reflexivity|]. intros H. cbn [JS.trimStart].
  destruct (JS.isSpace c); [|exact H].
  apply IH. cbn [singleSpaced] in H. apply andb_true_iff in H as [_ H].
  now apply singleSpaced_weaken in H.
Qed.

Lemma singleSpaced_trimEnd (n : bool) (s : string) :
  forall pv, singleSpaced n pv s = true -> singleSpaced n pv (JS.trimEnd s) = true.
Proof.
  induction s as [|c s IH]; intros pv H; [reflexivity|].
  cbn [singleSpaced] in H. apply andb_true_iff in H as [H1 H2].
  cbn [JS.trimEnd]. specialize (IH _ H2).
  destruct (JS.trimEnd s) as [|d t].
  - destruct (JS.isSpace c) eqn:E; [reflexivity|]. cbn [singleSpaced].
    now rewrite E, H1.
  - cbn [singleSpaced] in IH |- *. now rewrite H1, IH.
Qed.

Lemma singleSpaced_trim (n : bool) (s : string) :
  singleSpaced n None s = true -> singleSpaced n None (JS.trim s) = true.
Proof. intros H. now apply singleSpaced_trimEnd, singleSpaced_trimStart. Qed.

Lemma trimStart_head (s : string) : headSat JS.isSpace (JS.trimStart s) = false.
Proof.
  induction s as [|c s IH]; [reflexivity|]. cbn [JS.trimStart].
  destruct (JS.isSpace c) eqn:E; [exact IH|exact E].
Qed.

Lemma trimEnd_head (s : string) :
  headSat JS.isSpace s = false -> headSat JS.isSpace (JS.trimEnd s) = false.
Proof.
  destruct s as [|c s]; [reflexivity|]. cbn [headSat JS.trimEnd]. intros H.
  destruct (JS.trimEnd s); rewrite ?H; cbn [headSat]; now rewrite ?H.
Qed.

Lemma head_trimStart (s : string) : headSat JS.isSpace s = false -> JS.trimStart s = s.
Proof. destruct s as [|c s]; [reflexivity|]. cbn. now intros ->. Qed.

(** Trimming changes nothing exactly when the text neither begins nor
    ends with white space. *)
Lemma trim_fixed (s : string) :
  headSat JS.isSpace s = false -> endsSpace s = false -> JS.trim s = s.
Proof.
  intros H1 H2. unfold JS.trim. rewrite (head_trimStart s H1).
  now apply trimEnd_fixed.
Qed.

(** What every replacement of [fixTechnicalTerms] keeps, the whole of it
    keeps. *)
Lemma fixTechnicalTerms_keeps (P : string -> Prop) :
  (forall rule pv s, solid rule -> P s -> P (Scan rule pv s)) ->
  forall s, P s -> P (fixTechnicalTerms s).
Proof.
  intros HP s Hs. rewrite fixTechnicalTerms_terms. unfold versions, terms.
  apply HP; [apply solid_version|].
  repeat (apply HP; [apply solid_terms; reflexivity|]).
  exact Hs.
Qed.

(** The text before the technical terms is a trimmed text in which the
    white space was collapsed. *)
Lemma processText_stages (x : string) (o : TextProcessingOptions) :
  exists z,
    processText x o
    = fixTechnicalTerms
        (JS.trim (if preserveNewlines o
                  then scan (rulePlus isSpNotNl " ") (S (String.length z)) None z
                  else scan (rulePlus JS.isSpace " ") (S (String.length z)) None z)).
Proof.
  unfold processText. cbv zeta. destruct (preserveNewlines o).
  - match goal with
    | |- context [Regex.replaceAll reSpacesNotNl _ ?Z] =>
        exists Z;
        rewrite (replaceAll_scan reSpacesNotNl [Regex.Lit " "] _ Z
                   (implements_plus isSpNotNl " "))
    end.
    reflexivity.
  - match goal with
    | |- context [Regex.replaceAll reSpaces _ ?Z] =>
        exists Z;
        rewrite (replaceAll_scan reSpaces [Regex.Lit " "] _ Z
                   (implements_plus JS.isSpace " "))
    end.
    reflexivity.
Qed.

End TrimSpacing.

(** X27.  The normalized text never begins or ends with white space: trimming
    it changes nothing. *)
Theorem normalized_text_is_trimmed (x : string) (o : Normalizer.TextProcessingOptions) :
  JS.trim (Normalizer.processText x o) = Normalizer.processText x o.
Proof.
  destruct (processText_stages x o) as [z ->].
  match goal with
  | |- context [Normalizer.fixTechnicalTerms (JS.trim ?Z)] => generalize Z
  end.
  intros y.
  enough (H : JS.trim (Normalizer.fixTechnicalTerms (JS.trim y))
              = Normalizer.fixTechnicalTerms (JS.trim y)
              /\ Scanner.headSat JS.isSpace (Normalizer.fixTechnicalTerms (JS.trim y))
                 = false
              /\ Scanner.endsSpace (Normalizer.fixTechnicalTerms (JS.trim y)) = false)
    by apply H.
  apply (fixTechnicalTerms_keeps
           (fun s => JS.trim s = s
                     /\ Scanner.headSat JS.isSpace s = false
                     /\ Scanner.endsSpace s = false)).
  - intros rule pv s Hr (_ & H1 & H2).
    assert (H1' := Scan_head rule Hr s pv H1).
    assert (H2' := Scan_endsSpace rule Hr s pv H2).
    split; [now apply trim_fixed|now split].
  - assert (H1 : Scanner.headSat JS.isSpace (JS.trim y) = false)
      by (apply trimEnd_head, trimStart_head).
    assert (H2 : Scanner.endsSpace (JS.trim y) = false)
      by (apply trimEnd_fixed, trimEnd_idem).
    split; [now apply trim_fixed|now split].
Qed.

(** X28.  In the normalized text every white space character is a single space
    between two other characters or, when [preserveNewlines] is set, a
    line feed: no tab, carriage return or other white space is left, and
    no space follows a space. *)
Theorem normalized_text_is_single_spaced (x : string)
    (o : Normalizer.TextProcessingOptions) :
  Spacing.singleSpaced (Normalizer.preserveNewlines o) None (Normalizer.processText x o)
  = true.
Proof.
  destruct (processText_stages x o) as [z ->].
  apply (fixTechnicalTerms_keeps
           (fun s => Spacing.singleSpaced (Normalizer.preserveNewlines o) None s = true)).
  - intros rule pv s Hr H. now apply Scan_singleSpaced.
  - apply singleSpaced_trim.
    destruct (Normalizer.preserveNewlines o).
    + apply (collapse_singleSpaced Scanner.isSpNotNl true); [reflexivity| |discriminate].
      intros c Hc. unfold Scanner.isSpNotNl, Normalizer.isNl, Regex.isChar.
      rewrite Hc. destruct (Ascii.eqb JS.nl c) eqn:E; [|now left].
      apply Ascii.eqb_eq in E. right. now split.
    + apply (collapse_singleSpaced JS.isSpace false); [reflexivity| |discriminate].
      intros c Hc. now left.
Qed.

(** X29.  A text of white space only (the empty text too) is normalized to the
    empty text. *)
Theorem blank_text_normalizes_to_empty (x : string)
    (o : Normalizer.TextProcessingOptions) :
  Scanner.allSpace x = true -> Normalizer.processText x o = "".
Proof.
  intros H. rewrite processText_shape, shape_steps.
  rewrite trimEnd_allSpace; [reflexivity|]. now apply steps_allSpace.
Qed.

Lemma blank_text_normalizes_to_empty_witness :
  Scanner.allSpace (" " +:+ JS.NL +:+ "  ") = true
  /\ Normalizer.processText (" " +:+ JS.NL +:+ "  ") Normalizer.defaultOptions = "".
Proof.
  split; [reflexivity|]. apply blank_text_normalizes_to_empty. reflexivity.
Defined.

(** ** The merged text: no run of blank lines *)

Section BlankLineFacts.
Import Normalizer Scanner Spacing.

Lemma proper_blankLines : proper ruleBlankLines.
Proof.
  intros pv s rep n. unfold ruleBlankLines.
  destruct (Nat.leb_spec 3 (runLen isNl s)) as [H|H]; [|discriminate].
  intros [= _ <-]. pose proof (runLen_le isNl s). lia.
Qed.

Lemma isNl_eqb (c : ascii) : isNl c = Ascii.eqb c JS.nl.
Proof. unfold isNl, Regex.isChar. apply Ascii.eqb_sym. Qed.

Lemma noTripleNl_head (k : nat) (s : string) :
  headSat isNl s = false -> noTripleNl k s = noTripleNl 0 s.
Proof.
  destruct s as [|c s]; [reflexivity|]. cbn [headSat noTripleNl].
  rewrite isNl_eqb. now intros ->.
Qed.

(** After the pass that leaves at most two line feeds of each run. *)
Lemma blankLines_noTriple (s : string) :
  forall k pv, k = 0 \/ k + runLen isNl s <= 2 ->
               noTripleNl k (Scan ruleBlankLines pv s) = true.
Proof.
  remember (String.length s) as m eqn:Hm. revert s Hm.
  induction m as [m IH] using lt_wf_ind. intros s Hm k pv Hk.
  rewrite (Scan_eq _ pv s proper_blankLines). unfold ruleBlankLines at 1.
  destruct (Nat.leb_spec 3 (runLen isNl s)) as [H3|H3].
  - destruct Hk as [->|Hk]; [|lia].
    change (noTripleNl 0 (JS.NL +:+ JS.NL +:+ ?t)) with (noTripleNl 2 t).
    pose proof (runLen_le isNl s).
    apply (IH (String.length (JS.drop (runLen isNl s) s)));
      [rewrite length_drop; lia|reflexivity|].
    right. pose proof (headSat_drop_runLen isNl s) as Hh.
    rewrite headSat_runLen in Hh. apply Nat.leb_gt in Hh. lia.
  - destruct s as [|c s]; [reflexivity|].
    cbn [noTripleNl]. cbn [runLen] in H3, Hk. rewrite isNl_eqb in H3, Hk.
    destruct (Ascii.eqb c JS.nl) eqn:E.
    + assert (Hk2 : k < 2) by (destruct Hk; lia).
      apply Nat.ltb_lt in Hk2. rewrite Hk2. cbn [andb].
      apply (IH (String.length s)); [cbn in Hm; lia|reflexivity|]. right. lia.
    + apply (IH (String.length s)); [cbn in Hm; lia|reflexivity|]. now left.
Qed.

Lemma nl_head_space (s : string) : headSat JS.isSpace s = false -> headSat isNl s = false.
Proof.
  destruct s as [|c s]; [reflexivity|]. cbn [headSat]. rewrite isNl_eqb.
  intros H. destruct (Ascii.eqb c JS.nl) eqn:E; [|reflexivity].
  apply nl_isSpace in E. congruence.
Qed.

Lemma blankLines_head (s : string) (pv : option ascii) :
  headSat JS.isSpace s = false ->
  headSat JS.isSpace (Scan ruleBlankLines pv s) = false.
Proof.
  intros H. rewrite (Scan_eq _ pv s proper_blankLines). unfold ruleBlankLines at 1.
  destruct (Nat.leb_spec 3 (runLen isNl s)) as [H3|H3].
  - apply nl_head_space in H. rewrite headSat_runLen in H.
    apply Nat.leb_gt in H. lia.
  - destruct s as [|c s]; [reflexivity|exact H].
Qed.

Lemma allNl_endsSpace (s : string) :
  s <> "" -> runLen isNl s = String.length s -> endsSpace s = true.
Proof.
  induction s as [|c s IH]; [congruence|]. intros _. cbn [runLen String.length].
  rewrite isNl_eqb. destruct (Ascii.eqb c JS.nl) eqn:E; [|lia]. intros H.
  destruct s as [|d s]; [cbn; now apply nl_isSpace|].
  cbn [endsSpace]. apply IH; [discriminate|lia].
Qed.

Lemma blankLines_endsSpace (s : string) :
  forall pv, endsSpace s = false -> endsSpace (Scan ruleBlankLines pv s) = false.
Proof.
  remember (String.length s) as m eqn:Hm. revert s Hm.
  induction m as [m IH] using lt_wf_ind. intros s Hm pv H.
  rewrite (Scan_eq _ pv s proper_blankLines). unfold ruleBlankLines at 1.
  destruct (Nat.leb_spec 3 (runLen isNl s)) as [H3|H3].
  - pose proof (runLen_le isNl s) as Hle.
    destruct (JS.drop (runLen isNl s) s) as [|d t] eqn:Ed.
    + (* the run would reach the end of the text *)
      exfalso. assert (Hl : String.length (JS.drop (runLen isNl s) s) = 0)
        by now rewrite Ed.
      rewrite length_drop in Hl.
      rewrite allNl_endsSpace in H; [discriminate| |lia].
      destruct s; [cbn in H3; lia|discriminate].
    + assert (Hs : endsSpace (String d t) = false).
      { rewrite <- (take_drop (runLen isNl s) s), Ed in H.
        now rewrite endsSpace_app in H by discriminate. }
      assert (Hr : endsSpace (Scan ruleBlankLines (charBefore (runLen isNl s) pv s)
                                (String d t)) = false).
      { apply (IH (String.length (String d t))); [|reflexivity|exact Hs].
        rewrite <- Ed, length_drop. lia. }
      destruct (Scan ruleBlankLines _ (String d t)) as [|e u] eqn:Eu.
      * exfalso. rewrite (Scan_eq _ _ _ proper_blankLines) in Eu.
        unfold ruleBlankLines at 1 in Eu.
        destruct (Nat.leb 3 (runLen isNl (String d t))); discriminate.
      * now rewrite endsSpace_app by discriminate.
  - destruct s as [|c s]; [reflexivity|].
    destruct s as [|d s].
    + unfold Scan. cbn. exact H.
    + assert (Hr : endsSpace (Scan ruleBlankLines (Some c) (String d s)) = false).
      { apply (IH (String.length (String d s))); [cbn in Hm |- *; lia|reflexivity|].
        exact H. }
      destruct (Scan ruleBlankLines (Some c) (String d s)) as [|e u] eqn:Eu.
      * exfalso. rewrite (Scan_eq _ _ _ proper_blankLines) in Eu.
        unfold ruleBlankLines at 1 in Eu.
        destruct (Nat.leb 3 (runLen isNl (String d s))); discriminate.
      * exact Hr.
Qed.

(** The test is passed by a text followed by another, when the first does
    not end with white space. *)
Lemma noTripleNl_app (a b : string) (k : nat) :
  a <> "" -> endsSpace a = false ->
  noTripleNl k (a +:+ b) = noTripleNl k a && noTripleNl 0 b.
Proof.
  revert k. induction a as [|c a IH]; intros k Ha He; [congruence|].
  rewrite append_cons. cbn [noTripleNl].
  destruct a as [|d a].
  - rewrite append_nil_l. cbn [endsSpace] in He. cbn [noTripleNl].
    destruct (Ascii.eqb c JS.nl) eqn:E; [apply nl_isSpace in E; congruence|].
    reflexivity.
  - rewrite endsSpace_cons in He by discriminate.
    destruct (Ascii.eqb c JS.nl).
    + rewrite IH by (assumption || discriminate). now rewrite andb_assoc.
    + now rewrite IH by (assumption || discriminate).
Qed.

Lemma endsWith_blankLine (s : string) :
  endsSpace s = false -> JS.endsWith s (JS.NL +:+ JS.NL) = false.
Proof.
  intros H. destruct (JS.endsWith s (JS.NL +:+ JS.NL)) eqn:E; [|reflexivity].
  apply endsWith_spec in E as [q ->].
  rewrite endsSpace_app in H by discriminate. discriminate.
Qed.

End BlankLineFacts.

(** X30.  When both texts are non-empty, [combineContent] returns the two
    texts, each trimmed and with its runs of three or more line feeds cut
    to two, with a blank line between them, or a single space after the
    sentence that introduces a document; the test whether the first text
    already ends with a blank line never succeeds.  So the combined text
    has no three line feeds in a row. *)
Theorem combined_content_has_no_blank_run (content1 content2 : string) :
  JS.truthy content1 = true -> JS.truthy content2 = true ->
  let normalized t :=
    Regex.replaceAll Merger.reBlankLines [Regex.Lit Merger.blankLine] (JS.trim t) in
  let introduced :=
    Regex.test Merger.documentIntroPattern (normalized content1)
    && JS.startsWith (JS.trim (normalized content2))
         ("I" +:+ Merger.apostrophe +:+ "ve created") in
  Merger.combineContent content1 content2
  = normalized content1
    +:+ (if introduced then " " else Merger.blankLine)
    +:+ normalized content2
  /\ Spacing.noTripleNl 0 (Merger.combineContent content1 content2) = true.
Proof.
  intros H1 H2. cbv zeta.
  assert (Hn : forall t,
             Regex.replaceAll Merger.reBlankLines [Regex.Lit Merger.blankLine] (JS.trim t)
             = Scanner.Scan Scanner.ruleBlankLines None (JS.trim t)).
  { intros t. exact (replaceAll_scan _ _ _ _ implements_blankLines). }
  unfold Merger.combineContent. rewrite H1, H2. cbn [negb]. rewrite !Hn.
  set (n1 := Scanner.Scan Scanner.ruleBlankLines None (JS.trim content1)).
  set (n2 := Scanner.Scan Scanner.ruleBlankLines None (JS.trim content2)).
  assert (E1 : Scanner.endsSpace n1 = false).
  { apply blankLines_endsSpace, trimEnd_fixed, trimEnd_idem. }
  assert (T1 : Spacing.noTripleNl 0 n1 = true) by (apply blankLines_noTriple; now left).
  assert (T2 : Spacing.noTripleNl 0 n2 = true) by (apply blankLines_noTriple; now left).
  assert (D2 : Scanner.headSat Normalizer.isNl n2 = false).
  { apply nl_head_space, blankLines_head, trimEnd_head, trimStart_head. }
  assert (Hsep : forall sep, sep = " " \/ sep = Merger.blankLine ->
             Spacing.noTripleNl 0 (n1 +:+ sep +:+ n2) = true).
  { intros sep Hs.
    assert (Hr : Spacing.noTripleNl 0 (sep +:+ n2) = true).
    { destruct Hs as [->| ->].
      - change (" " +:+ n2) with (String " " n2). cbn [Spacing.noTripleNl]. exact T2.
      - change (Spacing.noTripleNl 0 (Merger.blankLine +:+ n2))
          with (Spacing.noTripleNl 2 n2).
        now rewrite (noTripleNl_head 2 n2 D2). }
    destruct n1 as [|c n1'] eqn:En; [now rewrite append_nil_l|].
    rewrite noTripleNl_app by (discriminate || assumption).
    now rewrite T1, Hr. }
  rewrite (endsWith_blankLine n1 E1 : JS.endsWith n1 Merger.blankLine = false).
  destruct (_ && _).
  - split; [reflexivity|]. apply Hsep. now left.
  - split; [reflexivity|]. apply Hsep. now right.
Qed.

Lemma combined_content_has_no_blank_run_witness :
  JS.truthy "Intro" = true /\ JS.truthy "Body" = true
  /\ Spacing.noTripleNl 0 (Merger.combineContent "Intro" "Body") = true.
Proof.
  split; [reflexivity|]. split; [reflexivity|].
  apply (combined_content_has_no_blank_run "Intro" "Body"); reflexivity.
Defined.
